(** * NOMAD GUI: search filter registry, search-bar parser and datatable

    A shallow embedding of the parts of the GUI that the specification
    talks about:

    - [Pagination]: [combinePagination] of
      [gui/src/components/datatable/Datatable.js];
    - [Selection]: [DatatableRow.handleSelect] of the same file;
    - [FilterRegistry]: [saveFilter], [registerFilter] and the abbreviation
      tables of the filter registry;
    - [SearchBar]: the module-level tables and [handleSubmit] of
      [gui/src/components/search/Search.js];
    - [SearchStore]: the stale-response guard the specification asks of the
      search store;

    and of the code around them:

    - [Table]: the load-more and scroll paginations, the rows of a page
      and the selection of the columns of the datatable;
    - the suggestions, [filterOptions] and [usePagination] of the search
      bar;
    - the names of the materials search and [getSuggestions] of the filter
      registry;
    - [isEquivalent], [arraysEqual], [onlyUnique] and [objectFilter] of
      [gui/src/utils.js].

    Conventions.  A JavaScript string is a Rocq [string]: its characters are
    read as the code units U+0000..U+00FF.  A JavaScript object used as a
    dictionary is a [gmap] on its own keys (properties inherited from the
    prototypes are not modelled); an object with a fixed set of properties
    is a record, a property that may be missing is an [option]. *)

From Stdlib Require Import ZArith NArith Ascii String List.
From stdpp Require Import base option list strings gmap fin_maps sorting.

Local Open Scope string_scope.

(** ** JavaScript values *)

(** The primitive values that flow through the modelled code.  Numbers that
    the code only tests for truthiness and copies are kept as integers,
    with [JNaN] apart. *)
Inductive jsval : Type :=
  | JUndefined
  | JNull
  | JBool (b : bool)
  | JNum (n : Z)
  | JNaN
  | JStr (s : string).

#[global] Instance jsval_eq_dec : EqDecision jsval.
Proof. solve_decision. Defined.

(** ToBoolean. *)
Definition truthy (v : jsval) : bool :=
  match v with
  | JUndefined | JNull | JNaN => false
  | JBool b => b
  | JNum n => negb (n =? 0)%Z
  | JStr s => negb (String.eqb s "")
  end.

(** [a || b]. *)
Definition jor (a b : jsval) : jsval := if truthy a then a else b.

(** ** Datatable.js: combinePagination *)

Module Pagination.

(** The request pagination object: every property read by the code. *)
Record Request : Type := mkRequest {
  req_page_size : jsval;
  req_order_by : jsval;
  req_order : jsval;
  req_page : jsval;
  req_page_after_value : jsval
}.

(** The response pagination object, as returned by the API. *)
Record Response : Type := mkResponse {
  res_page_size : jsval;
  res_order_by : jsval;
  res_order : jsval;
  res_page : jsval;
  res_total : jsval;
  res_page_after_value : jsval;
  res_next_page_after_value : jsval
}.

(** The combined object.  The first five properties are always created by
    the object literal; the two cursor properties exist only when the
    branch that assigns them was taken ([None]: no such property). *)
Record Combined : Type := mkCombined {
  page_size : jsval;
  order_by : jsval;
  order : jsval;
  page : jsval;
  total : jsval;
  page_after_value : option jsval;
  next_page_after_value : option jsval
}.

(** [response?.field]: [undefined] when the response is null or
    undefined. *)
Definition opt_get (response : option Response) (f : Response -> jsval) : jsval :=
  match response with
  | Some r => f r
  | None => JUndefined
  end.

Definition combinePagination (request : Request) (response : option Response) : Combined :=
  let result_page := jor (req_page request) (opt_get response res_page) in
  let cursor := negb (truthy result_page) in
  {| page_size := jor (req_page_size request) (opt_get response res_page_size);
     order_by := jor (req_order_by request) (opt_get response res_order_by);
     order := jor (req_order request) (opt_get response res_order);
     page := result_page;
     total := opt_get response res_total;
     page_after_value :=
       if cursor
       then Some (jor (req_page_after_value request)
                      (opt_get response res_page_after_value))
       else None;
     next_page_after_value :=
       if cursor
       then Some (opt_get response res_next_page_after_value)
       else None |}.

(** Object literals with the remaining properties left out. *)
Definition emptyRequest : Request :=
  mkRequest JUndefined JUndefined JUndefined JUndefined JUndefined.

Definition emptyResponse : Response :=
  mkResponse JUndefined JUndefined JUndefined JUndefined JUndefined
             JUndefined JUndefined.

End Pagination.

(** ** Datatable.js: DatatableRow.handleSelect *)

Module Selection.

Section Rows.
(** A row object and its [entry_id] property. *)
Variable Row : Type.
Variable entry_id : Row -> string.

(** The selection is the string ['all'] or an array of rows. *)
Inductive Selected : Type :=
  | SelectedAll
  | SelectedRows (rows : list Row).

(** [array.indexOf(x)]: the first index holding [x], if any
    ([None] is the [-1] of the source). *)
Fixpoint indexOf (ids : list string) (x : string) : option nat :=
  match ids with
  | [] => None
  | y :: ids' =>
      if String.eqb y x then Some 0%nat else S <$> indexOf ids' x
  end.

(** [selected.slice(0, index)] and [selected.slice(index + 1)]. *)
Definition slice_to (index : nat) (rows : list Row) : list Row := take index rows.
Definition slice_from (index : nat) (rows : list Row) : list Row := drop index rows.

(** The updater handed to [onSelectedChanged] when [row] is clicked. *)
Definition handleSelect (row : Row) (selected : Selected) : list Row :=
  match selected with
  | SelectedAll => [row]
  | SelectedRows rows =>
      match indexOf (map entry_id rows) (entry_id row) with
      | Some index => slice_to index rows ++ slice_from (index + 1) rows
      | None => rows ++ [row]
      end
  end.
End Rows.

Arguments SelectedAll {Row}.
Arguments SelectedRows {Row} rows.
Arguments handleSelect {Row} entry_id row selected.

End Selection.


(** ** The search quantities table *)

(** [type.type_data] of an entry of [searchQuantities.json]: the name of a
    primitive type, or the array of the values of an enumeration. *)
Inductive TypeData : Type :=
  | TypeName (name : string)
  | TypeEnum (values : list string).

(** One entry of [searchQuantities.json], with the properties the modelled
    code reads.  The table itself is generated and is a parameter of
    whatever uses it. *)
Record Quantity : Type := mkQuantity {
  q_name : option string;
  q_description : option string;
  q_unit : option string;
  q_nested : option bool;
  q_repeats : option bool;
  q_type_data : TypeData
}.

(** [a || b] on values that are strings or undefined. *)
Definition str_or (a b : option string) : option string :=
  match a with
  | Some s => if String.eqb s "" then b else a
  | None => b
  end.

(** [s.split('.')]. *)
Fixpoint split_dot (s : string) : list string :=
  match s with
  | EmptyString => [EmptyString]
  | String c s' =>
      if Ascii.eqb c "."%char then EmptyString :: split_dot s'
      else match split_dot s' with
           | seg :: segs => String c seg :: segs
           | [] => [String c EmptyString]
           end
  end.

(** [fullname.split('.').pop()]. *)
Definition lastSegment (fullname : string) : string :=
  default EmptyString (last (split_dot fullname)).

(** ** The filter registry *)

Module FilterRegistry.

(** Modelled from the spec: the [DType] enumeration, imported by the
    registry from a version of [utils.js] that is not among the sources;
    the members are those of the data model (section 3). *)
Inductive DType : Type :=
  | DInt | DFloat | DTimestamp | DEnum | DString | DBoolean.

#[global] Instance DType_eq_dec : EqDecision DType.
Proof. solve_decision. Defined.

(** What the registry imports from [utils.js] and [units.js], which are not
    among the sources: [getDatatype(name)], [formatLabel(label)] and
    [new Unit(unit).dimension()] ([None]: the constructor throws). *)
Record Imports : Type := mkImports {
  getDatatype : string -> option DType;
  formatLabel : string -> string;
  unitDimension : string -> option string
}.

(** [getSerializer(dtype, pretty)] and [getDeserializer(dtype, dimension)]
    return closures; a closure is kept as the arguments it was built
    from. *)
Record Serializer : Type := mkSerializer {
  ser_dtype : option DType;
  ser_pretty : bool
}.

Record Deserializer : Type := mkDeserializer {
  des_dtype : option DType;
  des_dimension : option string
}.

(** The aggregation settings and the value setters that the registry
    stores, closures again kept as what they were built from. *)
Inductive Aggs : Type :=
  | AggTerms (size : nat) (include : option (list string))
  | AggTermsOf (target : string) (keys : list string).

Inductive ValueSetter : Type :=
  | SetElements
  | SetOptionsOf (target : string).

(** The statistics components. *)
Inductive Component : Type :=
  | InputRange
  | InputList
  | InputPeriodicTable
  | InputSection (section : string) (inner : Component).

Record Stats : Type := mkStats {
  component : Component;
  layout_width : nat;
  layout_height : nat
}.

(** Options of a filter: option name -> label. *)
Abbreviation Options := (gmap string string).

(** The [config] argument of [saveFilter]; [None] is a property the object
    literal leaves out.  [cfg_name] is only read for sub-quantities. *)
Record Config : Type := mkConfig {
  cfg_name : option string;
  cfg_options : option Options;
  cfg_aggs : option Aggs;
  cfg_value : option ValueSetter;
  cfg_multiple : option bool;
  cfg_exclusive : option bool;
  cfg_unit : option string;
  cfg_dtype : option DType;
  cfg_label : option string;
  cfg_stats : option Stats;
  cfg_description : option string;
  cfg_scale : option string;
  cfg_queryMode : option string;
  cfg_global : option bool;
  cfg_default : jsval;
  cfg_resources : option (list string)
}.

(** An entry of [filterData]: field [fd_x] is the property [x] of the
    source, and [None] a property that has not been assigned (the object
    starts as [{}]). *)
Record FilterData : Type := mkFilterData {
  fd_options : option Options;
  fd_aggs : option Aggs;
  fd_value : option ValueSetter;
  fd_multiple : option bool;
  fd_exclusive : option bool;
  fd_unit : option string;
  fd_dtype : option DType;
  fd_serializerExact : option Serializer;
  fd_serializerPretty : option Serializer;
  fd_dimension : option string;
  fd_deserializer : option Deserializer;
  fd_label : option string;
  fd_nested : option bool;
  fd_section : option bool;
  fd_repeats : option bool;
  fd_stats : option Stats;
  fd_description : option string;
  fd_scale : option string;
  fd_queryMode : option string;
  fd_global : option bool;
  fd_default : jsval;
  fd_resources : option (gset string)
}.

(** The object [{}]. *)
Definition emptyData : FilterData :=
  mkFilterData None None None None None None None None None None None
               None None None None None None None None None JUndefined None.

(** The module-level containers [filterGroups] and [filterData]. *)
Record Registry : Type := mkRegistry {
  filterGroups : gmap string (gset string);
  filterData : gmap string FilterData
}.

Definition emptyRegistry : Registry := mkRegistry ∅ ∅.

(** The two errors [saveFilter] throws itself, and the one that may come
    out of the [Unit] constructor. *)
Inductive Error : Type :=
  | ErrQueryMode
  | ErrDefault
  | ErrUnit (unit : string).

(** The messages of the two errors of [saveFilter]; the one of the units
    library is not in the sources. *)
Definition message (e : Error) : option string :=
  match e with
  | ErrQueryMode =>
      Some "Only filters that accept multiple values may have a query mode."
  | ErrDefault =>
      Some "Only filters that do not correspond to a metainfo value may have default values set."
  | ErrUnit _ => None
  end.

(** The outcome of a call that may throw.  The containers are mutated in
    place, so a throw leaves behind what had been written before it. *)
Inductive Outcome : Type :=
  | Returned (r : Registry)
  | Threw (e : Error) (r : Registry).

(** Truthiness of a property that is a boolean or undefined, and of one
    that is a string or undefined. *)
Definition truthy_bool (b : option bool) : bool := default false b.

Definition truthy_str (s : option string) : bool :=
  match s with
  | Some s => negb (String.eqb s "")
  | None => false
  end.

(** [a || b] where [b] is a string. *)
Definition str_or_else (a : option string) (b : string) : string :=
  match a with
  | Some s => if String.eqb s "" then b else s
  | None => b
  end.

(** [a || b] where [a] is an object or undefined. *)
Definition obj_or {A} (a : option A) (b : option A) : option A :=
  match a with
  | Some x => Some x
  | None => b
  end.

Section WithTables.
Variable searchQuantities : gmap string Quantity.
Variable imports : Imports.

(** [searchQuantities[name]?.prop]. *)
Definition quantity_prop {A} (name : string) (prop : Quantity -> option A) : option A :=
  searchQuantities !! name ≫= prop.

Definition getEnumOptions (quantity : string) : option Options :=
  match q_type_data <$> searchQuantities !! quantity with
  | Some (TypeEnum (v :: vs)) =>
      let opt := foldl (fun (opt : Options) name => <[name := name]> opt)
                       ∅ (v :: vs) in
      Some (delete "not processed" opt)
  | _ => None
  end.

(** [dtype === DType.Float || dtype === DType.Int || dtype === DType.Timestamp] *)
Definition is_range_dtype (dtype : option DType) : bool :=
  match dtype with
  | Some DFloat | Some DInt | Some DTimestamp => true
  | _ => false
  end.

(** [getStatsComponent(parent, dtype)]; an undefined [parent] is the
    property key ["undefined"]. *)
Definition getStatsComponent (fd : gmap string FilterData)
    (parent : option string) (dtype : option DType) : Stats :=
  let key := default "undefined" parent in
  let section := truthy_bool (fd !! key ≫= fd_section) in
  let wrap (c : Component) := if section then InputSection key c else c in
  if is_range_dtype dtype
  then mkStats (wrap InputRange) 8 3
  else mkStats (wrap InputList) 6 8.

(** The assignments of [saveFilter] to [data], in the order of the source
    and cut where a [throw] can happen: from [data.options] to
    [data.serializerPretty], ... *)
Definition assign_to_serializers (name : string) (config : Config)
    (data : FilterData) : FilterData :=
  let unit := str_or (cfg_unit config) (quantity_prop name q_unit) in
  let dtype := obj_or (cfg_dtype config) (getDatatype imports name) in
  {| fd_options := obj_or (cfg_options config) (getEnumOptions name);
     fd_aggs := cfg_aggs config;
     fd_value := cfg_value config;
     fd_multiple := Some (default true (cfg_multiple config));
     fd_exclusive := Some (default true (cfg_exclusive config));
     fd_unit := unit;
     fd_dtype := dtype;
     fd_serializerExact := Some (mkSerializer dtype false);
     fd_serializerPretty := Some (mkSerializer dtype true);
     fd_dimension := fd_dimension data;
     fd_deserializer := fd_deserializer data;
     fd_label := fd_label data;
     fd_nested := fd_nested data;
     fd_section := fd_section data;
     fd_repeats := fd_repeats data;
     fd_stats := fd_stats data;
     fd_description := fd_description data;
     fd_scale := fd_scale data;
     fd_queryMode := fd_queryMode data;
     fd_global := fd_global data;
     fd_default := fd_default data;
     fd_resources := fd_resources data |}.

(** ... from [data.dimension] (whose value [dim] has been computed) to
    [data.scale], ... *)
Definition assign_to_scale (fd : gmap string FilterData) (name : string)
    (config : Config) (parent : option string) (dim : option string)
    (data : FilterData) : FilterData :=
  {| fd_options := fd_options data;
     fd_aggs := fd_aggs data;
     fd_value := fd_value data;
     fd_multiple := fd_multiple data;
     fd_exclusive := fd_exclusive data;
     fd_unit := fd_unit data;
     fd_dtype := fd_dtype data;
     fd_serializerExact := fd_serializerExact data;
     fd_serializerPretty := fd_serializerPretty data;
     fd_dimension := dim;
     fd_deserializer := Some (mkDeserializer (fd_dtype data) dim);
     fd_label :=
       Some (str_or_else (cfg_label config)
               (formatLabel imports
                  (str_or_else (quantity_prop name q_name) name)));
     fd_nested := quantity_prop name q_nested;
     fd_section := Some (bool_decide (is_Some (quantity_prop name q_nested)));
     fd_repeats := quantity_prop name q_repeats;
     fd_stats :=
       Some (default (getStatsComponent fd parent (fd_dtype data))
                     (cfg_stats config));
     fd_description :=
       str_or (cfg_description config) (quantity_prop name q_description);
     fd_scale := Some (str_or_else (cfg_scale config) "linear");
     fd_queryMode := fd_queryMode data;
     fd_global := fd_global data;
     fd_default := fd_default data;
     fd_resources := fd_resources data |}.

(** ... [data.queryMode] and [data.global], ... *)
Definition assign_queryMode_global (config : Config) (data : FilterData) : FilterData :=
  {| fd_options := fd_options data;
     fd_aggs := fd_aggs data;
     fd_value := fd_value data;
     fd_multiple := fd_multiple data;
     fd_exclusive := fd_exclusive data;
     fd_unit := fd_unit data;
     fd_dtype := fd_dtype data;
     fd_serializerExact := fd_serializerExact data;
     fd_serializerPretty := fd_serializerPretty data;
     fd_dimension := fd_dimension data;
     fd_deserializer := fd_deserializer data;
     fd_label := fd_label data;
     fd_nested := fd_nested data;
     fd_section := fd_section data;
     fd_repeats := fd_repeats data;
     fd_stats := fd_stats data;
     fd_description := fd_description data;
     fd_scale := fd_scale data;
     fd_queryMode := Some (str_or_else (cfg_queryMode config) "any");
     fd_global := cfg_global config;
     fd_default := fd_default data;
     fd_resources := fd_resources data |}.

(** ... and [data.default] and [data.resources]. *)
Definition assign_default_resources (config : Config) (data : FilterData) : FilterData :=
  {| fd_options := fd_options data;
     fd_aggs := fd_aggs data;
     fd_value := fd_value data;
     fd_multiple := fd_multiple data;
     fd_exclusive := fd_exclusive data;
     fd_unit := fd_unit data;
     fd_dtype := fd_dtype data;
     fd_serializerExact := fd_serializerExact data;
     fd_serializerPretty := fd_serializerPretty data;
     fd_dimension := fd_dimension data;
     fd_deserializer := fd_deserializer data;
     fd_label := fd_label data;
     fd_nested := fd_nested data;
     fd_section := fd_section data;
     fd_repeats := fd_repeats data;
     fd_stats := fd_stats data;
     fd_description := fd_description data;
     fd_scale := fd_scale data;
     fd_queryMode := fd_queryMode data;
     fd_global := fd_global data;
     fd_default := cfg_default config;
     fd_resources :=
       Some (list_to_set
               (default ["entries"; "materials"] (cfg_resources config))) |}.

(** [filterGroups[group] ? filterGroups[group].add(name)
                         : filterGroups[group] = new Set([name])],
    under [if (group)].  The map has the groups that the code has made.
    The groups of the source are the ids of the filter menus
    ([material], [elements], ...); under a name that the array
    [filterGroups] has or inherits ([length], [push], ...) the code throws
    here, before anything else, which this function leaves out. *)
Definition add_to_group (groups : gmap string (gset string))
    (group : option string) (name : string) : gmap string (gset string) :=
  if truthy_str group
  then
    let g := default "" group in
    match groups !! g with
    | Some names => <[g := names ∪ {[name]}]> groups
    | None => <[g := {[name]}]> groups
    end
  else groups.

(** [saveFilter(name, group, config, parent)]. *)
Definition saveFilter (r : Registry) (name : string) (group : option string)
    (config : Config) (parent : option string) : Outcome :=
  let groups := add_to_group (filterGroups r) group name in
  let old := filterData r !! name in
  (* [data = filterData[name] || {}]: an entry that exists is mutated in
     place, so that what is written before a throw stays; a new object is
     reachable only once it is stored, in the last line *)
  let written (data : FilterData) : Registry :=
    match old with
    | Some _ => mkRegistry groups (<[name := data]> (filterData r))
    | None => mkRegistry groups (filterData r)
    end in
  let data1 := assign_to_serializers name config (default emptyData old) in
  let dim :=
    if truthy_str (fd_unit data1)
    then Some <$> unitDimension imports (default "" (fd_unit data1))
    else Some (fd_unit data1) in
  match dim with
  | None => Threw (ErrUnit (default "" (fd_unit data1))) (written data1)
  | Some dim =>
      let data2 := assign_to_scale (filterData r) name config parent dim data1 in
      if truthy_str (fd_queryMode data2) && negb (truthy_bool (fd_multiple data2))
      then Threw ErrQueryMode (written data2)
      else
        let data3 := assign_queryMode_global config data2 in
        if truthy (cfg_default config) && negb (truthy_bool (fd_global data3))
        then Threw ErrDefault (written data3)
        else
          let data4 := assign_default_resources config data3 in
          Returned (mkRegistry groups (<[name := data4]> (filterData r)))
  end.

(** A call in progress: the registry so far, or the throw that ended the
    module initialisation. *)
Definition and_then (o : Outcome) (f : Registry -> Outcome) : Outcome :=
  match o with
  | Returned r => f r
  | Threw e r => Threw e r
  end.

(** [registerFilter(name, group, config, subQuantities)]. *)
Definition registerFilter (r : Registry) (name : string) (group : option string)
    (config : Config) (subQuantities : option (list Config)) : Outcome :=
  foldl
    (fun o subConfig =>
       and_then o (fun r =>
         let subname := name ++ "." ++ default "undefined" (cfg_name subConfig) in
         saveFilter r subname group subConfig (Some name)))
    (saveFilter r name group config None)
    (default [] subQuantities).

(** The object literal [{}] as a [config]. *)
Definition noConfig : Config :=
  mkConfig None None None None None None None None None None None None None
           None JUndefined None.

(** [registerFilterOptions(name, group, target, label, description, options)]. *)
Definition registerFilterOptions (r : Registry) (name : string)
    (group : option string) (target : string) (label description : string)
    (options : Options) : Outcome :=
  let keys := (map_to_list options).*1 in
  registerFilter r name group
    {| cfg_name := None;
       cfg_options := Some options;
       cfg_aggs := Some (AggTermsOf target keys);
       cfg_value := Some (SetOptionsOf target);
       cfg_multiple := Some true;
       cfg_exclusive := Some false;
       cfg_unit := None;
       cfg_dtype := Some DEnum;
       cfg_label := Some label;
       cfg_stats := None;
       cfg_description := Some description;
       cfg_scale := None;
       cfg_queryMode := Some "all";
       cfg_global := None;
       cfg_default := JUndefined;
       cfg_resources := None |}
    None.

End WithTables.

(** *** Presets of the registration table *)

(** [{...config, name: n}] and the like: one property overridden. *)
Definition with_name (n : string) (c : Config) : Config :=
  mkConfig (Some n) (cfg_options c) (cfg_aggs c) (cfg_value c) (cfg_multiple c)
    (cfg_exclusive c) (cfg_unit c) (cfg_dtype c) (cfg_label c) (cfg_stats c)
    (cfg_description c) (cfg_scale c) (cfg_queryMode c) (cfg_global c)
    (cfg_default c) (cfg_resources c).

Definition with_label (l : string) (c : Config) : Config :=
  mkConfig (cfg_name c) (cfg_options c) (cfg_aggs c) (cfg_value c) (cfg_multiple c)
    (cfg_exclusive c) (cfg_unit c) (cfg_dtype c) (Some l) (cfg_stats c)
    (cfg_description c) (cfg_scale c) (cfg_queryMode c) (cfg_global c)
    (cfg_default c) (cfg_resources c).

Definition with_queryMode (m : string) (c : Config) : Config :=
  mkConfig (cfg_name c) (cfg_options c) (cfg_aggs c) (cfg_value c) (cfg_multiple c)
    (cfg_exclusive c) (cfg_unit c) (cfg_dtype c) (cfg_label c) (cfg_stats c)
    (cfg_description c) (cfg_scale c) (Some m) (cfg_global c)
    (cfg_default c) (cfg_resources c).

Definition with_multiple (b : bool) (c : Config) : Config :=
  mkConfig (cfg_name c) (cfg_options c) (cfg_aggs c) (cfg_value c) (Some b)
    (cfg_exclusive c) (cfg_unit c) (cfg_dtype c) (cfg_label c) (cfg_stats c)
    (cfg_description c) (cfg_scale c) (cfg_queryMode c) (cfg_global c)
    (cfg_default c) (cfg_resources c).

Definition with_exclusive (b : bool) (c : Config) : Config :=
  mkConfig (cfg_name c) (cfg_options c) (cfg_aggs c) (cfg_value c) (cfg_multiple c)
    (Some b) (cfg_unit c) (cfg_dtype c) (cfg_label c) (cfg_stats c)
    (cfg_description c) (cfg_scale c) (cfg_queryMode c) (cfg_global c)
    (cfg_default c) (cfg_resources c).

Definition with_global (b : bool) (c : Config) : Config :=
  mkConfig (cfg_name c) (cfg_options c) (cfg_aggs c) (cfg_value c) (cfg_multiple c)
    (cfg_exclusive c) (cfg_unit c) (cfg_dtype c) (cfg_label c) (cfg_stats c)
    (cfg_description c) (cfg_scale c) (cfg_queryMode c) (Some b)
    (cfg_default c) (cfg_resources c).

Definition with_aggs (a : Aggs) (c : Config) : Config :=
  mkConfig (cfg_name c) (cfg_options c) (Some a) (cfg_value c) (cfg_multiple c)
    (cfg_exclusive c) (cfg_unit c) (cfg_dtype c) (cfg_label c) (cfg_stats c)
    (cfg_description c) (cfg_scale c) (cfg_queryMode c) (cfg_global c)
    (cfg_default c) (cfg_resources c).

Definition with_options (o : Options) (c : Config) : Config :=
  mkConfig (cfg_name c) (Some o) (cfg_aggs c) (cfg_value c) (cfg_multiple c)
    (cfg_exclusive c) (cfg_unit c) (cfg_dtype c) (cfg_label c) (cfg_stats c)
    (cfg_description c) (cfg_scale c) (cfg_queryMode c) (cfg_global c)
    (cfg_default c) (cfg_resources c).

Definition termQuantity : Config := with_aggs (AggTerms 5 None) noConfig.
Definition termQuantityLarge : Config := with_aggs (AggTerms 10 None) noConfig.
Definition termQuantityBool : Config :=
  with_options {[ "false" := "false"; "true" := "true" ]}
    (with_aggs (AggTerms 2 (Some ["false"; "true"])) noConfig).
Definition termQuantityNonExclusive : Config := with_exclusive false termQuantity.
Definition termQuantityAll : Config :=
  with_queryMode "all" (with_multiple true (with_exclusive false termQuantity)).
Definition termQuantityAllNonExclusive : Config :=
  with_queryMode "all" termQuantityNonExclusive.
Definition noAggQuantity : Config := noConfig.
Definition nestedQuantity : Config := noConfig.
Definition noQueryQuantity : Config := with_global true (with_multiple false noConfig).
Definition numberHistogramQuantity : Config :=
  with_exclusive false (with_multiple false noConfig).

(** *** The abbreviation tables *)

(** The properties that every object inherits from [Object.prototype]. *)
Definition Object_prototype_keys : list string :=
  ["constructor"; "__defineGetter__"; "__defineSetter__"; "hasOwnProperty";
   "__lookupGetter__"; "__lookupSetter__"; "isPrototypeOf";
   "propertyIsEnumerable"; "toString"; "valueOf"; "__proto__";
   "toLocaleString"].

(** The counter object [abbreviations] and the two exported tables
    [filterAbbreviations] (full name -> abbreviation) and [filterFullnames]
    (abbreviation -> full name).  The maps hold the properties of the
    objects themselves.  [abbreviations] is an object [{}]; the map has
    its counters that are numbers: under a key of [Object.prototype] the
    code reads what the object inherits, which is not [undefined], and
    [+= 1] makes a string of it, which is never [1] and is left out here.
    The two tables are arrays that the code uses as dictionaries, with
    names as property keys. *)
Record Tables : Type := mkTables {
  abbreviations : gmap string nat;
  filterAbbreviations : gmap string string;
  filterFullnames : gmap string string
}.

Definition emptyTables : Tables := mkTables ∅ ∅ ∅.

Definition nameAbbreviationPairs (names : list string) : list (string * string) :=
  map (fun fullname => (fullname, lastSegment fullname)) names.

(** [table[key] = value] on one of the two arrays.  Under the key
    [length] the assignment sets the length of the array, and throws a
    [RangeError] ([None]) for a value that is no number, as are the names
    that the loops write there (they end in [length]).  Under the key
    [__proto__] it goes to the inherited setter, which adds no property
    for a string.  Any other key becomes a property of the array. *)
Definition array_set (key value : string) (table : gmap string string)
    : option (gmap string string) :=
  if String.eqb key "length" then None
  else if String.eqb key "__proto__" then Some table
  else Some (<[key := value]> table).

(** The body of the first loop; [None] when it throws. *)
Definition count_and_default (t : Tables) (pair : string * string) : option Tables :=
  let '(fullname, abbreviation) := pair in
  let counters :=
    match abbreviations t !! abbreviation with
    | None =>
        if decide (abbreviation ∈ Object_prototype_keys)
        then abbreviations t
        else <[abbreviation := 1]> (abbreviations t)
    | Some old => <[abbreviation := old + 1]> (abbreviations t)
    end in
  filterAbbreviations' ← array_set fullname fullname (filterAbbreviations t);
  filterFullnames' ← array_set fullname fullname (filterFullnames t);
  Some {| abbreviations := counters;
          filterAbbreviations := filterAbbreviations';
          filterFullnames := filterFullnames' |}.

(** The body of the second loop; [None] when it throws. *)
Definition abbreviate_unique (t : Tables) (pair : string * string) : option Tables :=
  let '(fullname, abbreviation) := pair in
  if decide (abbreviations t !! abbreviation = Some 1)
  then
    filterAbbreviations' ← array_set fullname abbreviation (filterAbbreviations t);
    filterFullnames' ← array_set abbreviation fullname (filterFullnames t);
    Some {| abbreviations := abbreviations t;
            filterAbbreviations := filterAbbreviations';
            filterFullnames := filterFullnames' |}
  else Some t.

(** The two loops, over [names = Object.keys(filterData)]; [None] when a
    loop throws. *)
Definition buildTables (names : list string) : option Tables :=
  let pairs := nameAbbreviationPairs names in
  t ← foldl (fun o pair => o ≫= fun t => count_and_default t pair)
            (Some emptyTables) pairs;
  foldl (fun o pair => o ≫= fun t => abbreviate_unique t pair) (Some t) pairs.

(** The keys that the loops cannot take as a short form: those of
    [Object.prototype], which are never counted, and [length], on which
    the tables throw. *)
Definition special_keys : list string := "length" :: Object_prototype_keys.

(** The two loops on names whose short forms are not special: every
    counter is a number and every assignment adds a property.  The loops
    are these functions then (see [buildTables_plain_names] below), on
    which the proofs work. *)
Definition count_and_default_plain (t : Tables) (pair : string * string) : Tables :=
  let '(fullname, abbreviation) := pair in
  {| abbreviations :=
       match abbreviations t !! abbreviation with
       | None => <[abbreviation := 1]> (abbreviations t)
       | Some old => <[abbreviation := old + 1]> (abbreviations t)
       end;
     filterAbbreviations := <[fullname := fullname]> (filterAbbreviations t);
     filterFullnames := <[fullname := fullname]> (filterFullnames t) |}.

Definition abbreviate_unique_plain (t : Tables) (pair : string * string) : Tables :=
  let '(fullname, abbreviation) := pair in
  if decide (abbreviations t !! abbreviation = Some 1)
  then {| abbreviations := abbreviations t;
          filterAbbreviations := <[fullname := abbreviation]> (filterAbbreviations t);
          filterFullnames := <[abbreviation := fullname]> (filterFullnames t) |}
  else t.

Definition buildTables_plain (names : list string) : Tables :=
  let pairs := nameAbbreviationPairs names in
  foldl abbreviate_unique_plain (foldl count_and_default_plain emptyTables pairs) pairs.

(** The names of the registered filters, in some order. *)
Definition registeredNames (r : Registry) : list string :=
  (map_to_list (filterData r)).*1.

(** Looking a name up in the finished tables, among the properties that
    the loops have written. *)
Definition abbreviate (t : Tables) (name : string) : option string :=
  filterAbbreviations t !! name.

Definition fullname (t : Tables) (name : string) : option string :=
  filterFullnames t !! name.

(** The short form of [n] belongs to no other of the [names]. *)
Definition unique_short (names : list string) (n : string) : Prop :=
  ∀ m, m ∈ names → lastSegment m = lastSegment n → m = n.

End FilterRegistry.


(** ** Search.js: the search bar *)

Module SearchBar.

(** *** Characters *)

(** The class [\s] (and what [trim] and [parseFloat] strip): tab, line
    feed, vertical tab, form feed, carriage return, space and no-break
    space. *)
Definition is_space (c : ascii) : bool :=
  match N_of_ascii c with
  | 9 | 10 | 11 | 12 | 13 | 32 | 160 => true
  | _ => false
  end%N.

(** The class [\S]. *)
Definition non_space (c : ascii) : bool := negb (is_space c).

(** The class [.]: everything but the line terminators. *)
Definition dot (c : ascii) : bool :=
  match N_of_ascii c with
  | 10 | 13 => false
  | _ => true
  end%N.

Definition is_digit (c : ascii) : bool :=
  (48 <=? N_of_ascii c)%N && (N_of_ascii c <=? 57)%N.

(** *** Regular expressions *)

(** The constructs the three patterns of [handleSubmit] are made of. *)
Inductive regex : Type :=
  | Class (p : ascii -> bool)
  | Star (p : ascii -> bool)
  | Seq (r1 r2 : regex)
  | Alt (r1 r2 : regex)
  | Opt (r : regex)
  | Capture (r : regex)
  | Eol.

Definition Char (c : ascii) : regex := Class (Ascii.eqb c).

(** The backtracking matcher, in continuation-passing style: [k] is what
    remains to be matched after [r], and is tried on the alternatives of
    [r] in the order of their priority (greedy loops and options take as
    much as they can first, alternations go left to right).  [star p s k]
    is [p*] followed by [k]. *)
Fixpoint star {A} (p : ascii -> bool) (s : string) (k : string -> option A) : option A :=
  match s with
  | String c s' =>
      if p c
      then match star p s' k with
           | Some x => Some x
           | None => k s
           end
      else k s
  | EmptyString => k s
  end.

Fixpoint run (r : regex) (s : string) (captures : list string)
    (k : string -> list string -> option (list string)) : option (list string) :=
  match r with
  | Class p =>
      match s with
      | String c s' => if p c then k s' captures else None
      | EmptyString => None
      end
  | Star p => star p s (fun s' => k s' captures)
  | Seq r1 r2 => run r1 s captures (fun s' captures' => run r2 s' captures' k)
  | Alt r1 r2 =>
      match run r1 s captures k with
      | Some x => Some x
      | None => run r2 s captures k
      end
  | Opt r =>
      match run r s captures k with
      | Some x => Some x
      | None => k s captures
      end
  | Capture r =>
      run r s captures
        (fun s' captures' =>
           k s' (captures' ++ [substring 0 (String.length s - String.length s') s])%list)
  | Eol =>
      match s with
      | EmptyString => k s captures
      | String _ _ => None
      end
  end.

(** [input.match(new RegExp('^...'))]: the pattern starts with [^], so
    that only a match at the start of the input is possible.  The result
    is the list of the captured groups, [None] for [null]: group [i + 1]
    of the source ([equals[1]], [ltegte[2]], ...) is at index [i]. *)
Definition exec (r : regex) (input : string) : option (list string) :=
  run r input [] (fun _ captures => Some captures).

(** A pattern made of several parts in a row. *)
Fixpoint seq (r : regex) (rs : list regex) : regex :=
  match rs with
  | [] => r
  | r' :: rs' => Seq r (seq r' rs')
  end.

(** [reString]: [\S(?:.*\S)?]. *)
Definition reString : regex :=
  Seq (Class non_space) (Opt (Seq (Star dot) (Class non_space))).

(** [(<|>=?)]. *)
Definition reOp : regex :=
  Capture (Alt (Char "<") (Seq (Char ">") (Opt (Char "=")))).

(** [^\s*(reString)\s*=\s*(reString)\s*$] *)
Definition reEquals : regex :=
  seq (Star is_space) [Capture reString; Star is_space; Char "=";
       Star is_space; Capture reString; Star is_space; Eol].

(** [^\s*(reString)\s*(<|>=?)\s*(reString)\s*$] *)
Definition reLtegte : regex :=
  seq (Star is_space) [Capture reString; Star is_space; reOp;
       Star is_space; Capture reString; Star is_space; Eol].

(** [^\s*(reString)\s*(<|>=?)\s*(reString)\s*(<|>=?)\s*(reString)\s*$] *)
Definition reLtegteSandwich : regex :=
  seq (Star is_space) [Capture reString; Star is_space; reOp;
       Star is_space; Capture reString; Star is_space; reOp;
       Star is_space; Capture reString; Star is_space; Eol].

(** *** Strings and numbers *)

Fixpoint trimStart (s : string) : string :=
  match s with
  | String c s' => if is_space c then trimStart s' else s
  | EmptyString => EmptyString
  end.

Fixpoint trimEnd (s : string) : string :=
  match s with
  | String c s' =>
      match trimEnd s' with
      | EmptyString => if is_space c then EmptyString else String c EmptyString
      | t => String c t
      end
  | EmptyString => EmptyString
  end.

Definition trim (s : string) : string := trimEnd (trimStart s).

(** [s.startsWith(p)]. *)
Definition startsWith (s p : string) : bool := String.prefix p s.

(** A number as [parseFloat] reads it: the sign, the digits and the power
    of ten of the decimal literal (the rounding of that value to a double
    is left out). *)
Inductive Number : Type :=
  | NaN
  | Infinity (negative : bool)
  | Decimal (negative : bool) (digits : N) (exponent : Z).

#[global] Instance Number_eq_dec : EqDecision Number.
Proof. solve_decision. Defined.

Definition isNaN (x : Number) : bool :=
  match x with
  | NaN => true
  | _ => false
  end.

(** The digits at the start of [s], as a number with their count, and the
    rest of [s]. *)
Fixpoint read_digits (s : string) (acc : N) (count : nat) : N * nat * string :=
  match s with
  | String c s' =>
      if is_digit c
      then read_digits s' (10 * acc + (N_of_ascii c - 48))%N (S count)
      else (acc, count, s)
  | EmptyString => (acc, count, s)
  end.

(** The exponent part at the start of [s], if there is one. *)
Definition read_exponent (s : string) : Z :=
  match s with
  | String c s' =>
      if Ascii.eqb c "e" || Ascii.eqb c "E"
      then
        let '(negative, s'') :=
          match s' with
          | String "+" t => (false, t)
          | String "-" t => (true, t)
          | _ => (false, s')
          end in
        let '(e, count, _) := read_digits s'' 0%N 0%nat in
        match count with
        | O => 0%Z
        | S _ => if negative then (- Z.of_N e)%Z else Z.of_N e
        end
      else 0%Z
  | EmptyString => 0%Z
  end.

(** [Number.parseFloat(s)]: the longest decimal literal at the start of
    [s], after its leading white space. *)
Definition parseFloat (s : string) : Number :=
  let '(negative, s1) :=
    match trimStart s with
    | String "+" t => (false, t)
    | String "-" t => (true, t)
    | t => (false, t)
    end in
  if startsWith s1 "Infinity" then Infinity negative
  else
    let '(int, int_count, s2) := read_digits s1 0%N 0%nat in
    match s2 with
    | String "." s3 =>
        let '(all, all_count, s4) := read_digits s3 int int_count in
        match all_count with
        | O => NaN
        | S _ =>
            Decimal negative all
              (read_exponent s4 - Z.of_nat (all_count - int_count))%Z
        end
    | _ =>
        match int_count with
        | O => NaN
        | S _ => Decimal negative int (read_exponent s2)
        end
    end.

(** *** The module-level tables *)

Section WithQuantities.
Variable searchQuantities : gmap string Quantity.

Definition quantityNames : list string :=
  filter (fun q => startsWith q "results" = true) (map_to_list searchQuantities).*1.

Definition abbreviationList : list string := map lastSegment quantityNames.

(** The first loop: the abbreviations seen so far and those seen twice. *)
Definition nonUniques : gset string :=
  (foldl
     (fun '(abbreviationSet, nonUniques) abbr =>
        (abbreviationSet ∪ {[abbr]},
         if decide (abbr ∈ abbreviationSet) then nonUniques ∪ {[abbr]} else nonUniques))
     ((∅ : gset string), (∅ : gset string)) abbreviationList).2.

(** The second loop: the maps [quantityAbbreviations] and
    [quantityFullnames]. *)
Definition abbreviationMaps : gmap string string * gmap string string :=
  foldl
    (fun '(quantityAbbreviations, quantityFullnames) name =>
       let abbr := lastSegment name in
       if decide (abbr ∈ nonUniques)
       then (quantityAbbreviations, quantityFullnames)
       else (<[name := abbr]> quantityAbbreviations,
             <[abbr := name]> quantityFullnames))
    (∅, ∅) quantityNames.

Definition quantityAbbreviations : gmap string string := abbreviationMaps.1.
Definition quantityFullnames : gmap string string := abbreviationMaps.2.

(** *** handleSubmit *)

Definition opMap : gmap string string :=
  {[ "<=" := "lte"; ">=" := "gte"; ">" := "gt"; "<" := "lt" ]}.

Definition opMapReverse : gmap string string :=
  {[ "<=" := "gte"; ">=" := "lte"; ">" := "lt"; "<" := "gt" ]}.

(** [object[map[op]]]: a missing entry would make the key ["undefined"]. *)
Definition key_of (map : gmap string string) (op : string) : string :=
  default "undefined" (map !! op).

(** The value handed to [setFilter]: the string of an equality query, or
    the object with the bounds of a range query. *)
Inductive QueryValue : Type :=
  | Exactly (value : string)
  | Range (bounds : gmap string Number).

(** What a call of [handleSubmit] does: nothing (blank input), [setError],
    [setFilter] with the pair of the full name and the value, or an
    uncaught [TypeError]. *)
Inductive Result : Type :=
  | Ignored
  | SetError (message : string)
  | SetFilter (quantityFullname : string) (queryValue : QueryValue)
  | ThrowsTypeError.

(** [quantitySet.has(quantityFullnames.get(name))]. *)
Definition resolve (quantitySet : gset string) (name : string) : option string :=
  match quantityFullnames !! name with
  | Some full => if decide (full ∈ quantitySet) then Some full else None
  | None => None
  end.

(** The check of the type of the quantity, shared by the two range
    branches; [k] is what follows it. *)
Definition check_numeric (quantityFullname : string) (k : Result) : Result :=
  match q_type_data <$> searchQuantities !! quantityFullname with
  | Some (TypeName type_data) =>
      if negb (startsWith type_data "int") && negb (startsWith type_data "float")
      then SetError "Cannot perform range query for a non-numeric quantity."
      else k
  | _ => ThrowsTypeError
  end.

(** The branch of the equality query, once [equals] has matched. *)
Definition equalityQuery (quantitySet : gset string) (equals : list string) : Result :=
  let quantityName := default "" (equals !! 0%nat) in
  let queryValue := default "" (equals !! 1%nat) in
  match resolve quantitySet quantityName with
  | None => SetError "Unknown quantity name"
  | Some quantityFullname => SetFilter quantityFullname (Exactly queryValue)
  end.

(** The branch of the simple LTE/GTE query, once [ltegte] has matched. *)
Definition simpleQuery (quantitySet : gset string) (ltegte : list string) : Result :=
  let a := default "" (ltegte !! 0%nat) in
  let op := default "" (ltegte !! 1%nat) in
  let b := default "" (ltegte !! 2%nat) in
  match resolve quantitySet a, resolve quantitySet b with
  | None, None => SetError "Unknown quantity name"
  | aFullname, bFullname =>
      let quantityFullname := default (default "" bFullname) aFullname in
      let quantityValue := parseFloat (match aFullname with Some _ => b | None => a end) in
      if isNaN quantityValue then SetError "Invalid number"
      else
        check_numeric quantityFullname
          (SetFilter quantityFullname
             (Range (<[key_of opMap op := quantityValue]> ∅)))
  end.

(** The branch of the sandwiched LTE/GTE query, once [ltegteSandwich] has
    matched. *)
Definition sandwichQuery (quantitySet : gset string) (ltegteSandwich : list string) : Result :=
  let a := default "" (ltegteSandwich !! 0%nat) in
  let op1 := default "" (ltegteSandwich !! 1%nat) in
  let b := default "" (ltegteSandwich !! 2%nat) in
  let op2 := default "" (ltegteSandwich !! 3%nat) in
  let c := default "" (ltegteSandwich !! 4%nat) in
  match resolve quantitySet b with
  | None => SetError "Unknown quantity name"
  | Some quantityFullname =>
      let aValue := parseFloat a in
      let cValue := parseFloat c in
      if isNaN aValue || isNaN cValue then SetError "Invalid number"
      else
        check_numeric quantityFullname
          (SetFilter quantityFullname
             (Range (<[key_of opMap op2 := cValue]>
                       (<[key_of opMapReverse op1 := aValue]> ∅))))
  end.

(** [handleSubmit], for the search bar of the [quantities] with the input
    [inputValue]. *)
Definition handleSubmit (quantities : list string) (inputValue : string) : Result :=
  let quantitySet : gset string := list_to_set quantities in
  if (String.length (trim inputValue) =? 0)%nat then Ignored
  else
    match exec reEquals inputValue with
    | Some equals => equalityQuery quantitySet equals
    | None =>
        match exec reLtegte inputValue with
        | Some ltegte => simpleQuery quantitySet ltegte
        | None =>
            match exec reLtegteSandwich inputValue with
            | Some ltegteSandwich => sandwichQuery quantitySet ltegteSandwich
            | None => SetError "Invalid query"
            end
        end
    end.

End WithQuantities.

End SearchBar.


(** ** The search store and late responses *)

Module SearchStore.

Section Store.
(** The parameters of a fetch (query and pagination) and the response of
    the search endpoint. *)
Variable Params : Type.
Variable Response : Type.
Context `{EqDecision Params}.

(** Modelled from the spec: the search store, which is not among the
    sources.  Section 5 has the store hold the current query and
    pagination, issue a fetch when they change, and "apply only the
    response whose request parameters match the current state at
    completion time".  [current] is that state, [visible] the parameters
    and the response of the result list on display. *)
Record Store : Type := mkStore {
  current : Params;
  visible : option (Params * Response)
}.

(** Modelled from the spec: what happens to the store, which is not among
    the sources.  A change of the state issues the fetch of the new
    parameters (section 4.3, re-fetch policy); the response of an earlier
    fetch arrives later (section 5). *)
Inductive Event : Type :=
  | Fetch (params : Params)
  | Arrive (params : Params) (response : Response).

(** Modelled from the spec: the guard of section 5, which applies a
    response only when its request parameters are the current ones. *)
Definition step (s : Store) (e : Event) : Store :=
  match e with
  | Fetch params => mkStore params (visible s)
  | Arrive params response =>
      if decide (params = current s)
      then mkStore (current s) (Some (params, response))
      else s
  end.

Definition run (s : Store) (events : list Event) : Store := foldl step s events.

End Store.

Arguments mkStore {Params Response} current visible.
Arguments current {Params Response} s.
Arguments visible {Params Response} s.
Arguments Fetch {Params Response} params.
Arguments Arrive {Params Response} params response.
Arguments step {Params Response _} s e.
Arguments run {Params Response _} s events.

End SearchStore.

(** ** Inputs and vocabulary of the properties *)

Import Pagination Selection FilterRegistry SearchBar.

(** The request [{page_size: 10}] and the response
    [{page_size: 20, total: 5}] of the specification. *)
Definition request_10 : Request :=
  mkRequest (JNum 10) JUndefined JUndefined JUndefined JUndefined.

Definition response_20_5 : Response :=
  mkResponse (JNum 20) JUndefined JUndefined JUndefined (JNum 5)
             JUndefined JUndefined.

(** Imports to run the registry with: no data types, labels as they are,
    one dimension for every unit. *)
Definition plainImports : Imports :=
  mkImports (fun _ => None) (fun label => label) (fun _ => Some "dimensionless").

(** The config [{...numberHistogramQuantity, label: 'Number of Elements'}]
    of the registration of [results.material.n_elements]. *)
Definition n_elements_config : Config :=
  with_label "Number of Elements" numberHistogramQuantity.

(** A registration that sets a query mode for a single-valued filter. *)
Definition queryMode_without_multiple : Config :=
  with_queryMode "all" (with_multiple false noConfig).

(** Whether a string has a dot. *)
Fixpoint has_dot (s : string) : bool :=
  match s with
  | EmptyString => false
  | String c s' => Ascii.eqb c "."%char || has_dot s'
  end.

(** How many of the [names] have the short form [a]. *)
Definition occurrences (a : string) (names : list string) : nat :=
  length (filter (fun m => lastSegment m = a) names).

(** A registry with three of the registered names: the short form
    [n_elements] belongs to one of them, the short form [type] to two. *)
Definition three_filters : Registry :=
  mkRegistry ∅
    {[ "results.material.n_elements" := emptyData;
       "results.method.simulation.gw.type" := emptyData;
       "results.properties.electronic.band_structure_electronic.band_gap.type"
         := emptyData ]}.

(** A registry with a name whose short form is a key of
    [Object.prototype]. *)
Definition constructor_filter : Registry :=
  mkRegistry ∅ {[ "results.method.constructor" := emptyData ]}.

(** The search quantities of the examples: an integer and a string
    quantity, both among the quantities of the search bar. *)
Definition sample_quantities : gmap string Quantity :=
  {[ "results.material.n_elements" := mkQuantity None None None None None (TypeName "int32");
     "results.material.material_name" := mkQuantity None None None None None (TypeName "str") ]}.

Definition sample_filters : list string :=
  ["results.material.n_elements"; "results.material.material_name"].

(** Every character of [s] is in the class [p]. *)
Fixpoint all_chars (p : ascii -> bool) (s : string) : bool :=
  match s with
  | EmptyString => true
  | String c s' => p c && all_chars p s'
  end.

(** [s] ends with a character that is not white space. *)
Fixpoint ends_non_space (s : string) : bool :=
  match s with
  | EmptyString => false
  | String c EmptyString => non_space c
  | String _ s' => ends_non_space s'
  end.

(** [s'] is what remains of [s] after some of its characters. *)
Inductive suffix (s' : string) : string -> Prop :=
  | suffix_here : suffix s' s'
  | suffix_later c s : suffix s' s -> suffix s' (String c s).

(** The characters of a token of the search bar: no white space and none
    of [=], [<] and [>]. *)
Definition is_word_char (c : ascii) : bool :=
  non_space c && negb (Ascii.eqb "=" c) && negb (Ascii.eqb "<" c)
  && negb (Ascii.eqb ">" c).

(** A token: one character at least, all of them token characters. *)
Definition is_word (s : string) : bool :=
  negb (String.eqb s "") && all_chars is_word_char s.

(** The characters [<] and [>], with which an operator starts. *)
Definition starts_op (c : ascii) : bool := Ascii.eqb "<" c || Ascii.eqb ">" c.

(** The input [x op y], with one space on each side of the operator. *)
Definition single_bound (x op y : string) : string :=
  x ++ " " ++ op ++ " " ++ y.

(** What the patterns end with: [\s*$]. *)
Definition at_end (captures : list string) (s : string) : option (list string) :=
  star is_space s (fun s' => run Eol s' captures (fun _ c => Some c)).

(** [\s*(reString)\s*$], the end of the three patterns. *)
Definition last_group (captures : list string) (s : string) : option (list string) :=
  star is_space s (fun s' => run (Capture reString) s' captures
                               (fun s'' c => at_end c s'')).

(** [\s*(<|>=?)\s*(reString)\s*$], what follows a group before an
    operator. *)
Definition op_and_group (captures : list string) (s : string) : option (list string) :=
  star is_space s (fun s' => run reOp s' captures (fun s'' c => last_group c s'')).

(** What follows [.*] in [reString]: one character that is not white
    space, then the rest of the pattern. *)
Definition then_non_space {A} (k : string → option A) (s : string) : option A :=
  match s with
  | String c s' => if non_space c then k s' else None
  | EmptyString => None
  end.

(** What a pattern can consume: [matches r s s'] when [r] matches at the
    start of [s] and leaves [s'] (whatever the priorities). *)
Inductive matches : regex -> string -> string -> Prop :=
  | matches_Class p c s : p c = true -> matches (Class p) (String c s) s
  | matches_Star_stop p s : matches (Star p) s s
  | matches_Star_more p c s s' :
      p c = true -> matches (Star p) s s' -> matches (Star p) (String c s) s'
  | matches_Seq r1 r2 s s' s'' :
      matches r1 s s' -> matches r2 s' s'' -> matches (Seq r1 r2) s s''
  | matches_Alt_l r1 r2 s s' : matches r1 s s' -> matches (Alt r1 r2) s s'
  | matches_Alt_r r1 r2 s s' : matches r2 s s' -> matches (Alt r1 r2) s s'
  | matches_Opt_some r s s' : matches r s s' -> matches (Opt r) s s'
  | matches_Opt_none r s : matches (Opt r) s s
  | matches_Capture r s s' : matches r s s' -> matches (Capture r) s s'
  | matches_Eol : matches Eol EmptyString EmptyString.

(** [\s*(<|>=?)\s*(reString)\s*$]: what the pattern of the simple query
    has after its first group, and the pattern of the sandwiched query
    after its second group. *)
Definition reTail : regex :=
  seq (Star is_space) [reOp; Star is_space; Capture reString; Star is_space; Eol].


(** ** Datatable.js: the rest of the table *)

Module Table.

(** [a === b] on primitive values. *)
Definition strict_eq (a b : jsval) : bool :=
  match a, b with
  | JNaN, _ | _, JNaN => false
  | _, _ => bool_decide (a = b)
  end.

(** A property of the pagination object, [undefined] when it is
    missing. *)
Definition prop (o : option jsval) : jsval := default JUndefined o.

(** [{...pagination, page_after_value: v}]. *)
Definition with_page_after_value (v : jsval) (pagination : Combined) : Combined :=
  {| page_size := page_size pagination;
     order_by := order_by pagination;
     order := order pagination;
     page := page pagination;
     total := total pagination;
     page_after_value := Some v;
     next_page_after_value := next_page_after_value pagination |}.

(** The updater of [DatatableTable.handleLoadMore], which the infinite
    scroll calls. *)
Definition handleLoadMore (pagination : Combined) : Combined :=
  let next := prop (next_page_after_value pagination) in
  let after := prop (page_after_value pagination) in
  if truthy next && negb (strict_eq after next)
  then with_page_after_value next pagination
  else pagination.

(** [DatatableLoadMorePagination.handleClick], the click on the button. *)
Definition handleClick (pagination : Combined) : Combined :=
  with_page_after_value (prop (next_page_after_value pagination)) pagination.

(** What [DatatableLoadMorePagination] renders: the progress circle, the
    button or the empty string. *)
Inductive LoadMoreView : Type :=
  | Progress
  | LoadMoreButton
  | Nothing.

Definition loadMoreView (pagination : Combined) : LoadMoreView :=
  if truthy (prop (next_page_after_value pagination))
  then if strict_eq (prop (page_after_value pagination))
                    (prop (next_page_after_value pagination))
       then Progress
       else LoadMoreButton
  else Nothing.

(** Whether [DatatableScrollPagination] renders its progress line. *)
Definition scrollProgress (pagination : Combined) : bool :=
  truthy (prop (next_page_after_value pagination))
  && strict_eq (prop (next_page_after_value pagination))
               (prop (page_after_value pagination)).

(** [DatatableHeader.handleSelectAllChanged]: the new selection, ['all']
    or the empty array. *)
Definition handleSelectAllChanged {Row} (selected : Selected Row) : Selected Row :=
  match selected with
  | SelectedAll => SelectedRows []
  | SelectedRows _ => SelectedAll
  end.

(** The rows that [DatatableTable] renders, for a [page_size] that is an
    integer: all of them when the list extends, otherwise
    [data.slice(data.length < page_size ? 0 : data.length - page_size)]. *)
Definition dataToShow {Row} (isExtending : bool) (page_size : Z) (data : list Row) : list Row :=
  if isExtending then data
  else
    let length := Z.of_nat (length data) in
    drop (Z.to_nat (if (length <? page_size)%Z then 0 else length - page_size)%Z) data.

(** [Math.max(0, page_size - data.length)] *)
Definition emptyRows {Row} (page_size : Z) (data : list Row) : Z :=
  Z.max 0 (page_size - Z.of_nat (length data)).

Section Columns.
(** A column object and its [key]; the objects of the [columns] array are
    told apart by [=]. *)
Variable Column : Type.
Variable key : Column -> string.
Context `{EqDecision Column}.

(** [array.includes(x)] on keys. *)
Definition includes (keys : list string) (x : string) : bool :=
  bool_decide (x ∈ keys).

(** The initial state [shownColumns] of [Datatable], from the prop of the
    same name (an array of keys, or undefined). *)
Definition initialShownColumns (columns : list Column)
    (shownColumns : option (list string)) : list Column :=
  match shownColumns with
  | Some keys => filter (fun column => includes keys (key column) = true) columns
  | None => columns
  end.

(** [shownColumnsObjects]: what the context gives as [shownColumns]. *)
Definition shownColumnsObjects (columns shownColumns : list Column) : list Column :=
  filter (fun column => includes (map key shownColumns) (key column) = true) columns.

(** [shownColumns.indexOf(column)]. *)
Fixpoint indexOfColumn (shownColumns : list Column) (column : Column) : option nat :=
  match shownColumns with
  | [] => None
  | c :: rest =>
      if decide (c = column) then Some 0%nat else S <$> indexOfColumn rest column
  end.

(** [DatatableColumnSelector.handleToggle]: the argument of
    [onShownColumnsChanged]. *)
Definition handleToggle (shownColumns : list Column) (column : Column) : list Column :=
  match indexOfColumn shownColumns column with
  | Some index => take index shownColumns ++ drop (index + 1) shownColumns
  | None => shownColumns ++ [column]
  end.

(** The state after a click on [column] in the selector: the selector
    works on the [shownColumns] of the context. *)
Definition toggleColumn (columns state : list Column) (column : Column) : list Column :=
  handleToggle (shownColumnsObjects columns state) column.

End Columns.

Arguments includes keys x : assert.
Arguments initialShownColumns {Column} key columns shownColumns.
Arguments shownColumnsObjects {Column} key columns shownColumns.
Arguments indexOfColumn {Column _} shownColumns column.
Arguments handleToggle {Column _} shownColumns column.
Arguments toggleColumn {Column} key {_} columns state column.

End Table.

(** ** Search.js: the suggestions of the search bar *)

(** An option of the autocompletion: [{value, category}]. *)
Record Suggestion : Type := mkSuggestion {
  s_value : string;
  s_category : string
}.

#[global] Instance Suggestion_eq_dec : EqDecision Suggestion.
Proof. solve_decision. Defined.

(** The name under which a quantity is suggested, in [quantitySuggestions]
    and for the suggestions of its values:
    [quantityAbbreviations.get(q) || q]. *)
Definition suggestedName (searchQuantities : gmap string Quantity) (q : string) : string :=
  str_or_else (quantityAbbreviations searchQuantities !! q) q.

(** The value of a suggestion of the values of a quantity:
    [`${name}=${suggestion.value}`]. *)
Definition valueSuggestion (name value : string) : string :=
  name ++ "=" ++ value.

(** A phrase: what the group [(reString)] is meant to capture.  It starts
    and ends with a character that is not white space and has no line
    terminator. *)
Definition is_phrase (s : string) : bool :=
  match s with
  | String c _ => non_space c
  | EmptyString => false
  end && all_chars dot s && ends_non_space s.

(** The keys a range query can have. *)
Definition range_keys : list string := ["lt"; "gt"; "gte"].

(** The type of a quantity is numeric for the search bar. *)
Definition numeric (searchQuantities : gmap string Quantity) (name : string) : Prop :=
  ∃ q type_data,
    searchQuantities !! name = Some q ∧ q_type_data q = TypeName type_data
    ∧ (startsWith type_data "int" = true ∨ startsWith type_data "float" = true).

(** Search quantities with an enumeration: the type of
    [results.method.method_name] is the list of its values. *)
Definition enum_quantities : gmap string Quantity :=
  {[ "results.material.n_elements" := mkQuantity None None None None None (TypeName "int32");
     "results.method.method_name" :=
       mkQuantity None None None None None (TypeEnum ["DFT"; "GW"]) ]}.

Definition enum_filters : list string :=
  ["results.material.n_elements"; "results.method.method_name"].

(** Search quantities where the last segment [type] belongs to two
    names. *)
Definition shared_quantities : gmap string Quantity :=
  {[ "results.method.simulation.gw.type" := mkQuantity None None None None None (TypeName "str");
     "results.method.simulation.dft.type" := mkQuantity None None None None None (TypeName "str") ]}.

Definition shared_filters : list string :=
  ["results.method.simulation.gw.type"; "results.method.simulation.dft.type"].
(** *** White space around the input *)

(** The class [p] has no white space. *)
Definition rejects_space (p : ascii → bool) : Prop :=
  ∀ c, is_space c = true → p c = false.

(** The pattern [r] needs a first character that is not white space. *)
Definition needs_char (r : regex) : Prop :=
  ∀ s captures k,
    match s with String c _ => is_space c = true | EmptyString => True end →
    run r s captures k = None.

(** The pattern [r] matches alike in front of [w] and at the end of the
    input, when what follows it does. *)
Definition stable (w : string) (r : regex) : Prop :=
  ∀ s captures k' k,
    (∀ t c, k' (t ++ w) c = k t c) →
    run r (s ++ w) captures k' = run r s captures k.

(** The pattern [r], as the end of a pattern, matches alike with and
    without [w] at the end of the input. *)
Definition closes (w : string) (r : regex) : Prop :=
  ∀ s captures,
    run r (s ++ w) captures (fun _ c => Some c)
    = run r s captures (fun _ c => Some c).
(** *** filterOptions *)

(** [s.toLowerCase()] on the code units of the model: the letters [A] to
    [Z] and the capital letters of Latin-1 (U+00C0 to U+00DE but the
    multiplication sign U+00D7) have their small letter 32 places
    further. *)
Definition toLowerCase_char (c : ascii) : ascii :=
  let n := N_of_ascii c in
  if ((65 <=? n) && (n <=? 90)
      || (192 <=? n) && (n <=? 222) && negb (n =? 215))%N
  then ascii_of_N (n + 32)
  else c.

Fixpoint toLowerCase (s : string) : string :=
  match s with
  | String c s' => String (toLowerCase_char c) (toLowerCase s')
  | EmptyString => EmptyString
  end.

(** [s.replaceAll(a, b)] for one-character strings [a] and [b]. *)
Fixpoint replaceAll (s : string) (a b : ascii) : string :=
  match s with
  | String c s' => String (if Ascii.eqb c a then b else c) (replaceAll s' a b)
  | EmptyString => EmptyString
  end.

(** [s.includes(t)]. *)
Fixpoint includes (s t : string) : bool :=
  String.prefix t s
  || match s with
     | String _ s' => includes s' t
     | EmptyString => false
     end.

(** [filterOptions(options, {inputValue})]. *)
Definition filterOptions (options : list Suggestion) (inputValue : string)
    : list Suggestion :=
  let trimmed := toLowerCase (trim inputValue) in
  filter
    (fun option =>
       (let category := s_category option in
        if negb (String.eqb category "quantity name") then true
        else
          let optionClean := toLowerCase (trim (s_value option)) in
          let matchUnderscore := includes optionClean trimmed in
          let matchNoUnderscore := includes (replaceAll optionClean "_" " ") trimmed in
          matchUnderscore || matchNoUnderscore) = true)
    options.

(** *** usePagination *)

(** [objectFilter(obj, predicate)] of utils.js: the properties of [obj]
    whose key satisfies the predicate, put one after the other into a new
    object.  The maps are the properties of the objects themselves:
    [res[key] = obj[key]] adds the property [key] to [res], but for the
    key [__proto__], which the new object inherits with a setter: that
    assignment adds no property. *)
Definition objectFilter {V} (obj : gmap string V) (predicate : string → bool)
    : gmap string V :=
  foldl (fun res '(key, value) =>
           if decide (key = "__proto__") then res else <[key := value]> res)
        ∅ (filter (fun '(key, _) => predicate key = true) (map_to_list obj)).

(** The request parameters that [usePagination] hands to the search
    context, from the parameters of the URL: the falsy ones are left out,
    and the page is [1] when it is left out. *)
Definition usePagination (requestQueryParameters : gmap string jsval)
    : gmap string jsval :=
  let requestQueryParameters' :=
    objectFilter requestQueryParameters
      (fun key => truthy (default JUndefined (requestQueryParameters !! key))) in
  <["page" := jor (default JUndefined (requestQueryParameters' !! "page")) (JNum 1)]>
    requestQueryParameters'.

(** ** The registry after the registrations *)

(** The registries that calls of [saveFilter] that return build, from the
    empty containers of the module. *)
Inductive registered (searchQuantities : gmap string Quantity) (imports : Imports)
    : Registry → Prop :=
  | registered_empty : registered searchQuantities imports emptyRegistry
  | registered_save r name group config parent r' :
      registered searchQuantities imports r →
      saveFilter searchQuantities imports r name group config parent = Returned r' →
      registered searchQuantities imports r'.

(** The name of a sub-quantity: [`${name}.${subConfig.name}`]. *)
Definition subname (name : string) (subConfig : Config) : string :=
  name ++ "." ++ default "undefined" (cfg_name subConfig).

(** The registry after the registration of [results.material.n_elements]. *)
Definition one_filter : Registry :=
  match saveFilter ∅ plainImports emptyRegistry "results.material.n_elements"
          (Some "elements") n_elements_config None with
  | Returned r | Threw _ r => r
  end.

(** The config of the registration of the global filter [combine], and
    the registry after it. *)
Definition combine_config : Config :=
  {| cfg_name := None;
     cfg_options := None;
     cfg_aggs := None;
     cfg_value := None;
     cfg_multiple := Some false;
     cfg_exclusive := None;
     cfg_unit := None;
     cfg_dtype := None;
     cfg_label := None;
     cfg_stats := None;
     cfg_description :=
       Some "If selected, your filters may be matched from several entries that contain the same material. When unchecked, the material has to have a single entry that matches all your filters.";
     cfg_scale := None;
     cfg_queryMode := None;
     cfg_global := Some true;
     cfg_default := JBool true;
     cfg_resources := Some ["materials"] |}.

Definition combine_filter : Registry :=
  match saveFilter ∅ plainImports emptyRegistry "combine" None
          combine_config None with
  | Returned r | Threw _ r => r
  end.

(** The registration of
    [results.properties.electronic.band_structure_electronic] with its
    sub-quantity [spin_polarized], and the registry after it. *)
Definition spin_polarized_config : Config :=
  with_name "spin_polarized" (with_label "Spin-polarized" termQuantityBool).

Definition band_structure_filters : Registry :=
  match registerFilter ∅ plainImports emptyRegistry
          "results.properties.electronic.band_structure_electronic"
          (Some "electronic") (with_label "Band Structure" nestedQuantity)
          (Some [spin_polarized_config]) with
  | Returned r | Threw _ r => r
  end.
(** ** The names of the materials search *)

(** [name.substring(n)]: [name] without its first [n] characters. *)
Fixpoint substring_from (n : nat) (name : string) : string :=
  match n, name with
  | O, _ => name
  | S n', String _ name' => substring_from n' name'
  | S _, EmptyString => EmptyString
  end.

(** The body of the loop over [Object.keys(searchQuantities)]: the name
    of a quantity for the materials search. *)
Definition materialName (name : string) : string :=
  let prefix := "results.material." in
  if startsWith name prefix
  then substring_from (String.length prefix) name
  else "entries." ++ name.

(** The loop, over the keys [names] in their order: the two exported
    objects [materialNames] and [entryNames]. *)
Definition nameMaps (names : list string) : gmap string string * gmap string string :=
  foldl
    (fun '(materialNames, entryNames) name =>
       (<[name := materialName name]> materialNames,
        <[materialName name := name]> entryNames))
    (∅, ∅) names.

Definition materialNames (names : list string) : gmap string string := (nameMaps names).1.
Definition entryNames (names : list string) : gmap string string := (nameMaps names).2.

(** ** Static suggestions *)

(** An option of [getSuggestions]: [{value, category, text, tokens}]. *)
Record StaticOption : Type := mkStaticOption {
  so_value : string;
  so_category : string;
  so_text : string;
  so_tokens : list string
}.

(** [s.trim().replace(/_/g, ' ').toLowerCase()]. *)
Definition cleaned (s : string) : string :=
  toLowerCase (replaceAll (trim s) "_" " ").

(** [[...s.matchAll(/[ .]/g)].map(match => s.slice(match.index + 1))]:
    what follows each space and each dot of [s]. *)
Fixpoint slices (s : string) : list string :=
  match s with
  | String c s' =>
      if Ascii.eqb c " " || Ascii.eqb c "."
      then s' :: slices s'
      else slices s'
  | EmptyString => []
  end.

(** The [options] of [getSuggestions(category, values, minLength, text)]. *)
Definition getSuggestions_options (category : string) (values : list string)
    (text : string → string) : list StaticOption :=
  map (fun value =>
         let optionCleaned := cleaned value in
         let tokens := [optionCleaned] ++ slices optionCleaned in
         {| so_value := value;
            so_category := category;
            so_text := text value;
            so_tokens := tokens |})%list
      values.

(** [suggestions.sort((a, b) => a.value.length - b.value.length)]: the
    sort is stable, so that an option goes in front of the options that
    come after it and are not shorter. *)
Fixpoint insert_by_length (a : StaticOption) (sorted : list StaticOption)
    : list StaticOption :=
  match sorted with
  | [] => [a]
  | b :: rest =>
      if (String.length (so_value a) <=? String.length (so_value b))%nat
      then a :: b :: rest
      else b :: insert_by_length a rest
  end.

Definition sort_by_length (suggestions : list StaticOption) : list StaticOption :=
  foldr insert_by_length [] suggestions.

(** The [filter] of [getSuggestions]. *)
Definition getSuggestions_filter (options : list StaticOption) (minLength : nat)
    (input : string) : list StaticOption :=
  if (String.length input <? minLength)%nat then []
  else
    let inputCleaned := cleaned input in
    let suggestions :=
      filter (fun option =>
                existsb (fun token => startsWith token inputCleaned)
                        (so_tokens option) = true)
             options in
    sort_by_length suggestions.

(** The options are in the order of the lengths of their values. *)
Definition by_length (a b : StaticOption) : Prop :=
  (String.length (so_value a) ≤ String.length (so_value b))%nat.

(** ** utils.js *)

(** [isEquivalent(a, b)], for objects whose properties hold primitive
    values. *)
Definition isEquivalent (a b : gmap string jsval) : bool :=
  let aProps := (map_to_list a).*1 in
  let bProps := (map_to_list b).*1 in
  if negb (length aProps =? length bProps)%nat then false
  else
    forallb (fun propName =>
               Table.strict_eq (default JUndefined (a !! propName))
                               (default JUndefined (b !! propName)))
            aProps.

(** [arr.concat().sort()] for an array of strings: the default order of
    [sort] is the order of the code units.  The sorted array is the same
    whatever the algorithm; here each element is put in its place among
    the sorted rest. *)
Fixpoint sort_insert (x : string) (sorted : list string) : list string :=
  match sorted with
  | [] => [x]
  | y :: rest => if String.leb x y then x :: y :: rest else y :: sort_insert x rest
  end.

Definition sort (arr : list string) : list string := foldr sort_insert [] arr.

(** The loop of [arraysEqual]: [arr1[i] !== arr2[i]] for [i] below
    [arr1.length] ([arr2[i]] is undefined beyond the end of [arr2]). *)
Fixpoint same_at_each_index (arr1 arr2 : list string) : bool :=
  match arr1, arr2 with
  | [], _ => true
  | x :: arr1', y :: arr2' => if String.eqb x y then same_at_each_index arr1' arr2' else false
  | _ :: _, [] => false
  end.

(** [arraysEqual(_arr1, _arr2)]; [None] is an argument that is not an
    array. *)
Definition arraysEqual (_arr1 _arr2 : option (list string)) : bool :=
  match _arr1, _arr2 with
  | Some _arr1, Some _arr2 =>
      if negb (length _arr1 =? length _arr2)%nat then false
      else
        let arr1 := sort _arr1 in
        let arr2 := sort _arr2 in
        same_at_each_index arr1 arr2
  | _, _ => false
  end.



(** * Properties *)

(** ** combinePagination *)

(** C3, as amended.  A property among [page_size], [order_by], [order] and
    [page] comes from the request when the value the request has for it
    is truthy, and from the response (undefined without a response)
    otherwise; [total] always comes from the response.  In particular
    [combinePagination({page_size: 10}, {page_size: 20, total: 5})] has
    [page_size] 10 and [total] 5. *)
Theorem combinePagination_prefers_truthy_request :
  ∀ (request : Request) (response : option Response),
    let result := combinePagination request response in
    let pick (a : jsval) (f : Response → jsval) :=
      if truthy a then a else opt_get response f in
    page_size result = pick (req_page_size request) res_page_size
    ∧ order_by result = pick (req_order_by request) res_order_by
    ∧ order result = pick (req_order request) res_order
    ∧ page result = pick (req_page request) res_page
    ∧ total result = opt_get response res_total
    ∧ page_size (combinePagination request_10 (Some response_20_5)) = JNum 10
    ∧ total (combinePagination request_10 (Some response_20_5)) = JNum 5.
Proof.
  intros request response. cbn -[truthy]. unfold jor.
  repeat split; reflexivity.
Qed.

(** C3 as stated fails: the request [{page_size: 0}] provides a
    [page_size], and the combined object has the 20 of the response. *)
Lemma combinePagination_zero_page_size :
  let request := mkRequest (JNum 0) JUndefined JUndefined JUndefined JUndefined in
  req_page_size request ≠ JUndefined
  ∧ page_size (combinePagination request (Some response_20_5)) = JNum 20
  ∧ page_size (combinePagination request (Some response_20_5))
    ≠ req_page_size request.
Proof. cbn. repeat split; congruence. Qed.

(** C8, as amended.  When the combined [page] is truthy the result has
    neither [page_after_value] nor [next_page_after_value]; when it is
    falsy (undefined, but also null or 0) the result has both. *)
Theorem combinePagination_cursor_iff_page_falsy :
  ∀ (request : Request) (response : option Response),
    let result := combinePagination request response in
    if truthy (page result)
    then page_after_value result = None ∧ next_page_after_value result = None
    else page_after_value result
         = Some (jor (req_page_after_value request)
                     (opt_get response res_page_after_value))
         ∧ next_page_after_value result
           = Some (opt_get response res_next_page_after_value).
Proof.
  intros request response. cbn -[truthy jor].
  destruct (truthy (jor _ _)); cbn; split; reflexivity.
Qed.

(** C8 as stated fails: with the request [{page_after_value: 'abc'}] and
    the response [{page: 0, next_page_after_value: 'def'}] the combined
    object defines [page] (it is 0) together with both cursor
    properties. *)
Lemma combinePagination_page_zero_with_cursor :
  let request := mkRequest JUndefined JUndefined JUndefined JUndefined (JStr "abc") in
  let response := mkResponse JUndefined JUndefined JUndefined (JNum 0) JUndefined
                             JUndefined (JStr "def") in
  let result := combinePagination request (Some response) in
  page result = JNum 0
  ∧ page result ≠ JUndefined
  ∧ page_after_value result = Some (JStr "abc")
  ∧ next_page_after_value result = Some (JStr "def").
Proof. cbn. repeat split; congruence. Qed.

(** ** handleSelect *)

(** C7.  Clicking the row [r] while the selection is ['all'] gives the
    array [[r]], whatever the rows of the table are. *)
Theorem handleSelect_all_is_singleton :
  ∀ (Row : Type) (entry_id : Row → string) (r : Row),
    handleSelect entry_id r SelectedAll = [r].
Proof. intros Row entry_id r. reflexivity. Qed.

(** For comparison: on an array the click toggles the row. *)
Lemma handleSelect_rows_absent :
  ∀ (Row : Type) (entry_id : Row → string) (r : Row) (rows : list Row),
    indexOf (map entry_id rows) (entry_id r) = None →
    handleSelect entry_id r (SelectedRows rows) = (rows ++ [r])%list.
Proof. intros Row entry_id r rows H. cbn. rewrite H. reflexivity. Qed.

(** ** The filter registry: saveFilter *)

Section SaveFilter.
Variable searchQuantities : gmap string Quantity.
Variable imports : Imports.

(** The last line of [saveFilter] stores the entry it has filled in. *)
Lemma saveFilter_returned r name group config parent r' :
  saveFilter searchQuantities imports r name group config parent = Returned r' →
  ∃ dim data2,
    filterData r' !! name
    = Some (assign_default_resources config
              (assign_queryMode_global config data2))
    ∧ data2 = assign_to_scale searchQuantities imports (filterData r) name
                config parent dim
                (assign_to_serializers searchQuantities imports name config
                   (default emptyData (filterData r !! name))).
Proof.
  unfold saveFilter. intros H.
  destruct (if truthy_str _ then _ else _) as [dim|]; [|discriminate].
  destruct (truthy_str _ && _); [discriminate|].
  destruct (truthy _ && _); [discriminate|].
  injection H as <-. exists dim. eexists. split; [|reflexivity].
  cbn [filterData]. apply lookup_insert_eq.
Qed.

(** The check of the query mode reads [data.queryMode] before the
    assignment of the new value: for a name that is not registered yet it
    reads [undefined], and the error of the query mode is never thrown. *)
Lemma saveFilter_new_name_no_ErrQueryMode r name group config parent r' :
  filterData r !! name = None →
  saveFilter searchQuantities imports r name group config parent
  ≠ Threw ErrQueryMode r'.
Proof.
  unfold saveFilter. intros Hnew. rewrite Hnew. cbn [default].
  destruct (if truthy_str _ then _ else _) as [dim|]; [|discriminate].
  cbn [assign_to_scale fd_queryMode assign_to_serializers emptyData
       truthy_str andb].
  destruct (truthy _ && _); discriminate.
Qed.

(** A new name is registered whenever the unit has a dimension and a
    truthy default comes with [global]. *)
Lemma saveFilter_new_name_returns r name group config parent :
  filterData r !! name = None →
  (∀ u, is_Some (unitDimension imports u)) →
  truthy (cfg_default config) && negb (truthy_bool (cfg_global config)) = false →
  ∃ r', saveFilter searchQuantities imports r name group config parent
        = Returned r'.
Proof.
  unfold saveFilter. intros Hnew Hunit Hdefault. rewrite Hnew. cbn [default].
  destruct (truthy_str _).
  - destruct (Hunit (default "" (fd_unit (assign_to_serializers searchQuantities
                imports name config emptyData)))) as [dim ->].
    cbn. unfold truthy_bool in Hdefault. rewrite Hdefault. eauto.
  - cbn. unfold truthy_bool in Hdefault. rewrite Hdefault. eauto.
Qed.

End SaveFilter.



(** C2, on the code.  On the empty registry,
    [saveFilter('quantities', 'processed_data_quantities',
                {multiple: false, queryMode: 'all'})]
    returns, and stores a filter with the query mode ['all'] and
    [multiple] false: nothing is raised. *)
Theorem saveFilter_accepts_queryMode_without_multiple :
  ∃ r' data,
    saveFilter ∅ plainImports emptyRegistry "quantities"
      (Some "processed_data_quantities") queryMode_without_multiple None
    = Returned r'
    ∧ filterData r' !! "quantities" = Some data
    ∧ fd_queryMode data = Some "all"
    ∧ fd_multiple data = Some false.
Proof.
  destruct (saveFilter_new_name_returns ∅ plainImports emptyRegistry
              "quantities" (Some "processed_data_quantities")
              queryMode_without_multiple None)
    as [r' Hr'].
  - reflexivity.
  - intros u. eexists. reflexivity.
  - reflexivity.
  - destruct (saveFilter_returned _ _ _ _ _ _ _ _ Hr')
      as (dim & data2 & Hdata & ->).
    exists r'. eexists. split; [exact Hr'|]. split; [exact Hdata|].
    split; reflexivity.
Qed.

(** ** The filter registry: the abbreviation tables *)

Lemma split_dot_not_nil s : split_dot s ≠ [].
Proof.
  destruct s as [|c s]; cbn; [discriminate|].
  destruct (Ascii.eqb c "."); [discriminate|].
  destruct (split_dot s); discriminate.
Qed.

Lemma split_dot_no_dot s : has_dot s = false → split_dot s = [s].
Proof.
  induction s as [|c s IH]; cbn; [reflexivity|].
  destruct (Ascii.eqb c "."); cbn; [discriminate|].
  intros H. rewrite (IH H). reflexivity.
Qed.

Lemma lastSegment_no_dot s : has_dot s = false → lastSegment s = s.
Proof. intros H. unfold lastSegment. rewrite (split_dot_no_dot _ H). reflexivity. Qed.

Lemma lastSegment_has_no_dot s : has_dot (lastSegment s) = false.
Proof.
  unfold lastSegment. induction s as [|c s IH]; cbn; [reflexivity|].
  pose proof (split_dot_not_nil s) as Hne.
  destruct (Ascii.eqb c ".") eqn:Ec.
  - destruct (split_dot s) as [|seg segs]; [congruence|]. exact IH.
  - destruct (split_dot s) as [|seg [|seg' segs]]; [congruence| |exact IH].
    cbn in *. rewrite Ec, IH. reflexivity.
Qed.

(** The last segment of a last segment is itself. *)
Lemma lastSegment_idempotent s : lastSegment (lastSegment s) = lastSegment s.
Proof. apply lastSegment_no_dot, lastSegment_has_no_dot. Qed.

Lemma occurrences_cons a n names :
  occurrences a (n :: names)
  = ((if decide (lastSegment n = a) then 1 else 0) + occurrences a names)%nat.
Proof.
  unfold occurrences. rewrite filter_cons. destruct (decide _); reflexivity.
Qed.

(** With one occurrence, the short form is that of one name only. *)
Lemma occurrences_one a names m1 m2 :
  occurrences a names = 1%nat →
  m1 ∈ names → lastSegment m1 = a →
  m2 ∈ names → lastSegment m2 = a →
  m1 = m2.
Proof.
  unfold occurrences. intros Hone H1 E1 H2 E2.
  assert (I1 : m1 ∈ filter (fun m => lastSegment m = a) names)
    by (apply list_elem_of_filter; auto).
  assert (I2 : m2 ∈ filter (fun m => lastSegment m = a) names)
    by (apply list_elem_of_filter; auto).
  destruct (filter _ names) as [|x [|y l]]; try discriminate.
  apply list_elem_of_singleton in I1, I2. congruence.
Qed.

(** A short form that belongs to one name occurs once. *)
Lemma unique_short_occurrences names n :
  NoDup names → n ∈ names → unique_short names n →
  occurrences (lastSegment n) names = 1%nat.
Proof.
  unfold occurrences, unique_short. intros Hnd Hin Huniq.
  assert (Hnd' := NoDup_filter (fun m => lastSegment m = lastSegment n) _ Hnd).
  assert (Hall : ∀ m, m ∈ filter (fun m => lastSegment m = lastSegment n) names → m = n).
  { intros m [E I]%list_elem_of_filter. auto. }
  assert (I : n ∈ filter (fun m => lastSegment m = lastSegment n) names)
    by (apply list_elem_of_filter; auto).
  destruct (filter _ names) as [|x [|y l]].
  - apply elem_of_nil in I. destruct I.
  - reflexivity.
  - exfalso. apply NoDup_cons in Hnd' as [Hx _]. apply Hx.
    rewrite (Hall x), <- (Hall y); [left| |left].
    right. left.
Qed.

(** *** The first loop *)

Lemma first_loop_counts names t a :
  abbreviations (foldl count_and_default_plain t (nameAbbreviationPairs names)) !! a
  = match occurrences a names with
    | O => abbreviations t !! a
    | S k => Some (default 0 (abbreviations t !! a) + S k)%nat
    end.
Proof.
  revert t. induction names as [|n names IH]; intros t; [reflexivity|].
  cbn [nameAbbreviationPairs map foldl]. fold (nameAbbreviationPairs names).
  rewrite IH, occurrences_cons. cbn [count_and_default_plain abbreviations].
  destruct (decide (lastSegment n = a)) as [->|Hne].
  - destruct (abbreviations t !! a) as [old|] eqn:E;
      rewrite lookup_insert_eq; cbn;
      destruct (occurrences _ names); f_equal; lia.
  - assert (H : ∀ v, <[lastSegment n := v]> (abbreviations t) !! a
                     = abbreviations t !! a)
      by (intros v; apply lookup_insert_ne, Hne).
    destruct (abbreviations t !! lastSegment n); rewrite H; reflexivity.
Qed.

Lemma first_loop_abbreviations names t n :
  filterAbbreviations (foldl count_and_default_plain t (nameAbbreviationPairs names)) !! n
  = if decide (n ∈ names) then Some n else filterAbbreviations t !! n.
Proof.
  revert t. induction names as [|m names IH]; intros t.
  - cbn. destruct (decide _) as [H%elem_of_nil|]; [destruct H|reflexivity].
  - cbn [nameAbbreviationPairs map foldl]. fold (nameAbbreviationPairs names).
    rewrite IH. cbn [count_and_default_plain filterAbbreviations].
    destruct (decide (n ∈ names)) as [H|H].
    + rewrite decide_True by (right; exact H). reflexivity.
    + destruct (decide (m = n)) as [->|Hne].
      * rewrite lookup_insert_eq, decide_True by left. reflexivity.
      * rewrite lookup_insert_ne by exact Hne.
        rewrite decide_False; [reflexivity|].
        intros [?|?]%elem_of_cons; congruence.
Qed.

Lemma first_loop_fullnames names t n :
  filterFullnames (foldl count_and_default_plain t (nameAbbreviationPairs names)) !! n
  = if decide (n ∈ names) then Some n else filterFullnames t !! n.
Proof.
  revert t. induction names as [|m names IH]; intros t.
  - cbn. destruct (decide _) as [H%elem_of_nil|]; [destruct H|reflexivity].
  - cbn [nameAbbreviationPairs map foldl]. fold (nameAbbreviationPairs names).
    rewrite IH. cbn [count_and_default_plain filterFullnames].
    destruct (decide (n ∈ names)) as [H|H].
    + rewrite decide_True by (right; exact H). reflexivity.
    + destruct (decide (m = n)) as [->|Hne].
      * rewrite lookup_insert_eq, decide_True by left. reflexivity.
      * rewrite lookup_insert_ne by exact Hne.
        rewrite decide_False; [reflexivity|].
        intros [?|?]%elem_of_cons; congruence.
Qed.

(** *** The second loop *)

Lemma abbreviate_unique_counts t pair :
  abbreviations (abbreviate_unique_plain t pair) = abbreviations t.
Proof. destruct pair as [n a]. cbn. destruct (decide _); reflexivity. Qed.

Lemma second_loop_abbreviations names t n :
  filterAbbreviations (foldl abbreviate_unique_plain t (nameAbbreviationPairs names)) !! n
  = if decide (n ∈ names ∧ abbreviations t !! lastSegment n = Some 1%nat)
    then Some (lastSegment n)
    else filterAbbreviations t !! n.
Proof.
  revert t. induction names as [|m names IH]; intros t.
  - cbn. destruct (decide _) as [[H%elem_of_nil _]|]; [destruct H|reflexivity].
  - cbn [nameAbbreviationPairs map foldl]. fold (nameAbbreviationPairs names).
    rewrite IH, abbreviate_unique_counts.
    destruct (decide (n ∈ names ∧ _)) as [[Hin Hc]|Hno].
    + rewrite decide_True; [reflexivity|]. split; [right; exact Hin|exact Hc].
    + cbn [abbreviate_unique_plain].
      destruct (decide (abbreviations t !! lastSegment m = Some 1%nat)) as [Hm|Hm];
        cbn [filterAbbreviations].
      * destruct (decide (m = n)) as [->|Hne].
        -- rewrite lookup_insert_eq, decide_True; [reflexivity|].
           split; [left|exact Hm].
        -- rewrite lookup_insert_ne by exact Hne.
           rewrite decide_False; [reflexivity|].
           intros [[?|?]%elem_of_cons Hc]; [congruence|]. apply Hno. auto.
      * rewrite decide_False; [reflexivity|].
        intros [[?|?]%elem_of_cons Hc]; [congruence|]. apply Hno. auto.
Qed.

(** The second loop leaves an entry of [filterFullnames] as it was, or
    makes it a name whose short form is the key and occurs once. *)
Lemma second_loop_fullnames names t k :
  let t' := foldl abbreviate_unique_plain t (nameAbbreviationPairs names) in
  filterFullnames t' !! k = filterFullnames t !! k
  ∨ ∃ v, v ∈ names ∧ lastSegment v = k
         ∧ abbreviations t !! k = Some 1%nat
         ∧ filterFullnames t' !! k = Some v.
Proof.
  revert t. induction names as [|m names IH]; intros t; [left; reflexivity|].
  cbn [nameAbbreviationPairs map foldl]. fold (nameAbbreviationPairs names).
  cbn zeta in *.
  destruct (IH (abbreviate_unique_plain t (m, lastSegment m)))
    as [E|(v & Hv & Hk & Hc & E)].
  - rewrite E. cbn [abbreviate_unique_plain].
    destruct (decide (abbreviations t !! lastSegment m = Some 1%nat)) as [Hm|Hm];
      [|left; reflexivity].
    cbn [filterFullnames].
    destruct (decide (lastSegment m = k)) as [<-|Hne].
    + right. exists m. rewrite lookup_insert_eq. repeat split; auto. left.
    + left. apply lookup_insert_ne, Hne.
  - right. exists v. rewrite abbreviate_unique_counts in Hc.
    repeat split; auto. right. exact Hv.
Qed.

(** A name whose short form occurs once is found under it, or another
    name with the same short form is. *)
Lemma second_loop_fullnames_set names t m :
  let t' := foldl abbreviate_unique_plain t (nameAbbreviationPairs names) in
  m ∈ names → abbreviations t !! lastSegment m = Some 1%nat →
  ∃ v, v ∈ names ∧ lastSegment v = lastSegment m
       ∧ filterFullnames t' !! lastSegment m = Some v.
Proof.
  cbn zeta. revert t. induction names as [|x names IH]; intros t Hin Hc.
  - apply elem_of_nil in Hin. destruct Hin.
  - cbn [nameAbbreviationPairs map foldl]. fold (nameAbbreviationPairs names).
    destruct (second_loop_fullnames names (abbreviate_unique_plain t (x, lastSegment x))
                (lastSegment m)) as [E|(v & Hv & Hk & _ & E)].
    + cbn zeta in E. rewrite E.
      apply elem_of_cons in Hin as [->|Hin].
      * exists x. cbn [abbreviate_unique_plain]. rewrite decide_True by exact Hc.
        cbn [filterFullnames]. rewrite lookup_insert_eq.
        repeat split. left.
      * destruct (IH (abbreviate_unique_plain t (x, lastSegment x)) Hin)
          as (v & Hv & Hk & E').
        { rewrite abbreviate_unique_counts. exact Hc. }
        exists v. rewrite <- E, E'. repeat split; auto. right. exact Hv.
    + exists v. repeat split; auto. right. exact Hv.
Qed.

(** *** The finished tables *)

Lemma buildTables_counts names a :
  abbreviations (foldl count_and_default_plain emptyTables (nameAbbreviationPairs names)) !! a
  = Some 1%nat ↔ occurrences a names = 1%nat.
Proof.
  rewrite first_loop_counts. cbn [emptyTables abbreviations].
  rewrite lookup_empty. cbn.
  destruct (occurrences a names); split; intros H; try discriminate.
  - injection H as H. f_equal. exact H.
  - rewrite H. reflexivity.
Qed.

Lemma buildTables_abbreviate names n :
  n ∈ names →
  abbreviate (buildTables_plain names) n
  = Some (if decide (occurrences (lastSegment n) names = 1%nat)
          then lastSegment n else n).
Proof.
  intros Hin. unfold abbreviate, buildTables_plain.
  rewrite second_loop_abbreviations, first_loop_abbreviations.
  rewrite (decide_True (P := n ∈ names)) by exact Hin.
  destruct (decide (occurrences _ _ = 1%nat)) as [H|H].
  - rewrite decide_True; [reflexivity|]. split; [exact Hin|].
    apply buildTables_counts, H.
  - rewrite decide_False; [reflexivity|]. intros [_ Hc]. apply H.
    apply buildTables_counts, Hc.
Qed.

Lemma buildTables_fullname_name names n :
  n ∈ names → fullname (buildTables_plain names) n = Some n.
Proof.
  intros Hin. unfold fullname, buildTables_plain.
  destruct (second_loop_fullnames names
              (foldl count_and_default_plain emptyTables (nameAbbreviationPairs names)) n)
    as [E|(v & Hv & Hk & Hc & E)]; cbn zeta in E; rewrite E.
  - rewrite first_loop_fullnames, decide_True by exact Hin. reflexivity.
  - f_equal. apply buildTables_counts in Hc.
    apply (occurrences_one n names v n Hc); auto.
    rewrite <- Hk. apply lastSegment_idempotent.
Qed.

Lemma buildTables_fullname_short names n :
  n ∈ names → occurrences (lastSegment n) names = 1%nat →
  fullname (buildTables_plain names) (lastSegment n) = Some n.
Proof.
  intros Hin Hone. unfold fullname, buildTables_plain.
  destruct (second_loop_fullnames_set names
              (foldl count_and_default_plain emptyTables (nameAbbreviationPairs names))
              n Hin) as (v & Hv & Hk & E).
  { apply buildTables_counts, Hone. }
  rewrite E. f_equal. apply (occurrences_one _ names v n Hone); auto.
Qed.

Lemma registeredNames_spec r n :
  n ∈ registeredNames r ↔ is_Some (filterData r !! n).
Proof.
  unfold registeredNames. rewrite list_elem_of_fmap. split.
  - intros ([k v] & -> & H%elem_of_map_to_list). cbn. eauto.
  - intros [v H]. exists (n, v). split; [reflexivity|].
    apply elem_of_map_to_list, H.
Qed.

Lemma registeredNames_NoDup r : NoDup (registeredNames r).
Proof. apply NoDup_fst_map_to_list. Qed.

(** The round trips over any list of distinct names. *)
Lemma buildTables_round_trips names n :
  NoDup names → n ∈ names →
  let t := buildTables_plain names in
  abbreviate t n ≫= fullname t = Some n
  ∧ fullname t n = Some n
  ∧ (unique_short names n →
       abbreviate t n = Some (lastSegment n)
       ∧ fullname t (lastSegment n) = Some n)
  ∧ (¬ unique_short names n → abbreviate t n = Some n).
Proof.
  intros Hnd Hin t. subst t.
  rewrite (buildTables_abbreviate names n Hin).
  repeat split.
  - cbn. destruct (decide _) as [H|H].
    + apply buildTables_fullname_short; assumption.
    + apply buildTables_fullname_name, Hin.
  - apply buildTables_fullname_name, Hin.
  - rewrite decide_True; [reflexivity|].
    apply unique_short_occurrences; assumption.
  - apply buildTables_fullname_short; [assumption|].
    apply unique_short_occurrences; assumption.
  - intros Hno. rewrite decide_False; [reflexivity|].
    intros Hone. apply Hno. intros m Hm E.
    apply (occurrences_one _ names m n Hone); auto.
Qed.

(** *** The loops on plain names *)

Lemma array_set_plain key value table :
  key ∉ special_keys → array_set key value table = Some (<[key := value]> table).
Proof.
  intros H. unfold array_set.
  destruct (String.eqb_spec key "length") as [->|_].
  { exfalso. apply H. left. }
  destruct (String.eqb_spec key "__proto__") as [->|_]; [|reflexivity].
  exfalso. apply H. unfold special_keys, Object_prototype_keys.
  do 11 (apply elem_of_cons; right). left.
Qed.

(** A name whose short form is not special is not special itself. *)
Lemma plain_name m : lastSegment m ∉ special_keys → m ∉ special_keys.
Proof.
  intros H Hm. apply H.
  assert (E : lastSegment m = m); [|rewrite E; exact Hm].
  apply lastSegment_no_dot. unfold special_keys, Object_prototype_keys in Hm.
  repeat (apply elem_of_cons in Hm as [->|Hm]; [reflexivity|]).
  apply elem_of_nil in Hm. destruct Hm.
Qed.

Lemma count_and_default_plain_name t m :
  lastSegment m ∉ special_keys →
  count_and_default t (m, lastSegment m)
  = Some (count_and_default_plain t (m, lastSegment m)).
Proof.
  intros H. pose proof (plain_name m H) as Hm.
  unfold count_and_default, count_and_default_plain.
  rewrite !array_set_plain by exact Hm. cbn. f_equal. f_equal.
  destruct (abbreviations t !! lastSegment m); [reflexivity|].
  rewrite decide_False; [reflexivity|]. intros Hin. apply H. right. exact Hin.
Qed.

Lemma abbreviate_unique_plain_name t m :
  lastSegment m ∉ special_keys →
  abbreviate_unique t (m, lastSegment m)
  = Some (abbreviate_unique_plain t (m, lastSegment m)).
Proof.
  intros H. pose proof (plain_name m H) as Hm.
  unfold abbreviate_unique, abbreviate_unique_plain.
  destruct (decide _); [|reflexivity].
  rewrite !array_set_plain by assumption. reflexivity.
Qed.

(** On names whose short forms are not special no loop throws, and the
    tables are those of the plain loops. *)
Lemma buildTables_plain_names names :
  (∀ m, m ∈ names → lastSegment m ∉ special_keys) →
  buildTables names = Some (buildTables_plain names).
Proof.
  intros Hplain. unfold buildTables, buildTables_plain. cbv zeta.
  assert (H1 : ∀ l t, (∀ m, m ∈ l → lastSegment m ∉ special_keys) →
             foldl (fun o pair => o ≫= fun t => count_and_default t pair)
                   (Some t) (nameAbbreviationPairs l)
             = Some (foldl count_and_default_plain t (nameAbbreviationPairs l))).
  { induction l as [|m l IH]; intros t Hl; [reflexivity|].
    cbn [nameAbbreviationPairs map foldl]. fold (nameAbbreviationPairs l).
    cbn [mbind option_bind].
    rewrite count_and_default_plain_name by (apply Hl; left).
    apply IH. intros m' Hm'. apply Hl. right. exact Hm'. }
  assert (H2 : ∀ l t, (∀ m, m ∈ l → lastSegment m ∉ special_keys) →
             foldl (fun o pair => o ≫= fun t => abbreviate_unique t pair)
                   (Some t) (nameAbbreviationPairs l)
             = Some (foldl abbreviate_unique_plain t (nameAbbreviationPairs l))).
  { induction l as [|m l IH]; intros t Hl; [reflexivity|].
    cbn [nameAbbreviationPairs map foldl]. fold (nameAbbreviationPairs l).
    cbn [mbind option_bind].
    rewrite abbreviate_unique_plain_name by (apply Hl; left).
    apply IH. intros m' Hm'. apply Hl. right. exact Hm'. }
  rewrite H1 by exact Hplain. cbn [mbind option_bind]. apply H2, Hplain.
Qed.

(** C6, as amended.  Let no registered name have a short form (its last
    segment) that is [length] or a key of [Object.prototype].  The tables
    are built then, and for every registered name [n], the full name of
    the abbreviation of [n] is [n], and [n] is its own full name.  When
    the short form of [n] belongs to no other registered name, the
    abbreviation of [n] is that short form and the round trip that starts
    from the short form comes back to it; otherwise [n] is its own
    abbreviation. *)
Theorem abbreviation_round_trips :
  ∀ (r : Registry) (n : string),
    is_Some (filterData r !! n) →
    let names := registeredNames r in
    (∀ m, m ∈ names → lastSegment m ∉ special_keys) →
    ∃ t, buildTables names = Some t
      ∧ abbreviate t n ≫= fullname t = Some n
      ∧ fullname t n = Some n
      ∧ (unique_short names n →
           abbreviate t n = Some (lastSegment n)
           ∧ fullname t (lastSegment n) ≫= abbreviate t = Some (lastSegment n))
      ∧ (¬ unique_short names n → abbreviate t n = Some n).
Proof.
  intros r n Hn names Hplain.
  assert (Hin : n ∈ names) by (apply registeredNames_spec, Hn).
  exists (buildTables_plain names).
  split; [apply buildTables_plain_names, Hplain|].
  destruct (buildTables_round_trips names n (registeredNames_NoDup r) Hin)
    as (H1 & H2 & H3 & H4).
  repeat split; try assumption.
  - apply H3. assumption.
  - destruct (H3 H) as [Ha Hf]. rewrite Hf. exact Ha.
Qed.

(** The names of the [three_filters], none with a special short form. *)
Lemma three_filters_names :
  registeredNames three_filters
  = ["results.method.simulation.gw.type";
     "results.material.n_elements";
     "results.properties.electronic.band_structure_electronic.band_gap.type"].
Proof. vm_compute. reflexivity. Qed.

(** The theorem at [results.material.n_elements] among the
    [three_filters]. *)
Lemma abbreviation_round_trips_n_elements :
  let n := "results.material.n_elements" in
  ∃ t, buildTables (registeredNames three_filters) = Some t
       ∧ abbreviate t n ≫= fullname t = Some n ∧ fullname t n = Some n.
Proof.
  pose proof (abbreviation_round_trips three_filters
                "results.material.n_elements") as H.
  cbv zeta in H |- *. destruct H as (t & Ht & H1 & H2 & _).
  - exists emptyData. vm_compute. reflexivity.
  - intros m Hm. vm_compute in Hm.
    repeat (apply elem_of_cons in Hm as [->|Hm]; [apply (bool_decide_unpack _); vm_compute; exact I|]).
    apply elem_of_nil in Hm. destruct Hm.
  - exists t. split; [exact Ht|]. split; [exact H1|exact H2].
Defined.

(** C6 as stated fails: [results.material.n_elements] is registered and
    its short form is unique, and the abbreviation of its full name is
    the short form [n_elements], not the name. *)
Lemma abbreviation_of_fullname_is_short :
  let n := "results.material.n_elements" in
  let names := registeredNames three_filters in
  is_Some (filterData three_filters !! n)
  ∧ unique_short names n
  ∧ ∃ t, buildTables names = Some t
         ∧ fullname t n ≫= abbreviate t = Some "n_elements"
         ∧ fullname t n ≫= abbreviate t ≠ Some n.
Proof.
  cbv zeta. split; [exists emptyData; vm_compute; reflexivity|]. split.
  - rewrite three_filters_names. intros m Hm Hshort.
    apply elem_of_cons in Hm as [->|Hm];
      [vm_compute in Hshort; discriminate|].
    apply elem_of_cons in Hm as [->|Hm]; [reflexivity|].
    apply list_elem_of_singleton in Hm as ->.
    vm_compute in Hshort. discriminate.
  - destruct (buildTables (registeredNames three_filters)) as [t|] eqn:Et;
      [|vm_compute in Et; discriminate].
    exists t. split; [reflexivity|].
    assert (E : fullname t "results.material.n_elements" ≫= abbreviate t
                = Some "n_elements").
    { assert (Ht : Some t = buildTables (registeredNames three_filters))
        by (symmetry; exact Et).
      vm_compute in Ht. injection Ht as ->. vm_compute. reflexivity. }
    rewrite E. split; [reflexivity|discriminate].
Qed.

(** A short form that is a key of [Object.prototype] is never counted as
    occurring once: [results.method.constructor], the only registered
    name, stays its own abbreviation. *)
Lemma constructor_not_abbreviated :
  ∃ t, buildTables (registeredNames constructor_filter) = Some t
       ∧ abbreviate t "results.method.constructor"
         = Some "results.method.constructor"
       ∧ fullname t "constructor" = None.
Proof. eexists. split; [vm_compute; reflexivity|]. split; vm_compute; reflexivity. Qed.

(** ** The search bar: the matcher *)

(** [append] does not unfold under [simpl]: its two equations. *)
Lemma append_String c (s1 s2 : string) : String c s1 ++ s2 = String c (s1 ++ s2).
Proof. reflexivity. Qed.

Lemma append_Empty (s : string) : "" ++ s = s.
Proof. reflexivity. Qed.

Lemma length_append (s1 s2 : string) :
  String.length (s1 ++ s2) = (String.length s1 + String.length s2)%nat.
Proof.
  induction s1 as [|c s1 IH]; [reflexivity|].
  rewrite append_String. simpl. f_equal. exact IH.
Qed.

Lemma append_empty_r (s : string) : s ++ "" = s.
Proof.
  induction s as [|c s IH]; [reflexivity|].
  rewrite append_String. f_equal. exact IH.
Qed.

Lemma append_assoc (s1 s2 s3 : string) : (s1 ++ s2) ++ s3 = s1 ++ (s2 ++ s3).
Proof.
  induction s1 as [|c s1 IH]; [reflexivity|].
  rewrite !append_String. f_equal. exact IH.
Qed.

(** The capture of a group that started at [w ++ s] and stopped at [s]. *)
Lemma substring_consumed (w s : string) :
  substring 0 (String.length (w ++ s) - String.length s) (w ++ s) = w.
Proof.
  rewrite length_append. replace (_ + _ - _)%nat with (String.length w) by lia.
  induction w as [|c w IH].
  - rewrite append_Empty. destruct s; reflexivity.
  - rewrite append_String. simpl. f_equal. exact IH.
Qed.

Lemma all_chars_app p (s1 s2 : string) :
  all_chars p (s1 ++ s2) = all_chars p s1 && all_chars p s2.
Proof.
  induction s1 as [|c s1 IH]; [reflexivity|].
  rewrite append_String. simpl. rewrite IH, andb_assoc. reflexivity.
Qed.

Lemma all_chars_impl (p q : ascii → bool) (s : string) :
  (∀ c, p c = true → q c = true) → all_chars p s = true → all_chars q s = true.
Proof.
  intros Hpq. induction s as [|c s IH]; cbn; [reflexivity|].
  intros [Hc Hs]%andb_prop. rewrite (Hpq c Hc), (IH Hs). reflexivity.
Qed.

Lemma suffix_inv s' c s : suffix s' (String c s) → s' = String c s ∨ suffix s' s.
Proof. inversion 1; subst; auto. Qed.

Lemma suffix_empty s' : suffix s' "" → s' = "".
Proof. inversion 1. reflexivity. Qed.

Lemma suffix_trans s1 s2 s3 : suffix s1 s2 → suffix s2 s3 → suffix s1 s3.
Proof. intros H12 H23. induction H23; [assumption|]. constructor. assumption. Qed.

Lemma suffix_tail c s' s : suffix (String c s') s → suffix s' s.
Proof. intros H. eapply suffix_trans; [|exact H]. constructor. constructor. Qed.

Lemma all_chars_suffix p s' s :
  suffix s' s → all_chars p s = true → all_chars p s' = true.
Proof.
  induction 1 as [|c s Hs IH]; [auto|]. cbn. intros [_ H]%andb_prop. auto.
Qed.

(** The head of a string with all characters in [p] is in [p]. *)
Lemma all_chars_head p c s : all_chars p (String c s) = true → p c = true.
Proof. cbn. intros [H _]%andb_prop. exact H. Qed.

Lemma non_space_dot c : non_space c = true → dot c = true.
Proof.
  unfold non_space, is_space, dot.
  destruct (N_of_ascii c) as [|p]; [reflexivity|].
  do 8 (destruct p as [p|p|]; try reflexivity; try discriminate).
Qed.

Lemma is_word_char_non_space c : is_word_char c = true → non_space c = true.
Proof.
  unfold is_word_char. intros H.
  repeat (apply andb_prop in H as [H _]). exact H.
Qed.

Lemma is_word_char_no_op c : is_word_char c = true → starts_op c = false.
Proof.
  unfold is_word_char, starts_op. intros H.
  apply andb_prop in H as [H Hgt]. apply andb_prop in H as [H Hlt].
  apply negb_true_iff in Hgt, Hlt. rewrite Hgt, Hlt. reflexivity.
Qed.

Lemma is_word_char_no_equals c : is_word_char c = true → Ascii.eqb "=" c = false.
Proof.
  unfold is_word_char. intros H.
  apply andb_prop in H as [H _]. apply andb_prop in H as [H _].
  apply andb_prop in H as [_ H]. apply negb_true_iff in H. exact H.
Qed.

(** A token is a character followed by token characters. *)
Lemma is_word_inv s :
  is_word s = true →
  ∃ c s', s = String c s' ∧ is_word_char c = true
          ∧ all_chars is_word_char s' = true.
Proof.
  unfold is_word. destruct s as [|c s']; [discriminate|]. cbn.
  intros [Hc Hs]%andb_prop. eauto.
Qed.

Lemma ends_non_space_word s :
  s ≠ "" → all_chars non_space s = true → ends_non_space s = true.
Proof.
  induction s as [|c s IH]; [congruence|]. intros _. cbn.
  intros [Hc Hs]%andb_prop. destruct s as [|c' s]; [exact Hc|].
  apply IH; [discriminate|exact Hs].
Qed.

Lemma ends_non_space_app (s1 : string) c (s2 : string) :
  ends_non_space (s1 ++ String c s2) = ends_non_space (String c s2).
Proof.
  induction s1 as [|a s1 IH]; [reflexivity|].
  rewrite append_String. simpl.
  destruct (s1 ++ String c s2) eqn:E; [|exact IH].
  destruct s1; discriminate.
Qed.

Section Star.
Context {A : Type}.

(** A loop stops where the next character is not in the class. *)
Lemma star_skip p (s : string) (k : string → option A) :
  match s with String c _ => p c = false | EmptyString => True end →
  star p s k = k s.
Proof. destruct s as [|c s]; cbn; [reflexivity|]. intros ->. reflexivity. Qed.

(** The continuation of a loop is called on suffixes of the input: the
    loop fails when the continuation fails on all of them. *)
Lemma star_fails p (s : string) (k : string → option A) :
  (∀ s', suffix s' s → k s' = None) → star p s k = None.
Proof.
  induction s as [|c s IH]; intros H; cbn.
  - apply H. constructor.
  - destruct (p c).
    + rewrite IH; [apply H; constructor|].
      intros s' Hs'. apply H. constructor. exact Hs'.
    + apply H. constructor.
Qed.

(** A loop gives the result of its longest iteration when that one
    succeeds. *)
Lemma star_cons_Some p c (s : string) (k : string → option A) v :
  p c = true → star p s k = Some v → star p (String c s) k = Some v.
Proof. intros Hc Hs. cbn. rewrite Hc, Hs. reflexivity. Qed.

End Star.

(** The group [(reString)], unfolded. *)
Lemma capture_reString_unfold c s captures k :
  run (Capture reString) (String c s) captures k
  = if non_space c
    then let k' s' :=
           k s' (captures
                 ++ [substring 0 (String.length (String c s) - String.length s')
                               (String c s)])%list in
         match star dot s (then_non_space k') with
         | Some x => Some x
         | None => k' s
         end
    else None.
Proof. reflexivity. Qed.

(** The group fails when what follows it fails on every suffix of the
    input. *)
Lemma capture_reString_fails s captures k :
  (∀ s' captures', suffix s' s → k s' captures' = None) →
  run (Capture reString) s captures k = None.
Proof.
  intros H. destruct s as [|c s]; [reflexivity|].
  rewrite capture_reString_unfold. destruct (non_space c); [|reflexivity].
  cbv zeta. rewrite star_fails.
  - apply H. constructor. constructor.
  - intros s' Hs'. destruct s' as [|c' s']; [reflexivity|]. cbn.
    destruct (non_space c'); [|reflexivity].
    apply H. constructor. eapply suffix_tail, Hs'.
Qed.

(** The scan of [.*\S] over [w ++ rest]: when what follows fails after
    every character of [rest], and succeeds at [rest], the scan stops at
    [rest]. *)
Lemma scan_to_rest {A} (w rest : string) (k : string → option A) v :
  all_chars dot w = true → ends_non_space w = true →
  (∀ c s, suffix (String c s) rest → non_space c = true → k s = None) →
  k rest = Some v →
  star dot (w ++ rest) (then_non_space k) = Some v.
Proof.
  intros Hdot Hend Hfail Hrest.
  induction w as [|c w IH]; [discriminate|].
  cbn in Hdot. apply andb_prop in Hdot as [Hc Hw].
  destruct w as [|c' w].
  - cbn in Hend. rewrite append_String, append_Empty. cbn. rewrite Hc.
    rewrite star_fails.
    + rewrite Hend. exact Hrest.
    + intros s' Hs'. destruct s' as [|c' s']; [reflexivity|]. cbn.
      destruct (non_space c') eqn:E; [|reflexivity]. eapply Hfail; eauto.
  - rewrite append_String. apply star_cons_Some; [exact Hc|].
    apply IH; assumption.
Qed.

(** The group [(reString)] captures the phrase [w] in front of [rest]
    under the same conditions. *)
Lemma capture_reString_phrase (w rest : string) captures k v :
  match w with String c _ => non_space c = true | EmptyString => False end →
  all_chars dot w = true → ends_non_space w = true →
  (∀ c s captures', suffix (String c s) rest → non_space c = true →
                    k s captures' = None) →
  k rest (captures ++ [w])%list = Some v →
  run (Capture reString) (w ++ rest) captures k = Some v.
Proof.
  intros Hhead Hdot Hend Hfail Hrest.
  destruct w as [|c w]; [destruct Hhead|].
  rewrite append_String, capture_reString_unfold, Hhead. cbv zeta.
  assert (Hcap : substring 0 (String.length (String c (w ++ rest))
                                - String.length rest) (String c (w ++ rest))
                 = String c w)
    by (rewrite <- append_String; apply substring_consumed).
  destruct w as [|c' w].
  - rewrite append_Empty in *. rewrite star_fails.
    + rewrite Hcap. exact Hrest.
    + intros s' Hs'. destruct s' as [|c' s']; [reflexivity|]. cbn.
      destruct (non_space c') eqn:E; [|reflexivity]. eapply Hfail; eauto.
  - rewrite (scan_to_rest (String c' w) rest _ v); auto.
    + cbn in Hdot. apply andb_prop in Hdot as [_ Hdot]. exact Hdot.
    + intros c'' s Hs Hc''. apply Hfail with c''; assumption.
    + rewrite Hcap. exact Hrest.
Qed.

(** *** The three patterns *)

Lemma exec_reEquals_unfold input :
  exec reEquals input
  = star is_space input (fun s1 =>
      run (Capture reString) s1 [] (fun s2 c2 =>
        star is_space s2 (fun s3 =>
          run (Char "=") s3 c2 (fun s4 c4 => last_group c4 s4)))).
Proof. reflexivity. Qed.

Lemma exec_reLtegte_unfold input :
  exec reLtegte input
  = star is_space input (fun s1 =>
      run (Capture reString) s1 [] (fun s2 c2 => op_and_group c2 s2)).
Proof. reflexivity. Qed.

Lemma exec_reLtegteSandwich_unfold input :
  exec reLtegteSandwich input
  = star is_space input (fun s1 =>
      run (Capture reString) s1 [] (fun s2 c2 =>
        star is_space s2 (fun s3 =>
          run reOp s3 c2 (fun s4 c4 =>
            star is_space s4 (fun s5 =>
              run (Capture reString) s5 c4 (fun s6 c6 => op_and_group c6 s6)))))).
Proof. reflexivity. Qed.

Lemma non_space_is_space c : non_space c = true → is_space c = false.
Proof. unfold non_space. apply negb_true_iff. Qed.

Lemma word_head c : is_word_char c = true → is_space c = false.
Proof. intros H. apply non_space_is_space, is_word_char_non_space, H. Qed.

(** The operator group on an input that does not start with [<] or [>]. *)
Lemma reOp_fails s captures k :
  match s with String c _ => starts_op c = false | EmptyString => True end →
  run reOp s captures k = None.
Proof.
  destruct s as [|c s]; [reflexivity|]. unfold starts_op.
  intros [Hlt Hgt]%orb_false_elim. cbn -[Ascii.eqb].
  rewrite Hlt, Hgt. reflexivity.
Qed.

(** The capture of a group that took one character. *)
Lemma substring_one c (s : string) :
  substring 0 (String.length (String c s) - String.length s) (String c s)
  = String c "".
Proof. apply (substring_consumed (String c "") s). Qed.

Lemma substring_two c c' (s : string) :
  substring 0 (String.length (String c (String c' s)) - String.length s)
            (String c (String c' s))
  = String c (String c' "").
Proof. apply (substring_consumed (String c (String c' "")) s). Qed.

Lemma reOp_lt s captures k :
  run reOp (String "<" s) captures k = k s (captures ++ ["<"])%list.
Proof.
  cbn -[substring String.length Nat.sub]. rewrite substring_one.
  destruct (k s _); reflexivity.
Qed.

Lemma reOp_gt s captures k :
  match s with String c _ => Ascii.eqb "=" c = false | EmptyString => True end →
  run reOp (String ">" s) captures k = k s (captures ++ [">"])%list.
Proof.
  intros H. cbn -[Ascii.eqb substring String.length Nat.sub].
  rewrite substring_one.
  destruct s as [|c s]; [reflexivity|]. rewrite H. reflexivity.
Qed.

(** The operator [>=] is taken whole when what follows it succeeds. *)
Lemma reOp_ge s captures k v :
  k s (captures ++ [">="])%list = Some v →
  run reOp (String ">" (String "=" s)) captures k = Some v.
Proof.
  intros H. cbn -[substring String.length Nat.sub].
  rewrite substring_two, H. reflexivity.
Qed.

(** The end of the patterns fails in front of anything but white space. *)
Lemma at_end_word captures c s :
  is_space c = false → at_end captures (String c s) = None.
Proof. intros H. unfold at_end. cbn. rewrite H. reflexivity. Qed.

(** The last group takes a token up to its end. *)
Lemma last_group_word captures y :
  is_word y = true → last_group captures (String " " y) = Some (captures ++ [y])%list.
Proof.
  intros (b & y' & -> & Hb & Hy')%is_word_inv. unfold last_group.
  apply star_cons_Some; [reflexivity|].
  rewrite star_skip by (simpl; apply word_head, Hb).
  rewrite <- (append_empty_r (String b y')) at 1.
  apply capture_reString_phrase.
  - apply is_word_char_non_space, Hb.
  - cbn. rewrite (non_space_dot b) by (apply is_word_char_non_space, Hb).
    apply (all_chars_impl is_word_char); [|exact Hy'].
    intros c Hc. apply non_space_dot, is_word_char_non_space, Hc.
  - apply ends_non_space_word; [discriminate|]. cbn.
    rewrite (is_word_char_non_space b Hb).
    apply (all_chars_impl is_word_char); [|exact Hy'].
    apply is_word_char_non_space.
  - intros c s captures' Hs. apply suffix_empty in Hs. discriminate.
  - reflexivity.
Qed.

(** It fails on an input that has a character after a token. *)
Lemma op_and_group_no_op captures s :
  all_chars (fun c => negb (starts_op c)) s = true →
  op_and_group captures s = None.
Proof.
  intros H. unfold op_and_group. apply star_fails. intros s' Hs'.
  apply reOp_fails. destruct s' as [|c s']; [exact I|].
  apply (all_chars_suffix _ _ _ Hs'), all_chars_head in H.
  apply negb_true_iff, H.
Qed.

Lemma word_no_op s :
  all_chars is_word_char s = true →
  all_chars (fun c => negb (starts_op c)) s = true.
Proof.
  apply all_chars_impl. intros c Hc. rewrite (is_word_char_no_op c Hc).
  reflexivity.
Qed.

Lemma word_no_equals s :
  all_chars is_word_char s = true →
  all_chars (fun c => negb (Ascii.eqb "=" c)) s = true.
Proof.
  apply all_chars_impl. intros c Hc. rewrite (is_word_char_no_equals c Hc).
  reflexivity.
Qed.

Lemma word_phrase c s :
  is_word_char c = true → all_chars is_word_char s = true →
  all_chars dot (String c s) = true ∧ ends_non_space (String c s) = true.
Proof.
  intros Hc Hs. split.
  - apply (all_chars_impl is_word_char).
    + intros c' Hc'. apply non_space_dot, is_word_char_non_space, Hc'.
    + cbn. rewrite Hc, Hs. reflexivity.
  - apply ends_non_space_word; [discriminate|].
    apply (all_chars_impl is_word_char); [apply is_word_char_non_space|].
    cbn. rewrite Hc, Hs. reflexivity.
Qed.

(** The single-bound pattern on a phrase (it starts and ends with a
    character that is not white space and has no line terminator), [<] or
    [>], and a token: the operator found is the last one. *)
Lemma exec_reLtegte_phrase w o y :
  match w with String c _ => non_space c = true | EmptyString => False end →
  all_chars dot w = true → ends_non_space w = true →
  is_word y = true → starts_op o = true →
  exec reLtegte (w ++ String " " (String o (String " " y)))
  = Some [w; String o ""; y].
Proof.
  intros Hhead Hdot Hend Hy Ho. pose proof Hy as Hy0.
  apply is_word_inv in Hy0 as (b & y' & Ey & Hb & Hy').
  rewrite exec_reLtegte_unfold.
  rewrite star_skip.
  2:{ destruct w as [|a w]; [destruct Hhead|]. rewrite append_String.
      apply non_space_is_space, Hhead. }
  assert (Hyop : all_chars (fun c => negb (starts_op c)) y = true).
  { rewrite Ey. apply word_no_op. cbn. rewrite Hb, Hy'. reflexivity. }
  apply capture_reString_phrase; try assumption.
  - intros c s captures' Hs Hc.
    apply suffix_inv in Hs as [Hs|Hs]; [injection Hs as -> _; discriminate|].
    apply suffix_inv in Hs as [Hs|Hs].
    { injection Hs as -> ->. apply op_and_group_no_op. exact Hyop. }
    apply suffix_inv in Hs as [Hs|Hs]; [injection Hs as -> _; discriminate|].
    apply op_and_group_no_op.
    apply (all_chars_suffix _ s y); [|exact Hyop].
    eapply suffix_tail, Hs.
  - unfold op_and_group. apply star_cons_Some; [reflexivity|].
    unfold starts_op in Ho. apply orb_prop in Ho as [Ho|Ho];
      apply Ascii.eqb_eq in Ho as <-.
    + rewrite star_skip by reflexivity. rewrite reOp_lt.
      rewrite (last_group_word _ y Hy). reflexivity.
    + rewrite star_skip by reflexivity. rewrite reOp_gt by reflexivity.
      rewrite (last_group_word _ y Hy). reflexivity.
Qed.

Lemma word_is_phrase x :
  is_word x = true →
  match x with String c _ => non_space c = true | EmptyString => False end
  ∧ all_chars dot x = true ∧ ends_non_space x = true.
Proof.
  intros (a & x' & -> & Ha & Hx')%is_word_inv.
  split; [apply is_word_char_non_space, Ha|]. apply word_phrase; assumption.
Qed.

(** The single-bound pattern on a token, [<] or [>], and a token. *)
Lemma exec_reLtegte_words x o y :
  is_word x = true → is_word y = true → starts_op o = true →
  exec reLtegte (x ++ String " " (String o (String " " y)))
  = Some [x; String o ""; y].
Proof.
  intros Hx Hy Ho. destruct (word_is_phrase x Hx) as (H1 & H2 & H3).
  apply exec_reLtegte_phrase; assumption.
Qed.

(** The equality pattern fails on an input without [=]. *)
Lemma exec_reEquals_no_equals input :
  all_chars (fun c => negb (Ascii.eqb "=" c)) input = true →
  exec reEquals input = None.
Proof.
  intros H. rewrite exec_reEquals_unfold. apply star_fails. intros s1 H1.
  apply capture_reString_fails. intros s2 c2 H2.
  apply star_fails. intros s3 H3.
  destruct s3 as [|c s3]; [reflexivity|].
  assert (Hc : negb (Ascii.eqb "=" c) = true).
  { apply (all_chars_head (fun c => negb (Ascii.eqb "=" c)) c s3),
      (all_chars_suffix _ _ input); [|exact H].
    eapply suffix_trans; [exact H3|]. eapply suffix_trans; eassumption. }
  apply negb_true_iff in Hc. cbn -[Ascii.eqb]. rewrite Hc. reflexivity.
Qed.

(** The equality pattern on a token, [<=] or [>=], and a token: the name
    is the token with the space and the [<] or [>]. *)
Lemma exec_reEquals_words x o y :
  is_word x = true → is_word y = true → starts_op o = true →
  exec reEquals (x ++ String " " (String o (String "=" (String " " y))))
  = Some [x ++ String " " (String o ""); y].
Proof.
  intros Hx Hy Ho. pose proof Hy as Hy0.
  apply is_word_inv in Hx as (a & x' & -> & Ha & Hx').
  apply is_word_inv in Hy0 as (b & y' & Ey & Hb & Hy').
  assert (Hsp : non_space o = true).
  { unfold starts_op in Ho. apply orb_prop in Ho as [Ho|Ho];
      apply Ascii.eqb_eq in Ho as <-; reflexivity. }
  rewrite exec_reEquals_unfold.
  rewrite append_String, star_skip by (simpl; apply word_head, Ha).
  replace (String a (x' ++ String " " (String o (String "=" (String " " y)))))
    with ((String a x' ++ String " " (String o "")) ++ String "=" (String " " y))
    by (rewrite append_assoc; reflexivity).
  destruct (word_phrase a x' Ha Hx') as [Hdot Hend].
  assert (Hyeq : all_chars (fun c => negb (Ascii.eqb "=" c)) y = true).
  { rewrite Ey. apply word_no_equals. cbn. rewrite Hb, Hy'. reflexivity. }
  apply capture_reString_phrase.
  - rewrite append_String. apply is_word_char_non_space, Ha.
  - rewrite all_chars_app, Hdot. cbn. rewrite (non_space_dot o Hsp). reflexivity.
  - rewrite ends_non_space_app. exact Hsp.
  - intros c s captures' Hs Hc.
    assert (Hno : all_chars (fun c => negb (Ascii.eqb "=" c)) s = true).
    { apply suffix_inv in Hs as [Hs|Hs]; [injection Hs as -> ->; exact Hyeq|].
      apply suffix_inv in Hs as [Hs|Hs]; [injection Hs as -> _; discriminate|].
      apply (all_chars_suffix _ s y); [|exact Hyeq]. eapply suffix_tail, Hs. }
    apply star_fails. intros s3 H3. destruct s3 as [|c3 s3]; [reflexivity|].
    apply (all_chars_suffix _ _ _ H3), all_chars_head, negb_true_iff in Hno.
    cbn -[Ascii.eqb]. rewrite Hno. reflexivity.
  - rewrite star_skip by reflexivity. cbn [run Char]. cbn [Ascii.eqb Bool.eqb].
    rewrite (last_group_word _ y Hy). reflexivity.
Qed.

(** An input that starts with a character that is not white space is not
    blank. *)
Lemma trim_not_blank c s :
  is_space c = false → (String.length (trim (String c s)) =? 0)%nat = false.
Proof.
  intros H. unfold trim. cbn [trimStart]. rewrite H. cbn [trimEnd].
  destruct (trimEnd s); [rewrite H|]; reflexivity.
Qed.

(** *** handleSubmit *)

Lemma op_cases op :
  op ∈ ["<"; ">"] → ∃ o, op = String o "" ∧ starts_op o = true.
Proof.
  intros [->|H]%elem_of_cons; [exists "<"%char; split; reflexivity|].
  apply list_elem_of_singleton in H as ->. exists ">"%char. split; reflexivity.
Qed.

Lemma starts_op_no_equals o : starts_op o = true → negb (Ascii.eqb "=" o) = true.
Proof.
  unfold starts_op. intros [H|H]%orb_prop; apply Ascii.eqb_eq in H as <-;
    reflexivity.
Qed.

Section HandleSubmit.
Variable searchQuantities : gmap string Quantity.
Variable quantities : list string.

(** A token, [<] or [>], and a token go to the branch of the simple
    query. *)
Lemma handleSubmit_single_bound x o y :
  is_word x = true → is_word y = true → starts_op o = true →
  handleSubmit searchQuantities quantities (single_bound x (String o "") y)
  = simpleQuery searchQuantities (list_to_set quantities) [x; String o ""; y].
Proof.
  intros Hx Hy Ho. unfold handleSubmit, single_bound.
  change (x ++ " " ++ String o "" ++ " " ++ y)
    with (x ++ String " " (String o (String " " y))).
  pose proof Hx as Hx0. pose proof Hy as Hy0.
  apply is_word_inv in Hx0 as (a & x' & Ex & Ha & Hx').
  apply is_word_inv in Hy0 as (b & y' & Ey & Hb & Hy').
  rewrite exec_reLtegte_words by assumption.
  rewrite exec_reEquals_no_equals.
  - rewrite Ex, append_String, trim_not_blank by (apply word_head, Ha).
    reflexivity.
  - rewrite all_chars_app. rewrite (word_no_equals x).
    + cbn -[Ascii.eqb]. rewrite (starts_op_no_equals o Ho).
      rewrite (word_no_equals y); [reflexivity|].
      rewrite Ey. cbn. rewrite Hb, Hy'. reflexivity.
    + rewrite Ex. cbn. rewrite Ha, Hx'. reflexivity.
Qed.

(** A token, [<=] or [>=], and a token go to the branch of the equality
    query. *)
Lemma handleSubmit_single_bound_equals x o y :
  is_word x = true → is_word y = true → starts_op o = true →
  handleSubmit searchQuantities quantities
    (single_bound x (String o "=") y)
  = equalityQuery searchQuantities (list_to_set quantities)
      [x ++ " " ++ String o ""; y].
Proof.
  intros Hx Hy Ho. unfold handleSubmit, single_bound.
  change (x ++ " " ++ String o "=" ++ " " ++ y)
    with (x ++ String " " (String o (String "=" (String " " y)))).
  pose proof Hx as Hx0.
  apply is_word_inv in Hx0 as (a & x' & Ex & Ha & Hx').
  rewrite exec_reEquals_words by assumption.
  rewrite Ex, append_String, trim_not_blank by (apply word_head, Ha).
  reflexivity.
Qed.

End HandleSubmit.

(** C5, as amended.  For tokens [x] and [y] (no white space, [=], [<] or
    [>] in them): when neither resolves to a filter of the search bar, the
    inputs [x < y] and [x > y] get the error "Unknown quantity name"; the
    inputs [x <= y] and [x >= y] are read as the equality of the name
    [x <] (or [x >]) and [y], and get the same error when that name does
    not resolve. *)
Theorem handleSubmit_unresolved_single_bound :
  ∀ (searchQuantities : gmap string Quantity) (quantities : list string)
    (x y : string),
    is_word x = true → is_word y = true →
    let resolves := resolve searchQuantities (list_to_set quantities) in
    (∀ op, op ∈ ["<"; ">"] → resolves x = None → resolves y = None →
       handleSubmit searchQuantities quantities (single_bound x op y)
       = SetError "Unknown quantity name")
    ∧ (∀ op, op ∈ ["<"; ">"] → resolves (x ++ " " ++ op) = None →
         handleSubmit searchQuantities quantities (single_bound x (op ++ "=") y)
         = SetError "Unknown quantity name").
Proof.
  intros sq quantities x y Hx Hy resolves. split.
  - intros op (o & -> & Ho)%op_cases Rx Ry.
    rewrite handleSubmit_single_bound by assumption.
    unfold simpleQuery. cbn -[resolve parseFloat check_numeric key_of opMap].
    unfold resolves in Rx, Ry. rewrite Rx, Ry. reflexivity.
  - intros op (o & -> & Ho)%op_cases Rx.
    change (String o "" ++ "=") with (String o "=").
    rewrite handleSubmit_single_bound_equals by assumption.
    unfold equalityQuery. cbn -[resolve].
    unfold resolves in Rx. rewrite Rx. reflexivity.
Qed.

(** The input ["a < foo"] of the specification. *)
Lemma handleSubmit_unresolved_a_foo :
  handleSubmit sample_quantities sample_filters (single_bound "a" "<" "foo")
  = SetError "Unknown quantity name".
Proof.
  apply (proj1 (handleSubmit_unresolved_single_bound sample_quantities
                  sample_filters "a" "foo" eq_refl eq_refl) "<").
  - left.
  - vm_compute. reflexivity.
  - vm_compute. reflexivity.
Defined.

(** C5 as stated fails: neither side of ["a < foo"] resolves, and the
    error is "Unknown quantity name", not "Invalid query". *)
Lemma handleSubmit_a_foo_not_invalid_query :
  let resolves := resolve sample_quantities (list_to_set sample_filters) in
  resolves "a" = None ∧ resolves "foo" = None
  ∧ handleSubmit sample_quantities sample_filters "a < foo"
    = SetError "Unknown quantity name"
  ∧ handleSubmit sample_quantities sample_filters "a < foo"
    ≠ SetError "Invalid query".
Proof.
  cbv zeta.
  assert (E : handleSubmit sample_quantities sample_filters "a < foo"
              = SetError "Unknown quantity name") by (vm_compute; reflexivity).
  rewrite E. repeat split; try (vm_compute; reflexivity). discriminate.
Qed.

(** C4, on the code.  In ["5 < n_elements"] the filter is on the right of
    the operator; the bound is stored under [lt], the key of the operator
    as written, not under [gt]. *)
Theorem handleSubmit_filter_on_right_not_reversed :
  handleSubmit sample_quantities sample_filters "5 < n_elements"
  = SetFilter "results.material.n_elements"
      (Range {[ "lt" := Decimal false 5 0 ]})
  ∧ handleSubmit sample_quantities sample_filters "5 > n_elements"
    = SetFilter "results.material.n_elements"
        (Range {[ "gt" := Decimal false 5 0 ]}).
Proof. split; vm_compute; reflexivity. Qed.

(** The same for every token [v] that reads as a number and every token
    [f] that resolves to a numeric filter: the key is [opMap[op]]. *)
Lemma handleSubmit_filter_on_right searchQuantities quantities v o f full type_data :
  is_word v = true → is_word f = true → starts_op o = true →
  resolve searchQuantities (list_to_set quantities) v = None →
  resolve searchQuantities (list_to_set quantities) f = Some full →
  isNaN (parseFloat v) = false →
  q_type_data <$> searchQuantities !! full = Some (TypeName type_data) →
  startsWith type_data "int" || startsWith type_data "float" = true →
  handleSubmit searchQuantities quantities (single_bound v (String o "") f)
  = SetFilter full (Range {[ key_of opMap (String o "") := parseFloat v ]}).
Proof.
  intros Hv Hf Ho Rv Rf Hnum Htype Hnumeric.
  rewrite handleSubmit_single_bound by assumption.
  unfold simpleQuery. cbn -[resolve parseFloat check_numeric key_of opMap].
  rewrite Rv, Rf. rewrite Hnum.
  unfold check_numeric. rewrite Htype.
  apply orb_prop in Hnumeric as [->| ->]; cbn; rewrite ?andb_false_r; reflexivity.
Qed.

(** C1, on the code.  The input ["3 < n_elements < 7"] matches the
    pattern of the simple query, with ["3 < n_elements"] on the left of
    the last operator: the branch of the sandwiched query, which would
    give [{gt: 3, lt: 7}], is not reached, and the error is "Unknown
    quantity name". *)
Theorem handleSubmit_sandwich_taken_as_simple :
  handleSubmit sample_quantities sample_filters "3 < n_elements < 7"
  = SetError "Unknown quantity name"
  ∧ exec reLtegte "3 < n_elements < 7" = Some ["3 < n_elements"; "<"; "7"]
  ∧ (exec reLtegteSandwich "3 < n_elements < 7" ≫= Some
     ∘ sandwichQuery sample_quantities (list_to_set sample_filters))
    = Some (SetFilter "results.material.n_elements"
              (Range {[ "gt" := Decimal false 3 0; "lt" := Decimal false 7 0 ]})).
Proof. repeat split; vm_compute; reflexivity. Qed.

(** The same for every sandwiched input made of tokens and of [<] and
    [>]: the simple query takes it, with the first bound and the name on
    the left of the second operator. *)
Lemma handleSubmit_sandwich searchQuantities quantities x o1 a o2 y :
  is_word x = true → is_word a = true → is_word y = true →
  starts_op o1 = true → starts_op o2 = true →
  handleSubmit searchQuantities quantities
    (x ++ String " " (String o1 (String " " a)) ++ String " " (String o2 (String " " y)))
  = simpleQuery searchQuantities (list_to_set quantities)
      [x ++ String " " (String o1 (String " " a)); String o2 ""; y].
Proof.
  intros Hx Ha Hy Ho1 Ho2. unfold handleSubmit.
  destruct (word_is_phrase x Hx) as (Hxh & Hxd & Hxe).
  destruct (word_is_phrase a Ha) as (Hah & Had & Hae).
  pose proof Hx as Hx0. pose proof Ha as Ha0. pose proof Hy as Hy0.
  apply is_word_inv in Hx0 as (cx & x' & Ex & Hcx & Hx').
  apply is_word_inv in Ha0 as (ca & a' & Ea & Hca & Ha').
  apply is_word_inv in Hy0 as (cy & y' & Ey & Hcy & Hy').
  assert (Ho1s : non_space o1 = true).
  { unfold starts_op in Ho1. apply orb_prop in Ho1 as [H|H];
      apply Ascii.eqb_eq in H as <-; reflexivity. }
  rewrite <- append_assoc.
  rewrite exec_reLtegte_phrase; try assumption.
  - rewrite exec_reEquals_no_equals.
    + rewrite Ex, !append_String, trim_not_blank by (apply word_head, Hcx).
      reflexivity.
    + rewrite !all_chars_app. rewrite (word_no_equals x).
      * cbn -[Ascii.eqb]. rewrite (starts_op_no_equals o1 Ho1).
        rewrite (starts_op_no_equals o2 Ho2).
        rewrite (word_no_equals a), (word_no_equals y); [reflexivity| |].
        -- rewrite Ey. cbn. rewrite Hcy, Hy'. reflexivity.
        -- rewrite Ea. cbn. rewrite Hca, Ha'. reflexivity.
      * rewrite Ex. cbn. rewrite Hcx, Hx'. reflexivity.
  - rewrite Ex, append_String. apply is_word_char_non_space, Hcx.
  - rewrite all_chars_app, Hxd. cbn. rewrite (non_space_dot o1 Ho1s), Had.
    reflexivity.
  - change (String " " (String o1 (String " " a)))
      with (String " " (String o1 " ") ++ a).
    rewrite <- append_assoc. rewrite Ea, ends_non_space_app. rewrite <- Ea.
    exact Hae.
Qed.

(** *** The sandwiched query is out of reach *)

(** The matcher finds only what the pattern can consume... *)
Lemma star_sound {A} p (s : string) (k : string → option A) v :
  star p s k = Some v → ∃ s', matches (Star p) s s' ∧ k s' = Some v.
Proof.
  induction s as [|c s IH]; cbn.
  - intros H. exists "". split; [constructor|exact H].
  - destruct (p c) eqn:Hc.
    + destruct (star p s k) as [x|] eqn:E.
      * intros [= ->]. destruct (IH eq_refl) as (s' & Hm & Hk).
        exists s'. split; [constructor; assumption|exact Hk].
      * intros H. exists (String c s). split; [constructor|exact H].
    + intros H. exists (String c s). split; [constructor|exact H].
Qed.

Lemma run_sound r : ∀ s captures k v,
  run r s captures k = Some v →
  ∃ s' captures', matches r s s' ∧ k s' captures' = Some v.
Proof.
  induction r as [p|p|r1 IH1 r2 IH2|r1 IH1 r2 IH2|r IH|r IH|];
    intros s captures k v; cbn [run].
  - destruct s as [|c s]; [discriminate|].
    destruct (p c) eqn:Hc; [|discriminate].
    intros H. exists s, captures. split; [constructor; exact Hc|exact H].
  - intros (s' & Hm & Hk)%star_sound. eauto.
  - intros (s1 & c1 & Hm1 & H)%IH1. apply IH2 in H as (s2 & c2 & Hm2 & Hk).
    exists s2, c2. split; [econstructor; eassumption|exact Hk].
  - destruct (run r1 s captures k) as [x|] eqn:E.
    + intros [= ->]. apply IH1 in E as (s' & c' & Hm & Hk).
      exists s', c'. split; [apply matches_Alt_l, Hm|exact Hk].
    + intros (s' & c' & Hm & Hk)%IH2.
      exists s', c'. split; [apply matches_Alt_r, Hm|exact Hk].
  - destruct (run r s captures k) as [x|] eqn:E.
    + intros [= ->]. apply IH in E as (s' & c' & Hm & Hk).
      exists s', c'. split; [apply matches_Opt_some, Hm|exact Hk].
    + intros H. exists s, captures. split; [apply matches_Opt_none|exact H].
  - intros (s' & c' & Hm & Hk)%IH. eexists s', _.
    split; [constructor; exact Hm|exact Hk].
  - destruct s; [|discriminate]. intros H.
    exists "", captures. split; [constructor|exact H].
Qed.

(** ... and finds a match whenever the pattern can consume something
    after which the rest succeeds. *)
Lemma run_complete r s s' :
  matches r s s' →
  ∀ captures k, (∀ captures', is_Some (k s' captures')) →
                is_Some (run r s captures k).
Proof.
  induction 1 as [p c s Hc|p s|p c s s' Hc Hm IH|r1 r2 s s' s'' H1 IH1 H2 IH2
                  |r1 r2 s s' H IH|r1 r2 s s' H IH|r s s' H IH|r s|r s s' H IH|];
    intros captures k Hk; cbn [run].
  - rewrite Hc. apply Hk.
  - destruct s as [|c s]; cbn; [apply Hk|].
    destruct (p c); [|apply Hk].
    destruct (star p s _); [eauto|apply Hk].
  - cbn. rewrite Hc.
    destruct (IH captures k Hk) as [v Hv]. cbn [run] in Hv. rewrite Hv. eauto.
  - apply IH1. intros c1. apply IH2, Hk.
  - destruct (IH captures k Hk) as [v ->]. eauto.
  - destruct (run r1 s captures k); [eauto|]. apply IH, Hk.
  - destruct (IH captures k Hk) as [v ->]. eauto.
  - destruct (run r s captures k); [eauto|]. apply Hk.
  - apply IH. intros c'. apply Hk.
  - apply Hk.
Qed.

(** What is left by a pattern is a suffix of its input. *)
Lemma matches_suffix r s s' : matches r s s' → suffix s' s.
Proof.
  induction 1; try (constructor; fail); try assumption.
  - constructor. constructor.
  - constructor. assumption.
  - eapply suffix_trans; eassumption.
Qed.

(** On an input without line terminator, [.*] reaches every suffix. *)
Lemma matches_dots s s' :
  suffix s' s → all_chars dot s = true → matches (Star dot) s s'.
Proof.
  induction 1 as [|c s Hs IH]; [constructor|].
  cbn. intros [Hc Hdot]%andb_prop. constructor; auto.
Qed.

Lemma matches_Seq_inv r1 r2 s s'' :
  matches (Seq r1 r2) s s'' → ∃ s', matches r1 s s' ∧ matches r2 s' s''.
Proof. inversion 1; subst; eauto. Qed.

Lemma matches_Class_inv p s s' :
  matches (Class p) s s' → ∃ c, s = String c s' ∧ p c = true.
Proof. inversion 1; subst; eauto. Qed.

Lemma matches_Opt_inv r s s' : matches (Opt r) s s' → matches r s s' ∨ s' = s.
Proof. inversion 1; subst; eauto. Qed.

Lemma matches_Capture_inv r s s' : matches (Capture r) s s' → matches r s s'.
Proof. inversion 1; subst; eauto. Qed.

Lemma matches_reString_inv s s' :
  matches (Capture reString) s s' →
  ∃ c t, s = String c t ∧ non_space c = true
         ∧ (s' = t ∨ ∃ c', non_space c' = true ∧ suffix (String c' s') t).
Proof.
  intros (t & (c & -> & Hc)%matches_Class_inv & Ho)%matches_Capture_inv%matches_Seq_inv.
  exists c, t. repeat split; [exact Hc|].
  apply matches_Opt_inv in Ho as [Hb| ->]; [right|left; reflexivity].
  apply matches_Seq_inv in Hb as (u & Hd & (c' & -> & Hc')%matches_Class_inv).
  exists c'. split; [exact Hc'|]. apply (matches_suffix _ _ _ Hd).
Qed.

Lemma matches_reString_intro c t c' s' :
  non_space c = true → non_space c' = true →
  suffix (String c' s') t → all_chars dot t = true →
  matches (Capture reString) (String c t) s'.
Proof.
  intros Hc Hc' Hs Hdot. constructor. unfold reString.
  apply matches_Seq with t; [constructor; exact Hc|].
  apply matches_Opt_some. apply matches_Seq with (String c' s').
  - apply matches_dots; assumption.
  - constructor. exact Hc'.
Qed.

(** The patterns, as a first group and what follows it. *)
Lemma reLtegte_split :
  reLtegte = Seq (Star is_space) (Seq (Capture reString) reTail).
Proof. reflexivity. Qed.

Lemma reLtegteSandwich_split :
  reLtegteSandwich
  = Seq (Star is_space)
        (Seq (Capture reString)
             (Seq (Star is_space)
                  (Seq reOp (Seq (Star is_space) (Seq (Capture reString) reTail))))).
Proof. reflexivity. Qed.

(** On an input without line terminator, whatever the pattern of the
    sandwiched query matches, the pattern of the simple query matches
    too, with everything up to the second operator as its first group. *)
Lemma sandwich_shadowed input :
  all_chars dot input = true →
  is_Some (exec reLtegteSandwich input) → is_Some (exec reLtegte input).
Proof.
  intros Hdot [v Hv]. unfold exec in *.
  apply run_sound in Hv as (s' & c' & Hm & _).
  rewrite reLtegteSandwich_split in Hm. rewrite reLtegte_split.
  apply matches_Seq_inv in Hm as (s1 & Hsp0 & Hm).
  apply matches_Seq_inv in Hm as (s2 & Hg1 & Hm).
  apply matches_Seq_inv in Hm as (s3 & Hsp1 & Hm).
  apply matches_Seq_inv in Hm as (s4 & Hop1 & Hm).
  apply matches_Seq_inv in Hm as (s5 & Hsp2 & Hm).
  apply matches_Seq_inv in Hm as (s6 & Hg2 & Htail).
  apply run_complete with s'; [|intros; eexists; reflexivity].
  apply matches_Seq with s1; [exact Hsp0|].
  apply matches_Seq with s6; [|exact Htail].
  assert (Hdot1 : all_chars dot s1 = true)
    by (apply (all_chars_suffix _ _ input); [eapply matches_suffix, Hsp0|exact Hdot]).
  destruct (matches_reString_inv _ _ Hg1) as (c & t & -> & Hc & Hs2).
  destruct (matches_reString_inv _ _ Hg2) as (c5 & t5 & -> & Hc5 & Hs6).
  assert (Hs2t : suffix s2 t).
  { destruct Hs2 as [->|(c2 & _ & Hs)]; [constructor|].
    eapply suffix_tail, Hs. }
  assert (Hs5t : suffix (String c5 t5) t).
  { eapply suffix_trans; [|exact Hs2t].
    eapply suffix_trans; [|eapply matches_suffix, Hsp1].
    eapply suffix_trans; [|eapply matches_suffix, Hop1].
    eapply matches_suffix, Hsp2. }
  cbn in Hdot1. apply andb_prop in Hdot1 as [_ Hdott].
  destruct Hs6 as [->|(c6 & Hc6 & Hs)].
  - apply matches_reString_intro with c5; assumption.
  - apply matches_reString_intro with c6; try assumption.
    eapply suffix_trans; [exact Hs|].
    eapply suffix_trans; [|exact Hs5t]. constructor. constructor.
Qed.

(** So [handleSubmit] never takes the branch of the sandwiched query for
    an input without line terminator. *)
Lemma handleSubmit_without_sandwich searchQuantities quantities inputValue :
  all_chars dot inputValue = true →
  handleSubmit searchQuantities quantities inputValue
  = if (String.length (trim inputValue) =? 0)%nat then Ignored
    else match exec reEquals inputValue with
         | Some equals =>
             equalityQuery searchQuantities (list_to_set quantities) equals
         | None =>
             match exec reLtegte inputValue with
             | Some ltegte =>
                 simpleQuery searchQuantities (list_to_set quantities) ltegte
             | None => SetError "Invalid query"
             end
         end.
Proof.
  intros Hdot. unfold handleSubmit.
  destruct (_ =? _)%nat; [reflexivity|].
  destruct (exec reEquals inputValue); [reflexivity|].
  destruct (exec reLtegte inputValue) as [ltegte|] eqn:E; [reflexivity|].
  destruct (exec reLtegteSandwich inputValue) as [sandwich|] eqn:E';
    [|reflexivity].
  destruct (sandwich_shadowed inputValue Hdot) as [ltegte Hl];
    [eauto|congruence].
Qed.

(** The simple query sets one bound. *)
Lemma simpleQuery_one_bound searchQuantities quantitySet ltegte name bounds :
  simpleQuery searchQuantities quantitySet ltegte = SetFilter name (Range bounds) →
  size bounds = 1%nat.
Proof.
  unfold simpleQuery, check_numeric.
  repeat (match goal with
          | |- context [match ?x with _ => _ end] => destruct x eqn:?
          end; try discriminate);
    intros [= <- <-]; rewrite insert_empty; apply map_size_singleton.
Qed.

(** No input without line terminator gives a range with two bounds. *)
Lemma handleSubmit_one_bound searchQuantities quantities inputValue name bounds :
  all_chars dot inputValue = true →
  handleSubmit searchQuantities quantities inputValue
  = SetFilter name (Range bounds) →
  size bounds = 1%nat.
Proof.
  intros Hdot. rewrite handleSubmit_without_sandwich by exact Hdot.
  destruct (_ =? _)%nat; [discriminate|].
  destruct (exec reEquals inputValue).
  - unfold equalityQuery. destruct (resolve _ _ _); discriminate.
  - destruct (exec reLtegte inputValue); [|discriminate].
    apply simpleQuery_one_bound.
Qed.

(** ** The search store and late responses *)

Section StaleResponses.
Variable Params : Type.
Variable Response : Type.
Context `{EqDecision Params}.


(** A response whose parameters are the current ones is displayed. *)
Lemma step_current (s : SearchStore.Store Params Response) response :
  SearchStore.visible
    (SearchStore.step s (SearchStore.Arrive (SearchStore.current s) response))
  = Some (SearchStore.current s, response).
Proof. cbn. rewrite decide_True by reflexivity. reflexivity. Qed.

(** A history in two parts. *)
Lemma run_app (s : SearchStore.Store Params Response) events1 events2 :
  SearchStore.run s (events1 ++ events2)%list
  = SearchStore.run (SearchStore.run s events1) events2.
Proof. apply foldl_app. Qed.

(** After a fetch its parameters are the current ones. *)
Lemma run_fetch (s : SearchStore.Store Params Response) events params :
  SearchStore.current (SearchStore.run s (events ++ [SearchStore.Fetch params])%list)
  = params.
Proof. rewrite run_app. reflexivity. Qed.


End StaleResponses.



(** A fetch after R2 brings the parameters of R1 back: the response of
    R1 that arrives then is displayed, as the response of the last fetch
    would be.  The amended claim has no fetch after R2. *)
Lemma late_response_after_refetch :
  SearchStore.visible
    (SearchStore.run (SearchStore.mkStore 0%nat None)
       [SearchStore.Fetch 1%nat; SearchStore.Fetch 2%nat;
        SearchStore.Arrive 2%nat 20%nat; SearchStore.Fetch 1%nat;
        SearchStore.Arrive 1%nat 10%nat])
  = Some (1%nat, 10%nat).
Proof. reflexivity. Qed.


(** ** Datatable.js: selection, load more, page and columns *)

Section SelectionToggle.
Variable Row : Type.
Variable entry_id : Row → string.

Lemma indexOf_None ids x : indexOf ids x = None ↔ x ∉ ids.
Proof.
  induction ids as [|y ids IH]; cbn.
  - split; [intros _ H%elem_of_nil; exact H|reflexivity].
  - destruct (String.eqb_spec y x) as [->|Hne].
    + split; [discriminate|]. intros H. destruct H. left.
    + rewrite not_elem_of_cons, <- IH.
      destruct (indexOf ids x); cbn; split; try discriminate; intuition congruence.
Qed.

(** The index found is the first one that holds the value. *)
Lemma indexOf_Some ids x i :
  indexOf ids x = Some i →
  ids !! i = Some x ∧ x ∉ take i ids.
Proof.
  revert i. induction ids as [|y ids IH]; intros i; cbn; [discriminate|].
  destruct (String.eqb_spec y x) as [->|Hne].
  - intros [= <-]. split; [reflexivity|]. cbn. apply not_elem_of_nil.
  - destruct (indexOf ids x) as [j|]; [|discriminate]. intros [= <-].
    destruct (IH j eq_refl) as [Hj Hpre]. split; [exact Hj|].
    cbn. apply not_elem_of_cons. split; [congruence|exact Hpre].
Qed.

Lemma indexOf_app_new ids x :
  x ∉ ids → indexOf (ids ++ [x])%list x = Some (length ids).
Proof.
  induction ids as [|y ids IH]; cbn.
  - intros _. rewrite String.eqb_refl. reflexivity.
  - intros [Hne Hx]%not_elem_of_cons.
    destruct (String.eqb_spec y x) as [->|_]; [congruence|].
    rewrite (IH Hx). reflexivity.
Qed.

(** The rows left when the row at [i] is cut out. *)
Lemma cut_out_ids (rows : list Row) i :
  map entry_id (take i rows ++ drop (i + 1) rows)%list
  = (take i (map entry_id rows) ++ drop (i + 1) (map entry_id rows))%list.
Proof.
  rewrite map_app. change (map entry_id) with (fmap (M := list) entry_id).
  rewrite fmap_take, fmap_drop. reflexivity.
Qed.

End SelectionToggle.

(** X1.  A click on a row whose [entry_id] is not selected, followed by a
    second click on it, gives back the selection as it was. *)
Theorem handleSelect_twice :
  ∀ (Row : Type) (entry_id : Row → string) (r : Row) (rows : list Row),
    entry_id r ∉ map entry_id rows →
    handleSelect entry_id r
      (SelectedRows (handleSelect entry_id r (SelectedRows rows)))
    = rows.
Proof.
  intros Row entry_id r rows Hnew. cbn.
  rewrite (proj2 (indexOf_None _ _) Hnew). cbn.
  rewrite map_app. cbn. rewrite indexOf_app_new by exact Hnew.
  rewrite length_map. unfold slice_to, slice_from.
  rewrite take_app_length.
  rewrite drop_app_ge by lia.
  replace (length rows + 1 - length rows)%nat with 1%nat by lia.
  cbn. apply app_nil_r.
Qed.

(** The theorem on a selection of one row. *)
Lemma handleSelect_twice_example :
  handleSelect (fun r : string => r) "b"
    (SelectedRows (handleSelect (fun r : string => r) "b" (SelectedRows ["a"])))
  = ["a"].
Proof.
  apply (handleSelect_twice string (fun r => r) "b" ["a"]).
  intros [H|H]%elem_of_cons; [discriminate|]. apply elem_of_nil in H. exact H.
Defined.

(** X2.  When the selected rows have distinct [entry_id]s, a click on a
    row flips the selection of its [entry_id] and of no other, and the
    [entry_id]s stay distinct. *)
Theorem handleSelect_flips :
  ∀ (Row : Type) (entry_id : Row → string) (r : Row) (rows : list Row),
    NoDup (map entry_id rows) →
    let ids := map entry_id rows in
    let ids' := map entry_id (handleSelect entry_id r (SelectedRows rows)) in
    NoDup ids'
    ∧ (entry_id r ∈ ids' ↔ entry_id r ∉ ids)
    ∧ (∀ x, x ≠ entry_id r → (x ∈ ids' ↔ x ∈ ids)).
Proof.
  intros Row entry_id r rows Hnd ids ids'. subst ids ids'. cbn.
  destruct (indexOf (map entry_id rows) (entry_id r)) as [i|] eqn:E.
  - apply indexOf_Some in E as [Hi Hpre]. unfold slice_to, slice_from.
    rewrite cut_out_ids.
    assert (Hsplit : map entry_id rows
                     = (take i (map entry_id rows)
                        ++ entry_id r :: drop (S i) (map entry_id rows))%list).
    { rewrite <- (take_drop_middle _ _ _ Hi) at 1. reflexivity. }
    rewrite Hsplit in Hnd.
    apply NoDup_app in Hnd as (Hnd1 & Hdisj & Hnd2).
    apply NoDup_cons in Hnd2 as [Hr Hnd2].
    replace (i + 1)%nat with (S i) by lia.
    split; [|split].
    + apply NoDup_app. repeat split; [exact Hnd1| |exact Hnd2].
      intros x Hx Hx'. apply (Hdisj x Hx). right. exact Hx'.
    + split.
      * intros [H|H]%elem_of_app; contradiction.
      * intros H. exfalso. apply H. eapply list_elem_of_lookup_2, Hi.
    + intros x Hx. rewrite Hsplit at 3.
      rewrite !elem_of_app, elem_of_cons. intuition congruence.
  - apply indexOf_None in E. split; [|split].
    + rewrite map_app. cbn. apply NoDup_app. repeat split; [exact Hnd| |].
      * intros x Hx [->|H]%elem_of_cons; [contradiction|].
        apply elem_of_nil in H. exact H.
      * apply NoDup_singleton.
    + rewrite map_app. cbn. split; [intros _; exact E|].
      intros _. apply elem_of_app. right. left.
    + intros x Hx. rewrite map_app. cbn. rewrite elem_of_app, list_elem_of_singleton.
      intuition congruence.
Qed.

Lemma handleSelect_flips_example :
  "a" ∉ map (fun r : string => r)
          (handleSelect (fun r : string => r) "a" (SelectedRows ["a"; "b"])).
Proof.
  pose proof (handleSelect_flips string (fun r => r) "a" ["a"; "b"]) as H.
  cbv zeta in H. destruct H as (_ & H & _).
  - apply NoDup_cons. split.
    + intros [E|E]%elem_of_cons; [discriminate|]. apply elem_of_nil in E. exact E.
    + apply NoDup_singleton.
  - intros Hin. apply H in Hin. apply Hin. left.
Defined.
Lemma strict_eq_refl v : truthy v = true → Table.strict_eq v v = true.
Proof.
  destruct v; cbn; try discriminate; intros _; apply bool_decide_eq_true;
    reflexivity.
Qed.

Lemma strict_eq_sym a b : Table.strict_eq a b = Table.strict_eq b a.
Proof.
  unfold Table.strict_eq.
  destruct a, b; try reflexivity; apply bool_decide_ext; split; congruence.
Qed.

(** X3.  After the request for more rows ([handleLoadMore] of the
    infinite scroll, [handleClick] of the button) the button is not
    rendered: the pagination shows progress, or nothing when there is no
    next value.  [handleLoadMore] changes nothing when it is called
    again. *)
Theorem load_more_once :
  ∀ pagination : Combined,
    Table.loadMoreView (Table.handleLoadMore pagination) ≠ Table.LoadMoreButton
    ∧ Table.loadMoreView (Table.handleClick pagination) ≠ Table.LoadMoreButton
    ∧ Table.handleLoadMore (Table.handleLoadMore pagination)
      = Table.handleLoadMore pagination.
Proof.
  intros p.
  assert (Hview : ∀ v, Table.loadMoreView (Table.with_page_after_value v p)
                       = if truthy (Table.prop (next_page_after_value p))
                         then if Table.strict_eq v (Table.prop (next_page_after_value p))
                              then Table.Progress else Table.LoadMoreButton
                         else Table.Nothing) by reflexivity.
  assert (Hagain : ∀ v, Table.handleLoadMore (Table.with_page_after_value v p)
                        = if truthy (Table.prop (next_page_after_value p))
                             && negb (Table.strict_eq v (Table.prop (next_page_after_value p)))
                          then Table.with_page_after_value
                                 (Table.prop (next_page_after_value p))
                                 (Table.with_page_after_value v p)
                          else Table.with_page_after_value v p) by reflexivity.
  unfold Table.handleClick. rewrite Hview.
  unfold Table.handleLoadMore at 1 3 4.
  destruct (truthy (Table.prop (next_page_after_value p))) eqn:Hnext.
  - rewrite (strict_eq_refl _ Hnext).
    destruct (Table.strict_eq (Table.prop (page_after_value p))
                (Table.prop (next_page_after_value p))) eqn:Heq; cbn [andb negb].
    + unfold Table.loadMoreView, Table.handleLoadMore. cbv zeta.
      rewrite Hnext, Heq. repeat split; discriminate.
    + rewrite Hview, Hagain, (strict_eq_refl _ Hnext).
      repeat split; discriminate.
  - cbn [andb]. unfold Table.loadMoreView, Table.handleLoadMore. cbv zeta.
    rewrite Hnext. repeat split; discriminate.
Qed.

(** X4.  The two extending paginations agree: the scroll pagination
    renders its progress line exactly when the load-more pagination
    renders the progress circle. *)
Theorem scroll_progress_iff :
  ∀ pagination : Combined,
    Table.scrollProgress pagination = true
    ↔ Table.loadMoreView pagination = Table.Progress.
Proof.
  intros p. unfold Table.scrollProgress, Table.loadMoreView.
  rewrite (strict_eq_sym (Table.prop (next_page_after_value p))).
  destruct (truthy _), (Table.strict_eq _ _); cbn; split; congruence.
Qed.

(** X5.  With pages (the list does not extend) and a [page_size] that is
    not negative, the rows rendered and the empty rows that fill the page
    make [page_size] together, and the rows rendered are the last rows of
    the data. *)
Theorem page_is_filled :
  ∀ (Row : Type) (page_size : Z) (data : list Row),
    (0 ≤ page_size)%Z →
    let shown := Table.dataToShow false page_size data in
    (Z.of_nat (length shown) + Table.emptyRows page_size data = page_size)%Z
    ∧ (Z.of_nat (length shown) = Z.min page_size (Z.of_nat (length data)))%Z
    ∧ ∃ before, data = (before ++ shown)%list.
Proof.
  intros Row page_size data Hpos shown. subst shown.
  unfold Table.dataToShow, Table.emptyRows.
  split; [|split].
  - rewrite length_drop. destruct (Z.ltb_spec (Z.of_nat (length data)) page_size); lia.
  - rewrite length_drop. destruct (Z.ltb_spec (Z.of_nat (length data)) page_size); lia.
  - eexists. symmetry. apply take_drop.
Qed.

Lemma page_is_filled_example :
  Table.dataToShow false 2 ["a"; "b"; "c"] = ["b"; "c"]
  ∧ (Z.of_nat (length (Table.dataToShow false 2 ["a"; "b"; "c"]))
     + Table.emptyRows 2 ["a"; "b"; "c"] = 2)%Z.
Proof.
  split; [reflexivity|].
  apply (page_is_filled string 2 ["a"; "b"; "c"]). lia.
Defined.

Lemma filter_ext_in {A} (P Q : A → Prop) `{∀ x, Decision (P x)}
    `{∀ x, Decision (Q x)} (l : list A) :
  (∀ x, x ∈ l → (P x ↔ Q x)) → filter P l = filter Q l.
Proof.
  induction l as [|c l IH]; intros Hext; [reflexivity|].
  rewrite !filter_cons.
  assert (Hc : P c ↔ Q c) by (apply Hext; left).
  rewrite IH by (intros x Hx; apply Hext; right; exact Hx).
  destruct (decide (P c)), (decide (Q c)); tauto || reflexivity.
Qed.

(** With distinct elements, cutting out the element at [i] removes it and
    nothing else. *)
Lemma cut_out_NoDup {A} (l : list A) i c x :
  NoDup l → l !! i = Some c →
  x ∈ (take i l ++ drop (i + 1) l)%list ↔ x ∈ l ∧ x ≠ c.
Proof.
  intros Hnd Hi. rewrite <- (take_drop_middle _ _ _ Hi) in Hnd.
  apply NoDup_app in Hnd as (_ & Hdisj & Hnd).
  apply NoDup_cons in Hnd as [Hc _].
  replace (i + 1)%nat with (S i) by lia.
  rewrite <- (take_drop_middle _ _ _ Hi) at 3.
  rewrite !elem_of_app, elem_of_cons. split.
  - intros [Hx|Hx]; (split; [tauto|]); intros ->.
    + apply (Hdisj c Hx). left.
    + contradiction.
  - intros [[Hx|[->|Hx]] Hne]; tauto.
Qed.

Lemma includes_true keys x : Table.includes keys x = true ↔ x ∈ keys.
Proof. unfold Table.includes. apply bool_decide_eq_true. Qed.

Section IndexOfColumn.
Variable Column : Type.
Context `{EqDecision Column}.

Lemma indexOfColumn_None (shown : list Column) c :
  Table.indexOfColumn shown c = None ↔ c ∉ shown.
Proof.
  induction shown as [|y shown IH]; cbn.
  - split; [intros _ H%elem_of_nil; exact H|reflexivity].
  - destruct (decide (y = c)) as [->|Hne].
    + split; [discriminate|]. intros H. destruct H. left.
    + rewrite not_elem_of_cons, <- IH.
      destruct (Table.indexOfColumn shown c); cbn; split; try discriminate;
        intuition congruence.
Qed.

Lemma indexOfColumn_Some (shown : list Column) c i :
  Table.indexOfColumn shown c = Some i → shown !! i = Some c.
Proof.
  revert i. induction shown as [|y shown IH]; intros i; cbn; [discriminate|].
  destruct (decide (y = c)) as [->|Hne].
  - intros [= <-]. reflexivity.
  - destruct (Table.indexOfColumn shown c) as [j|]; [|discriminate].
    intros [= <-]. apply IH. reflexivity.
Qed.

End IndexOfColumn.

Section ShownColumns.
Variable Column : Type.
Variable key : Column → string.

(** Columns with distinct keys are told apart by their keys. *)
Lemma key_inj (columns : list Column) x y :
  NoDup (map key columns) → x ∈ columns → y ∈ columns → key x = key y → x = y.
Proof.
  induction columns as [|c columns IH]; cbn; intros Hnd Hx Hy Hk.
  - apply elem_of_nil in Hx. destruct Hx.
  - apply NoDup_cons in Hnd as [Hc Hnd].
    change (map key columns) with (key <$> columns) in Hc.
    apply elem_of_cons in Hx as [->|Hx]; apply elem_of_cons in Hy as [->|Hy].
    + reflexivity.
    + destruct Hc. rewrite Hk. apply list_elem_of_fmap_2, Hy.
    + destruct Hc. rewrite <- Hk. apply list_elem_of_fmap_2, Hx.
    + auto.
Qed.

(** With distinct keys, a column of the array is shown when it is in the
    state. *)
Lemma shownColumnsObjects_spec (columns state : list Column) x :
  NoDup (map key columns) → (∀ y, y ∈ state → y ∈ columns) →
  x ∈ Table.shownColumnsObjects key columns state ↔ x ∈ columns ∧ x ∈ state.
Proof.
  intros Hnd Hsub. unfold Table.shownColumnsObjects.
  rewrite list_elem_of_filter, includes_true. split.
  - intros [Hk Hx]. split; [exact Hx|].
    change (map key state) with (key <$> state) in Hk.
    apply list_elem_of_fmap in Hk as (y & Hy & Hin).
    assert (x = y) as ->; [|exact Hin].
    apply (key_inj columns); auto.
  - intros [Hx Hs]. split; [|exact Hx].
    change (map key state) with (key <$> state).
    apply list_elem_of_fmap_2, Hs.
Qed.

End ShownColumns.

(** X6.  The columns that the table shows are columns of the [columns]
    array, in the order of that array, whatever the order of the state.
    With the prop [shownColumns] they are the columns whose key the prop
    has. *)
Theorem shown_columns_in_declared_order :
  ∀ (Column : Type) (key : Column → string) (columns state : list Column)
    (keys : list string),
    sublist (Table.shownColumnsObjects key columns state) columns
    ∧ (∀ c, c ∈ Table.shownColumnsObjects key columns state
            ↔ c ∈ columns ∧ key c ∈ map key state)
    ∧ Table.shownColumnsObjects key columns
        (Table.initialShownColumns key columns (Some keys))
      = filter (fun c => key c ∈ keys) columns.
Proof.
  intros Column key columns state keys. unfold Table.shownColumnsObjects.
  cbn [Table.initialShownColumns].
  split; [apply sublist_filter|]. split.
  - intros c. rewrite list_elem_of_filter, includes_true. tauto.
  - apply (filter_ext_in
             (fun c => Table.includes
                         (map key (filter (fun c => Table.includes keys (key c) = true)
                                          columns))
                         (key c) = true)
             (fun c => key c ∈ keys)).
    intros x Hx. rewrite includes_true.
    change (map key ?l) with (key <$> l). rewrite list_elem_of_fmap. split.
    + intros (y & -> & [Hy _]%list_elem_of_filter). apply includes_true, Hy.
    + intros Hk. exists x. split; [reflexivity|].
      apply list_elem_of_filter. split; [apply includes_true, Hk|exact Hx].
Qed.

(** X7.  With distinct keys, a click on a column in the selector flips
    whether that column is shown, and changes no other column. *)
Theorem toggleColumn_flips :
  ∀ (Column : Type) (key : Column → string) `{EqDecision Column}
    (columns state : list Column) (c : Column),
    NoDup (map key columns) → c ∈ columns →
    let shown := Table.shownColumnsObjects key columns state in
    let shown' := Table.shownColumnsObjects key columns
                    (Table.toggleColumn key columns state c) in
    (c ∈ shown' ↔ c ∉ shown)
    ∧ (∀ x, x ≠ c → (x ∈ shown' ↔ x ∈ shown)).
Proof.
  intros Column key Heq columns state c Hnd Hc shown shown'.
  assert (Hsub : ∀ y, y ∈ shown → y ∈ columns).
  { intros y Hy. apply list_elem_of_filter in Hy as [_ Hy]. exact Hy. }
  assert (Hshown : NoDup shown).
  { apply NoDup_filter. eapply NoDup_fmap_1. exact Hnd. }
  assert (Hflip : ∀ x, x ∈ Table.toggleColumn key columns state c
                       ↔ (x = c ∧ c ∉ shown) ∨ (x ≠ c ∧ x ∈ shown)).
  { intros x. unfold Table.toggleColumn, Table.handleToggle. fold shown.
    destruct (Table.indexOfColumn shown c) as [i|] eqn:E.
    - apply indexOfColumn_Some in E.
      rewrite (cut_out_NoDup shown i c x Hshown E).
      assert (c ∈ shown) by (eapply list_elem_of_lookup_2, E). tauto.
    - apply indexOfColumn_None in E. rewrite elem_of_app, list_elem_of_singleton.
      destruct (decide (x = c)) as [->|Hne]; tauto. }
  assert (Hsub' : ∀ y, y ∈ Table.toggleColumn key columns state c → y ∈ columns).
  { intros y [[-> _]|[_ Hy]]%Hflip; auto. }
  split.
  - unfold shown'. rewrite shownColumnsObjects_spec by assumption.
    rewrite Hflip. tauto.
  - intros x Hx. unfold shown'. rewrite shownColumnsObjects_spec by assumption.
    rewrite Hflip. split; [tauto|]. intros Hin. split; [apply Hsub, Hin|tauto].
Qed.

Lemma toggleColumn_flips_example :
  "b" ∉ Table.shownColumnsObjects (fun c : string => c) ["a"; "b"]
          (Table.toggleColumn (fun c : string => c) ["a"; "b"] ["a"; "b"] "b").
Proof.
  pose proof (toggleColumn_flips string (fun c => c) ["a"; "b"] ["a"; "b"] "b") as H.
  cbv zeta in H. destruct H as [H _].
  - apply NoDup_cons. split.
    + intros [E|E]%elem_of_cons; [discriminate|]. apply elem_of_nil in E. exact E.
    + apply NoDup_singleton.
  - right. left.
  - intros Hin. apply H in Hin. apply Hin. vm_compute.
    right. left.
Defined.

(** ** Search.js: the tables of the search bar *)

Lemma occurrences_pos names n :
  n ∈ names → (1 ≤ occurrences (lastSegment n) names)%nat.
Proof.
  intros Hin. unfold occurrences.
  assert (I : n ∈ filter (fun m => lastSegment m = lastSegment n) names)
    by (apply list_elem_of_filter; auto).
  destruct (filter _ names); [apply elem_of_nil in I; destruct I|cbn; lia].
Qed.

Section SearchTables.
Variable searchQuantities : gmap string Quantity.

Lemma quantityNames_NoDup : NoDup (quantityNames searchQuantities).
Proof. apply NoDup_filter, NoDup_fst_map_to_list. Qed.

Lemma quantityNames_spec n :
  n ∈ quantityNames searchQuantities
  ↔ is_Some (searchQuantities !! n) ∧ startsWith n "results" = true.
Proof.
  unfold quantityNames. rewrite list_elem_of_filter, list_elem_of_fmap. split.
  - intros [Hs ([k q] & -> & Hkq%elem_of_map_to_list)]. split; [eexists; exact Hkq|exact Hs].
  - intros [[q Hq] Hs]. split; [exact Hs|]. exists (n, q). split; [reflexivity|].
    apply elem_of_map_to_list, Hq.
Qed.

(** The first loop: the abbreviations that occur twice. *)
Lemma nonUniques_loop names (seen twice : gset string) a :
  a ∈ (foldl
         (fun '(abbreviationSet, nonUniques) abbr =>
            (abbreviationSet ∪ {[abbr]},
             if decide (abbr ∈ abbreviationSet) then nonUniques ∪ {[abbr]}
             else nonUniques))
         (seen, twice) (map lastSegment names)).2
  ↔ a ∈ twice ∨ (a ∈ seen ∧ (1 ≤ occurrences a names)%nat) ∨ (2 ≤ occurrences a names)%nat.
Proof.
  revert seen twice. induction names as [|n names IH]; intros seen twice.
  - cbn. unfold occurrences. cbn. intuition lia.
  - cbn [map foldl]. rewrite IH, occurrences_cons.
    destruct (decide (lastSegment n = a)) as [->|Hne];
      destruct (decide (_ ∈ seen)) as [Hin|Hnin]; set_unfold; intuition (try lia; try congruence).
Qed.

Lemma nonUniques_spec a :
  a ∈ nonUniques searchQuantities
  ↔ (2 ≤ occurrences a (quantityNames searchQuantities))%nat.
Proof.
  unfold nonUniques, abbreviationList. rewrite nonUniques_loop.
  set_unfold. intuition lia.
Qed.

(** The second loop. *)
Lemma abbreviationMaps_loop (N : gset string) (names : list string)
    (A F : gmap string string) :
  let r := foldl
    (fun '(quantityAbbreviations, quantityFullnames) name =>
       let abbr := lastSegment name in
       if decide (abbr ∈ N)
       then (quantityAbbreviations, quantityFullnames)
       else (<[name := abbr]> quantityAbbreviations,
             <[abbr := name]> quantityFullnames))
    (A, F) names in
  (∀ n, r.1 !! n = if decide (n ∈ names ∧ lastSegment n ∉ N)
                   then Some (lastSegment n) else A !! n)
  ∧ (∀ a, r.2 !! a = match last (filter (fun m => lastSegment m = a ∧ a ∉ N) names) with
                     | Some m => Some m
                     | None => F !! a
                     end).
Proof.
  induction names as [|x names IH] using rev_ind; intros r.
  - subst r. cbn. split; intros; [|reflexivity].
    destruct (decide _) as [[H _]|_]; [|reflexivity]. apply elem_of_nil in H. destruct H.
  - subst r. rewrite foldl_app. cbn [foldl]. cbv zeta in IH.
    destruct (foldl _ (A, F) names) as [A' F'] eqn:E. cbn [fst snd] in IH.
    destruct IH as [IHA IHF].
    destruct (decide (lastSegment x ∈ N)) as [Hx|Hx]; cbn [fst snd]; split.
    + intros n. rewrite IHA.
      destruct (decide (n ∈ names ∧ _)) as [H1|H1];
        destruct (decide (n ∈ (names ++ [x])%list ∧ _)) as [H2|H2]; try reflexivity.
      * exfalso. apply H2. rewrite elem_of_app. tauto.
      * exfalso. destruct H2 as [[H2|H2%list_elem_of_singleton]%elem_of_app H3];
          [tauto|congruence].
    + intros a. rewrite IHF, filter_app, filter_cons, filter_nil.
      destruct (decide _) as [[<- H]|_]; [contradiction|].
      rewrite app_nil_r. reflexivity.
    + intros n. destruct (decide (n = x)) as [->|Hne].
      * rewrite lookup_insert_eq. rewrite decide_True; [reflexivity|].
        split; [apply elem_of_app; right; left|exact Hx].
      * rewrite lookup_insert_ne by congruence. rewrite IHA.
        destruct (decide (n ∈ names ∧ _)) as [H1|H1];
          destruct (decide (n ∈ (names ++ [x])%list ∧ _)) as [H2|H2]; try reflexivity.
        -- exfalso. apply H2. rewrite elem_of_app. tauto.
        -- exfalso. destruct H2 as [[H2|H2%list_elem_of_singleton]%elem_of_app H3];
             [tauto|congruence].
    + intros a. rewrite filter_app, filter_cons, filter_nil.
      destruct (decide (lastSegment x = a ∧ a ∉ N)) as [[<- H]|Hn].
      * rewrite lookup_insert_eq, last_snoc. reflexivity.
      * rewrite app_nil_r, <- IHF. apply lookup_insert_ne. intros <-. tauto.
Qed.

(** A name has an abbreviation when it is the only name with its last
    segment. *)
Lemma quantityAbbreviations_spec n a :
  quantityAbbreviations searchQuantities !! n = Some a
  ↔ n ∈ quantityNames searchQuantities ∧ lastSegment n = a
    ∧ occurrences a (quantityNames searchQuantities) = 1%nat.
Proof.
  unfold quantityAbbreviations, abbreviationMaps.
  destruct (abbreviationMaps_loop (nonUniques searchQuantities)
              (quantityNames searchQuantities) ∅ ∅) as [HA _].
  cbv zeta in HA. rewrite HA. clear HA.
  pose proof (occurrences_pos (quantityNames searchQuantities) n) as Hocc.
  destruct (decide _) as [[Hin Hu]|Hno].
  - rewrite nonUniques_spec in Hu. specialize (Hocc Hin). split.
    + intros [= <-]. repeat split; [exact Hin|lia].
    + intros (_ & <- & _). reflexivity.
  - rewrite lookup_empty. split; [discriminate|]. intros (Hin & <- & Hone).
    exfalso. apply Hno. split; [exact Hin|]. rewrite nonUniques_spec. lia.
Qed.

Lemma quantityFullnames_spec a n :
  quantityFullnames searchQuantities !! a = Some n
  ↔ n ∈ quantityNames searchQuantities ∧ lastSegment n = a
    ∧ occurrences a (quantityNames searchQuantities) = 1%nat.
Proof.
  unfold quantityFullnames, abbreviationMaps.
  destruct (abbreviationMaps_loop (nonUniques searchQuantities)
              (quantityNames searchQuantities) ∅ ∅) as [_ HF].
  cbv zeta in HF. rewrite HF. clear HF.
  set (names := quantityNames searchQuantities).
  set (l := filter (fun m => lastSegment m = a ∧ a ∉ nonUniques searchQuantities) names).
  assert (Hl : ∀ m, m ∈ l ↔ lastSegment m = a ∧ (a ∉ nonUniques searchQuantities) ∧ m ∈ names).
  { intros m. unfold l. rewrite list_elem_of_filter. tauto. }
  assert (Hocc : ∀ m, m ∈ names → lastSegment m = a → (1 ≤ occurrences a names)%nat).
  { intros m Hin <-. apply occurrences_pos, Hin. }
  destruct (last l) as [m|] eqn:E.
  - assert (Hm : m ∈ l).
    { apply last_Some in E as [l' ->]. apply elem_of_app. right. left. }
    apply Hl in Hm as (Em & Hu & Hin). rewrite nonUniques_spec in Hu.
    fold names in Hu. pose proof (Hocc m Hin Em).
    split.
    + intros [= <-]. repeat split; [exact Hin|exact Em|lia].
    + intros (Hn & En & Hone). f_equal.
      apply (occurrences_one a names); assumption.
  - rewrite lookup_empty. split; [discriminate|]. intros (Hin & En & Hone).
    exfalso. apply last_None in E.
    assert (Hn : n ∈ l).
    { apply Hl. repeat split; [exact En| |exact Hin].
      rewrite nonUniques_spec. fold names. lia. }
    rewrite E in Hn. apply elem_of_nil in Hn. exact Hn.
Qed.

Lemma quantityFullnames_of_abbreviation n a :
  quantityAbbreviations searchQuantities !! n = Some a →
  quantityFullnames searchQuantities !! a = Some n.
Proof. rewrite quantityAbbreviations_spec, quantityFullnames_spec. auto. Qed.

(** What [resolve] finds is a quantity of the search bar and of the table,
    under [results], with the given name as its last segment. *)
Lemma resolve_Some quantitySet name full :
  resolve searchQuantities quantitySet name = Some full →
  full ∈ quantitySet ∧ full ∈ quantityNames searchQuantities
  ∧ lastSegment full = name.
Proof.
  unfold resolve. destruct (quantityFullnames _ !! name) as [f|] eqn:E; [|discriminate].
  destruct (decide _) as [Hin|]; [|discriminate]. intros [= <-].
  apply quantityFullnames_spec in E as (H1 & H2 & _). auto.
Qed.

Lemma resolve_dotted quantitySet name :
  has_dot name = true → resolve searchQuantities quantitySet name = None.
Proof.
  intros Hdot. destruct (resolve _ _ _) as [full|] eqn:E; [|reflexivity].
  apply resolve_Some in E as (_ & _ & <-).
  rewrite lastSegment_has_no_dot in Hdot. discriminate.
Qed.

End SearchTables.

(** X8: the two tables of the search bar are inverse to each other, and
    they hold the names under [results] whose last segment no other such
    name has: [quantityAbbreviations] maps the name to that segment,
    [quantityFullnames] the segment to the name. *)
Theorem search_tables_inverse (searchQuantities : gmap string Quantity) (name abbr : string) :
  (quantityAbbreviations searchQuantities !! name = Some abbr
   ↔ quantityFullnames searchQuantities !! abbr = Some name)
  ∧ (quantityAbbreviations searchQuantities !! name = Some abbr
     ↔ is_Some (searchQuantities !! name) ∧ startsWith name "results" = true
       ∧ lastSegment name = abbr
       ∧ ∀ other, is_Some (searchQuantities !! other) →
                  startsWith other "results" = true →
                  lastSegment other = abbr → other = name).
Proof.
  split.
  - rewrite quantityAbbreviations_spec, quantityFullnames_spec. reflexivity.
  - rewrite quantityAbbreviations_spec, quantityNames_spec. split.
    + intros ((Hk & Hs) & E & Hone). repeat split; try assumption.
      intros other Hk' Hs' E'.
      apply (occurrences_one abbr (quantityNames searchQuantities)); try assumption;
        apply quantityNames_spec; auto.
    + intros (Hk & Hs & E & Huniq). repeat split; try assumption. subst abbr.
      apply unique_short_occurrences.
      * apply quantityNames_NoDup.
      * apply quantityNames_spec; auto.
      * intros m Hm Em. apply quantityNames_spec in Hm as [? ?]. auto.
Qed.
(** ** Search.js: what the search bar accepts *)

Lemma is_phrase_inv s :
  is_phrase s = true →
  match s with String c _ => non_space c = true | EmptyString => False end
  ∧ all_chars dot s = true ∧ ends_non_space s = true.
Proof.
  unfold is_phrase. intros [[H1 H2]%andb_prop H3]%andb_prop.
  destruct s; [discriminate|]. auto.
Qed.

(** The last group takes a phrase up to its end. *)
Lemma last_group_phrase captures v :
  is_phrase v = true → last_group captures v = Some (captures ++ [v])%list.
Proof.
  intros (Hhead & Hdot & Hend)%is_phrase_inv. unfold last_group.
  rewrite star_skip.
  2:{ destruct v; [destruct Hhead|]. apply non_space_is_space, Hhead. }
  rewrite <- (append_empty_r v) at 1.
  apply capture_reString_phrase; try assumption.
  - intros c s captures' Hs. apply suffix_empty in Hs. discriminate.
  - reflexivity.
Qed.

(** The equality pattern on a phrase, [=] and a phrase without [=]. *)
Lemma exec_reEquals_phrases name value :
  is_phrase name = true → is_phrase value = true →
  all_chars (fun c => negb (Ascii.eqb "=" c)) value = true →
  exec reEquals (valueSuggestion name value) = Some [name; value].
Proof.
  intros (Hhead & Hdot & Hend)%is_phrase_inv Hvalue Hno.
  unfold valueSuggestion. change ("=" ++ value) with (String "=" value).
  rewrite exec_reEquals_unfold, star_skip.
  2:{ destruct name; [destruct Hhead|]. rewrite append_String.
      apply non_space_is_space, Hhead. }
  apply capture_reString_phrase; try assumption.
  - intros c s captures' Hs Hc.
    assert (Hs' : suffix s value).
    { apply suffix_inv in Hs as [[= _ ->]|Hs]; [constructor|].
      eapply suffix_tail, Hs. }
    apply star_fails. intros s3 H3. destruct s3 as [|c3 s3]; [reflexivity|].
    assert (H : negb (Ascii.eqb "=" c3) = true).
    { apply (all_chars_head (fun c => negb (Ascii.eqb "=" c)) c3 s3),
        (all_chars_suffix _ _ value); [|exact Hno].
      eapply suffix_trans; eassumption. }
    apply negb_true_iff in H. cbn -[Ascii.eqb]. rewrite H. reflexivity.
  - rewrite star_skip by reflexivity. cbn [run Char]. cbn [Ascii.eqb Bool.eqb].
    rewrite (last_group_phrase _ value Hvalue). reflexivity.
Qed.

Section Accepted.
Variable searchQuantities : gmap string Quantity.
Variable quantities : list string.

(** A phrase, [=] and a phrase without [=] go to the branch of the
    equality query. *)
Lemma handleSubmit_equals name value :
  is_phrase name = true → is_phrase value = true →
  all_chars (fun c => negb (Ascii.eqb "=" c)) value = true →
  handleSubmit searchQuantities quantities (valueSuggestion name value)
  = equalityQuery searchQuantities (list_to_set quantities) [name; value].
Proof.
  intros Hname Hvalue Hno. unfold handleSubmit.
  rewrite exec_reEquals_phrases by assumption.
  apply is_phrase_inv in Hname as (Hhead & _ & _).
  destruct name as [|c name]; [destruct Hhead|].
  unfold valueSuggestion. rewrite append_String.
  rewrite trim_not_blank by (apply non_space_is_space, Hhead). reflexivity.
Qed.

Lemma check_numeric_SetFilter full k name value :
  check_numeric searchQuantities full k = SetFilter name value →
  k = SetFilter name value ∧ numeric searchQuantities full.
Proof.
  unfold check_numeric, numeric.
  destruct (searchQuantities !! full) as [q|] eqn:E; [|discriminate]. cbn.
  destruct (q_type_data q) as [type_data|] eqn:Et; [|discriminate].
  destruct (startsWith type_data "int") eqn:E1;
    destruct (startsWith type_data "float") eqn:E2; cbn; try discriminate;
    intros ->; (split; [reflexivity|]); exists q, type_data; auto.
Qed.

Lemma check_numeric_throws full k :
  check_numeric searchQuantities full k = ThrowsTypeError →
  is_Some (searchQuantities !! full) →
  k = ThrowsTypeError
  ∨ ∃ q values, searchQuantities !! full = Some q ∧ q_type_data q = TypeEnum values.
Proof.
  unfold check_numeric. intros H [q Hq]. rewrite Hq in H. cbn in H.
  destruct (q_type_data q) as [type_data|values] eqn:Et.
  - left. destruct (_ && _); [discriminate|exact H].
  - right. eauto.
Qed.

Lemma resolve_in_table quantitySet name full :
  resolve searchQuantities quantitySet name = Some full →
  is_Some (searchQuantities !! full).
Proof.
  intros (_ & H & _)%resolve_Some. apply quantityNames_spec in H as [H _]. exact H.
Qed.

End Accepted.

(** X9: a suggested value can be submitted as it is.  For a quantity [q]
    of the search bar with an abbreviation, the input
    [`${name}=${value}`] built for a suggestion sets the filter [q] to
    the string [value], for every value without [=] that starts and ends
    with a character that is not white space and has no line terminator
    (it may have spaces). *)
Theorem suggested_value_sets_filter
    (searchQuantities : gmap string Quantity) (quantities : list string)
    (q name value : string) :
  q ∈ quantities →
  quantityAbbreviations searchQuantities !! q = Some name →
  is_phrase name = true → is_phrase value = true →
  all_chars (fun c => negb (Ascii.eqb "=" c)) value = true →
  handleSubmit searchQuantities quantities
    (valueSuggestion (suggestedName searchQuantities q) value)
  = SetFilter q (Exactly value).
Proof.
  intros Hq Habbr Hname Hvalue Hno.
  assert (E : suggestedName searchQuantities q = name).
  { unfold suggestedName. rewrite Habbr. cbn.
    destruct name; [discriminate|reflexivity]. }
  rewrite E, handleSubmit_equals by assumption.
  unfold equalityQuery. cbn -[resolve]. unfold resolve.
  apply quantityFullnames_of_abbreviation in Habbr. rewrite Habbr.
  rewrite decide_True by (apply elem_of_list_to_set, Hq). reflexivity.
Qed.

Lemma suggested_value_sets_filter_example :
  handleSubmit sample_quantities sample_filters "material_name=Mn O"
  = SetFilter "results.material.material_name" (Exactly "Mn O").
Proof.
  apply (suggested_value_sets_filter sample_quantities sample_filters
           "results.material.material_name" "material_name" "Mn O").
  - vm_compute. right. left.
  - vm_compute. reflexivity.
  - reflexivity.
  - reflexivity.
  - reflexivity.
Defined.

(** X10: a name with a dot is never accepted.  When the name under which
    a quantity is suggested has a dot (the quantity has no abbreviation
    and is suggested under its full name), the input
    [`${name}=${value}`] gets the error "Unknown quantity name". *)
Theorem full_name_is_unknown
    (searchQuantities : gmap string Quantity) (quantities : list string)
    (q value : string) :
  has_dot (suggestedName searchQuantities q) = true →
  is_phrase (suggestedName searchQuantities q) = true →
  is_phrase value = true →
  all_chars (fun c => negb (Ascii.eqb "=" c)) value = true →
  handleSubmit searchQuantities quantities
    (valueSuggestion (suggestedName searchQuantities q) value)
  = SetError "Unknown quantity name".
Proof.
  intros Hdot Hname Hvalue Hno. rewrite handleSubmit_equals by assumption.
  unfold equalityQuery. cbn -[resolve].
  rewrite resolve_dotted by exact Hdot. reflexivity.
Qed.

Lemma full_name_is_unknown_example :
  handleSubmit shared_quantities shared_filters
    "results.method.simulation.gw.type=G0W0"
  = SetError "Unknown quantity name".
Proof.
  apply (full_name_is_unknown shared_quantities shared_filters
           "results.method.simulation.gw.type" "G0W0");
    vm_compute; reflexivity.
Defined.

(** X11: whatever the input, a filter that [handleSubmit] sets is a
    quantity of the search bar and a key of [searchQuantities] under
    [results]; when the value is a range, the type of the quantity starts
    with [int] or [float] and no bound is [NaN]. *)
Theorem handleSubmit_sets_known_quantity
    (searchQuantities : gmap string Quantity) (quantities : list string)
    (inputValue full : string) (queryValue : QueryValue) :
  handleSubmit searchQuantities quantities inputValue = SetFilter full queryValue →
  full ∈ quantities ∧ is_Some (searchQuantities !! full)
  ∧ startsWith full "results" = true
  ∧ match queryValue with
    | Exactly _ => True
    | Range bounds =>
        numeric searchQuantities full
        ∧ ∀ key x, bounds !! key = Some x → isNaN x = false
    end.
Proof.
  assert (Hres : ∀ name f, resolve searchQuantities (list_to_set quantities) name = Some f →
                 f ∈ quantities ∧ is_Some (searchQuantities !! f)
                 ∧ startsWith f "results" = true).
  { intros name f (H1 & H2 & _)%resolve_Some.
    apply elem_of_list_to_set in H1. apply quantityNames_spec in H2 as [? ?]. auto. }
  unfold handleSubmit. destruct (_ =? _)%nat; [discriminate|].
  destruct (exec reEquals inputValue) as [equals|].
  { unfold equalityQuery. destruct (resolve _ _ _) as [f|] eqn:E; [|discriminate].
    intros [= <- <-]. destruct (Hres _ _ E) as (? & ? & ?). auto. }
  destruct (exec reLtegte inputValue) as [ltegte|].
  { unfold simpleQuery.
    set (a := default "" (ltegte !! 0%nat)). set (b := default "" (ltegte !! 2%nat)).
    destruct (resolve _ _ a) as [fa|] eqn:Ea;
      [|destruct (resolve _ _ b) as [fb|] eqn:Eb; [|discriminate]]; cbn [default];
      (destruct (isNaN _) eqn:En; [discriminate|]);
      intros [[= <- <-] Hnum]%check_numeric_SetFilter.
    - destruct (Hres _ _ Ea) as (? & ? & ?). repeat split; try assumption.
      intros key x [[<- <-]|[_ H2]]%lookup_insert_Some; [exact En|].
      rewrite lookup_empty in H2. discriminate.
    - destruct (Hres _ _ Eb) as (? & ? & ?). repeat split; try assumption.
      intros key x [[<- <-]|[_ H2]]%lookup_insert_Some; [exact En|].
      rewrite lookup_empty in H2. discriminate. }
  destruct (exec reLtegteSandwich inputValue) as [sandwich|]; [|discriminate].
  unfold sandwichQuery. destruct (resolve _ _ _) as [f|] eqn:E; [|discriminate].
  destruct (isNaN (parseFloat (default "" (sandwich !! 0%nat)))) eqn:Ea; [discriminate|].
  destruct (isNaN (parseFloat (default "" (sandwich !! 4%nat)))) eqn:Ec; [discriminate|].
  cbn [orb]. intros [[= <- <-] Hnum]%check_numeric_SetFilter.
  destruct (Hres _ _ E) as (? & ? & ?). repeat split; try assumption.
  intros key x [[<- <-]|[_ [[<- <-]|[_ H2]]%lookup_insert_Some]]%lookup_insert_Some;
    [exact Ec|exact Ea|].
  rewrite lookup_empty in H2. discriminate.
Qed.

Lemma handleSubmit_sets_known_quantity_example :
  "results.material.n_elements" ∈ sample_filters
  ∧ is_Some (sample_quantities !! "results.material.n_elements")
  ∧ startsWith "results.material.n_elements" "results" = true
  ∧ numeric sample_quantities "results.material.n_elements"
  ∧ ∀ key x,
      ({[ "lt" := Decimal false 5 0 ]} : gmap string Number) !! key = Some x →
      isNaN x = false.
Proof.
  apply (handleSubmit_sets_known_quantity sample_quantities sample_filters
           "n_elements < 5" "results.material.n_elements"
           (Range {[ "lt" := Decimal false 5 0 ]})).
  vm_compute. reflexivity.
Defined.

(** X12: [handleSubmit] ends in a [TypeError] only when a quantity of the
    search bar has a list (an enumeration) as its [type_data]. *)
Theorem handleSubmit_throws_on_enumeration
    (searchQuantities : gmap string Quantity) (quantities : list string)
    (inputValue : string) :
  handleSubmit searchQuantities quantities inputValue = ThrowsTypeError →
  ∃ full q values,
    full ∈ quantities ∧ searchQuantities !! full = Some q
    ∧ q_type_data q = TypeEnum values.
Proof.
  assert (Hres : ∀ name f k,
             resolve searchQuantities (list_to_set quantities) name = Some f →
             check_numeric searchQuantities f k = ThrowsTypeError →
             k ≠ ThrowsTypeError →
             ∃ full q values,
               full ∈ quantities ∧ searchQuantities !! full = Some q
               ∧ q_type_data q = TypeEnum values).
  { intros name f k Hf Hk Hne.
    apply check_numeric_throws in Hk as [Hk|(q & values & Hq & Ht)];
      [contradiction| |eapply resolve_in_table, Hf].
    exists f, q, values. repeat split; try assumption.
    apply resolve_Some in Hf as [Hf _]. apply elem_of_list_to_set in Hf. exact Hf. }
  unfold handleSubmit. destruct (_ =? _)%nat; [discriminate|].
  destruct (exec reEquals inputValue) as [equals|].
  { unfold equalityQuery. destruct (resolve _ _ _); discriminate. }
  destruct (exec reLtegte inputValue) as [ltegte|].
  { unfold simpleQuery.
    set (a := default "" (ltegte !! 0%nat)). set (b := default "" (ltegte !! 2%nat)).
    destruct (resolve _ _ a) as [fa|] eqn:Ea;
      [|destruct (resolve _ _ b) as [fb|] eqn:Eb; [|discriminate]]; cbn [default];
      (destruct (isNaN _); [discriminate|]); intros H;
      eapply Hres; try eassumption; discriminate. }
  destruct (exec reLtegteSandwich inputValue) as [sandwich|]; [|discriminate].
  unfold sandwichQuery. destruct (resolve _ _ _) as [f|] eqn:E; [|discriminate].
  destruct (_ || _); [discriminate|]. intros H.
  eapply Hres; try eassumption; discriminate.
Qed.

Lemma handleSubmit_throws_on_enumeration_example :
  ∃ full q values,
    full ∈ enum_filters ∧ enum_quantities !! full = Some q
    ∧ q_type_data q = TypeEnum values.
Proof.
  apply (handleSubmit_throws_on_enumeration enum_quantities enum_filters
           "method_name < 5").
  vm_compute. reflexivity.
Defined.
(** ** Search.js: white space around the input *)

Lemma rejects_space_non_space : rejects_space non_space.
Proof. intros c H. unfold non_space. rewrite H. reflexivity. Qed.

Lemma rejects_space_Char a : is_space a = false → rejects_space (Ascii.eqb a).
Proof.
  intros Ha c Hc. destruct (Ascii.eqb_spec a c) as [->|]; [congruence|reflexivity].
Qed.

Lemma needs_char_Class p : rejects_space p → needs_char (Class p).
Proof.
  intros Hp [|c s] captures k H; [reflexivity|]. cbn. rewrite (Hp c H). reflexivity.
Qed.

Lemma needs_char_Seq r1 r2 : needs_char r1 → needs_char (Seq r1 r2).
Proof. intros H s captures k Hs. cbn. apply H, Hs. Qed.

Lemma needs_char_Capture r : needs_char r → needs_char (Capture r).
Proof. intros H s captures k Hs. cbn. apply H, Hs. Qed.

Lemma needs_char_Alt r1 r2 : needs_char r1 → needs_char r2 → needs_char (Alt r1 r2).
Proof. intros H1 H2 s captures k Hs. cbn. rewrite H1 by exact Hs. apply H2, Hs. Qed.

(** White space at the start of the input is skipped. *)
Lemma run_leading_space r c s captures k :
  needs_char r → is_space c = true →
  run (Seq (Star is_space) r) (String c s) captures k
  = run (Seq (Star is_space) r) s captures k.
Proof.
  intros Hr Hc. cbn. rewrite Hc. rewrite (Hr (String c s)) by exact Hc.
  destruct (star _ _ _); reflexivity.
Qed.

Lemma substring_prefix (s w : string) n :
  (n ≤ String.length s)%nat → substring 0 n (s ++ w) = substring 0 n s.
Proof.
  revert n. induction s as [|c s IH]; intros n Hn.
  - cbn in Hn. replace n with 0%nat by lia. rewrite append_Empty.
    destruct w; reflexivity.
  - rewrite append_String. destruct n as [|n]; [reflexivity|].
    cbn in Hn. cbn. f_equal. apply IH. lia.
Qed.

Lemma substring_before (s t w : string) :
  substring 0 (String.length (s ++ w) - String.length (t ++ w)) (s ++ w)
  = substring 0 (String.length s - String.length t) s.
Proof.
  rewrite !length_append.
  replace (_ + _ - _)%nat with (String.length s - String.length t)%nat by lia.
  apply substring_prefix. lia.
Qed.

Lemma trimStart_spaces w : all_chars is_space w = true → trimStart w = "".
Proof.
  induction w as [|c w IH]; [reflexivity|]. cbn.
  intros [Hc Hw]%andb_prop. rewrite Hc. apply IH, Hw.
Qed.

Lemma trimEnd_spaces w : all_chars is_space w = true → trimEnd w = "".
Proof.
  induction w as [|c w IH]; [reflexivity|]. cbn.
  intros [Hc Hw]%andb_prop. rewrite IH, Hc by exact Hw. reflexivity.
Qed.

Lemma at_end_spaces captures w :
  all_chars is_space w = true → at_end captures w = Some captures.
Proof.
  unfold at_end. induction w as [|c w IH]; [reflexivity|]. cbn [all_chars star].
  intros [Hc Hw]%andb_prop. rewrite Hc, IH by exact Hw. reflexivity.
Qed.

Section TrailingSpace.
Variable w : string.
Hypothesis Hw : all_chars is_space w = true.

Lemma starts_with_space t :
  suffix t w →
  match t with String c _ => is_space c = true | EmptyString => True end.
Proof.
  intros Ht. destruct t as [|c t]; [exact I|].
  apply (all_chars_head is_space c t), (all_chars_suffix _ _ w); assumption.
Qed.

Lemma stable_Class p : rejects_space p → stable w (Class p).
Proof.
  intros Hp [|c s] captures k' k Hk.
  - rewrite append_Empty. apply needs_char_Class; [exact Hp|].
    apply starts_with_space. constructor.
  - rewrite append_String. cbn. destruct (p c); [apply Hk|reflexivity].
Qed.

Lemma stable_Seq r1 r2 : stable w r1 → stable w r2 → stable w (Seq r1 r2).
Proof.
  intros H1 H2 s captures k' k Hk. cbn. apply H1. intros t c. apply H2, Hk.
Qed.

Lemma stable_Alt r1 r2 : stable w r1 → stable w r2 → stable w (Alt r1 r2).
Proof.
  intros H1 H2 s captures k' k Hk. cbn.
  rewrite (H1 s captures k' k Hk), (H2 s captures k' k Hk). reflexivity.
Qed.

Lemma stable_Opt r : stable w r → stable w (Opt r).
Proof.
  intros H s captures k' k Hk. cbn. rewrite (H s captures k' k Hk), Hk.
  reflexivity.
Qed.

Lemma stable_Capture r : stable w r → stable w (Capture r).
Proof.
  intros H s captures k' k Hk. cbn -[substring String.length Nat.sub].
  apply H. intros t c. rewrite Hk, substring_before. reflexivity.
Qed.

(** The scan [.*\S] of [reString] does not stop in the white space at the
    end. *)
Lemma scan_trailing {A} p (k' k : string → option A) s :
  (∀ t, k' (t ++ w) = k t) →
  star p (s ++ w) (then_non_space k') = star p s (then_non_space k).
Proof.
  intros Hk. induction s as [|c s IH].
  - rewrite append_Empty. cbn [star]. rewrite star_fails; [reflexivity|].
    intros t Ht%starts_with_space. destruct t as [|c t]; [reflexivity|].
    cbn. unfold non_space. rewrite Ht. reflexivity.
  - rewrite append_String. cbn [star]. rewrite IH.
    assert (E : then_non_space k' (String c (s ++ w)) = then_non_space k (String c s)).
    { cbn. destruct (non_space c); [apply Hk|reflexivity]. }
    rewrite E. reflexivity.
Qed.

Lemma stable_scan : stable w (Seq (Star dot) (Class non_space)).
Proof.
  intros s captures k' k Hk.
  change (star dot (s ++ w) (then_non_space (fun s' => k' s' captures))
          = star dot s (then_non_space (fun s' => k s' captures))).
  apply scan_trailing. intros t. apply Hk.
Qed.

(** The end [\s*$] of the patterns. *)
Lemma closes_end : closes w (Seq (Star is_space) Eol).
Proof.
  intros s captures.
  change (at_end captures (s ++ w) = at_end captures s).
  induction s as [|c s IH].
  - rewrite append_Empty. apply at_end_spaces, Hw.
  - rewrite append_String. unfold at_end in *. cbn [star]. rewrite IH. reflexivity.
Qed.

Lemma closes_Seq r1 r2 : stable w r1 → closes w r2 → closes w (Seq r1 r2).
Proof.
  intros H1 H2 s captures. cbn. apply H1. intros t c. apply H2.
Qed.

Lemma closes_star r :
  needs_char r → closes w r → closes w (Seq (Star is_space) r).
Proof.
  intros Hn Hr s captures. cbn [run].
  induction s as [|c s IH].
  - rewrite append_Empty. cbn [star]. rewrite star_fails.
    + symmetry. apply Hn. exact I.
    + intros t Ht. apply Hn, starts_with_space, Ht.
  - rewrite append_String. cbn [star]. rewrite IH.
    pose proof (Hr (String c s) captures) as E. rewrite append_String in E.
    rewrite E. reflexivity.
Qed.

Lemma trimEnd_trailing s : trimEnd (s ++ w) = trimEnd s.
Proof.
  induction s as [|c s IH].
  - rewrite append_Empty. apply trimEnd_spaces, Hw.
  - rewrite append_String. cbn. rewrite IH. reflexivity.
Qed.

Lemma trim_trailing s : trim (s ++ w) = trim s.
Proof.
  unfold trim. induction s as [|c s IH].
  - rewrite append_Empty, trimStart_spaces by exact Hw. reflexivity.
  - rewrite append_String. cbn [trimStart]. destruct (is_space c); [exact IH|].
    rewrite <- append_String. apply trimEnd_trailing.
Qed.

End TrailingSpace.


Ltac regex_shape :=
  repeat first
    [ apply closes_end | apply closes_star | apply closes_Seq
    | apply stable_scan | apply stable_Capture | apply stable_Seq
    | apply stable_Alt | apply stable_Opt | apply stable_Class
    | apply needs_char_Seq | apply needs_char_Capture | apply needs_char_Alt
    | apply needs_char_Class
    | apply rejects_space_non_space
    | apply rejects_space_Char; reflexivity
    | assumption ].

Lemma closes_patterns w :
  all_chars is_space w = true →
  closes w reEquals ∧ closes w reLtegte ∧ closes w reLtegteSandwich.
Proof.
  intros Hw. unfold reEquals, reLtegte, reLtegteSandwich, seq, reOp, reString, Char.
  repeat split; regex_shape.
Qed.

Lemma handleSubmit_trailing searchQuantities quantities inputValue w :
  all_chars is_space w = true →
  handleSubmit searchQuantities quantities (inputValue ++ w)
  = handleSubmit searchQuantities quantities inputValue.
Proof.
  intros Hw. destruct (closes_patterns w Hw) as (H1 & H2 & H3).
  unfold handleSubmit, exec. rewrite trim_trailing, H1, H2, H3 by exact Hw.
  reflexivity.
Qed.

Lemma handleSubmit_leading searchQuantities quantities inputValue w :
  all_chars is_space w = true →
  handleSubmit searchQuantities quantities (w ++ inputValue)
  = handleSubmit searchQuantities quantities inputValue.
Proof.
  induction w as [|c w IH]; [rewrite append_Empty; reflexivity|].
  cbn. intros [Hc Hw]%andb_prop. rewrite append_String, <- IH by exact Hw.
  unfold handleSubmit, exec, trim. cbn [trimStart]. rewrite Hc.
  unfold reEquals, reLtegte, reLtegteSandwich, seq.
  rewrite !(run_leading_space _ c) by
    (try exact Hc; unfold reOp, reString, Char; regex_shape).
  reflexivity.
Qed.

(** X13: white space around the input does not count.  With white space
    before and after it, an input is handled as without. *)
Theorem handleSubmit_ignores_outer_space
    (searchQuantities : gmap string Quantity) (quantities : list string)
    (before inputValue after : string) :
  all_chars is_space before = true → all_chars is_space after = true →
  handleSubmit searchQuantities quantities (before ++ inputValue ++ after)
  = handleSubmit searchQuantities quantities inputValue.
Proof.
  intros Hb Ha. rewrite handleSubmit_leading by exact Hb.
  apply handleSubmit_trailing, Ha.
Qed.

Lemma handleSubmit_ignores_outer_space_example :
  handleSubmit sample_quantities sample_filters "  n_elements < 5 "
  = handleSubmit sample_quantities sample_filters "n_elements < 5".
Proof.
  apply (handleSubmit_ignores_outer_space sample_quantities sample_filters
           "  " "n_elements < 5" " "); reflexivity.
Defined.
(** ** Search.js: the options shown and the pagination *)

Lemma prefix_refl (s : string) : String.prefix s s = true.
Proof.
  induction s as [|c s IH]; [reflexivity|]. cbn.
  destruct (ascii_dec c c); [exact IH|congruence].
Qed.

Lemma includes_refl s : includes s s = true.
Proof. destruct s; cbn [includes]; rewrite prefix_refl; reflexivity. Qed.

Lemma includes_empty s : includes s "" = true.
Proof. destruct s; reflexivity. Qed.

Lemma is_space_toLowerCase c : is_space (toLowerCase_char c) = is_space c.
Proof. destruct c as [[] [] [] [] [] [] [] []]; reflexivity. Qed.

Lemma toLowerCase_char_idempotent c :
  toLowerCase_char (toLowerCase_char c) = toLowerCase_char c.
Proof. destruct c as [[] [] [] [] [] [] [] []]; reflexivity. Qed.

Lemma trimStart_toLowerCase s : trimStart (toLowerCase s) = toLowerCase (trimStart s).
Proof.
  induction s as [|c s IH]; [reflexivity|]. cbn.
  rewrite is_space_toLowerCase. destruct (is_space c); [exact IH|reflexivity].
Qed.

Lemma trimEnd_toLowerCase s : trimEnd (toLowerCase s) = toLowerCase (trimEnd s).
Proof.
  induction s as [|c s IH]; [reflexivity|]. cbn.
  rewrite IH, is_space_toLowerCase.
  destruct (trimEnd s); cbn; [destruct (is_space c)|]; reflexivity.
Qed.

Lemma trim_toLowerCase s : trim (toLowerCase s) = toLowerCase (trim s).
Proof. unfold trim. rewrite trimStart_toLowerCase. apply trimEnd_toLowerCase. Qed.

Lemma trim_leading w s : all_chars is_space w = true → trim (w ++ s) = trim s.
Proof.
  unfold trim. induction w as [|c w IH]; [rewrite append_Empty; reflexivity|].
  cbn [all_chars]. intros [Hc Hw]%andb_prop. rewrite append_String. cbn [trimStart].
  rewrite Hc. apply IH, Hw.
Qed.

Lemma trim_spaces w : all_chars is_space w = true → trim w = "".
Proof. intros H. unfold trim. rewrite trimStart_spaces by exact H. reflexivity. Qed.

(** X14: what [filterOptions] keeps.  The options shown are options given,
    in their order; an option of another category than 'quantity name' is
    always shown; with an input of white space only every option is
    shown; and an option is shown when its value is the input. *)
Theorem filterOptions_keeps (options : list Suggestion) (inputValue : string) :
  filterOptions options inputValue `sublist_of` options
  ∧ (∀ option, option ∈ options → s_category option ≠ "quantity name" →
               option ∈ filterOptions options inputValue)
  ∧ (all_chars is_space inputValue = true →
     filterOptions options inputValue = options)
  ∧ (∀ option, option ∈ options →
               option ∈ filterOptions options (s_value option)).
Proof.
  unfold filterOptions. repeat split.
  - apply sublist_filter.
  - intros option Hin Hcat. apply list_elem_of_filter. split; [|exact Hin].
    apply String.eqb_neq in Hcat. rewrite Hcat. reflexivity.
  - intros Hblank. rewrite trim_spaces by exact Hblank.
    induction options as [|option options IH]; [reflexivity|].
    rewrite filter_cons. cbn [toLowerCase]. rewrite includes_empty.
    cbn [orb] in *. rewrite decide_True by (destruct (negb _); reflexivity).
    f_equal. exact IH.
  - intros option Hin. apply list_elem_of_filter. split; [|exact Hin].
    rewrite includes_refl. destruct (negb _); reflexivity.
Qed.

(** X15: [filterOptions] looks neither at the case of the letters of the
    input nor at the white space around it: two inputs that are the same
    in small letters give the same options, also with white space around
    one of them. *)
Theorem filterOptions_case_and_space
    (options : list Suggestion) (before input after input' : string) :
  all_chars is_space before = true → all_chars is_space after = true →
  toLowerCase input = toLowerCase input' →
  filterOptions options (before ++ input ++ after) = filterOptions options input'.
Proof.
  intros Hb Ha Hlow. unfold filterOptions.
  rewrite trim_leading, trim_trailing by assumption.
  rewrite <- !trim_toLowerCase, Hlow. reflexivity.
Qed.

Lemma filterOptions_case_and_space_example :
  filterOptions [mkSuggestion "n_elements" "quantity name";
                 mkSuggestion "material_name" "quantity name"] " N_Elem "
  = filterOptions [mkSuggestion "n_elements" "quantity name";
                   mkSuggestion "material_name" "quantity name"] "n_elem".
Proof.
  apply (filterOptions_case_and_space _ " " "N_Elem" " " "n_elem"); reflexivity.
Defined.

Section ObjectFilter.
Context {V : Type}.

Lemma objectFilter_loop (l : list (string * V)) (res : gmap string V) k :
  NoDup l.*1 →
  foldl (fun res '(key, value) =>
           if decide (key = "__proto__") then res else <[key := value]> res)
        res l !! k
  = match list_find (fun kv => kv.1 = k) l with
    | Some (_, (_, v)) => if decide (k = "__proto__") then res !! k else Some v
    | None => res !! k
    end.
Proof.
  revert res. induction l as [|[key value] l IH]; intros res Hnd; [reflexivity|].
  cbn [foldl]. rewrite fmap_cons in Hnd. apply NoDup_cons in Hnd as [Hkey Hnd].
  rewrite IH by exact Hnd. cbn [list_find fst].
  destruct (decide (key = k)) as [->|Hne].
  - destruct (list_find _ l) as [[i [k' v]]|] eqn:E; cbn.
    + apply list_find_Some in E as (Hi & E & _). cbn in E. subst k'.
      exfalso. apply Hkey. apply list_elem_of_fmap. exists (k, v).
      split; [reflexivity|]. eapply list_elem_of_lookup_2, Hi.
    + destruct (decide (k = "__proto__")); [reflexivity|apply lookup_insert_eq].
  - destruct (list_find _ l) as [[i [k' v]]|] eqn:E; cbn.
    + destruct (decide (k = "__proto__")) as [->|]; [|reflexivity].
      destruct (decide (key = "__proto__")); [reflexivity|].
      apply lookup_insert_ne, Hne.
    + destruct (decide (key = "__proto__")); [reflexivity|].
      apply lookup_insert_ne, Hne.
Qed.

Lemma objectFilter_lookup (obj : gmap string V) predicate k :
  objectFilter obj predicate !! k
  = if predicate k && negb (String.eqb k "__proto__") then obj !! k else None.
Proof.
  unfold objectFilter.
  set (l := filter (fun '(key, _) => predicate key = true) (map_to_list obj)).
  assert (Hl : ∀ key v, (key, v) ∈ l ↔ predicate key = true ∧ obj !! key = Some v).
  { intros key v. unfold l. rewrite list_elem_of_filter, elem_of_map_to_list.
    reflexivity. }
  assert (Hnd : NoDup l.*1).
  { unfold l. apply (NoDup_fmap_fst l).
    - intros key v1 v2 [_ H1]%Hl [_ H2]%Hl. congruence.
    - apply NoDup_filter, NoDup_map_to_list. }
  rewrite objectFilter_loop by exact Hnd. rewrite lookup_empty.
  destruct (list_find _ l) as [[i [k' v]]|] eqn:E.
  - apply list_find_Some in E as (Hi & E & _). cbn in E. subst k'.
    apply list_elem_of_lookup_2, Hl in Hi as [-> Hv].
    destruct (decide (k = "__proto__")) as [->|Hne]; [reflexivity|].
    apply String.eqb_neq in Hne. rewrite Hne, Hv. reflexivity.
  - destruct (predicate k) eqn:Hp; [|reflexivity].
    destruct (String.eqb k "__proto__"); [reflexivity|]. cbn.
    destruct (obj !! k) as [v|] eqn:Ev; [|reflexivity].
    exfalso. apply list_find_None in E.
    assert (Hin : (k, v) ∈ l) by (apply Hl; auto).
    rewrite Forall_forall in E. apply (E _ Hin). reflexivity.
Qed.

End ObjectFilter.

(** X16: [objectFilter] keeps the properties whose key satisfies the
    predicate, with their values, and nothing else; a property under the
    key [__proto__] is not kept. *)
Theorem objectFilter_keeps {V} (obj : gmap string V) (predicate : string → bool)
    (key : string) (value : V) :
  objectFilter obj predicate !! key = Some value
  ↔ obj !! key = Some value ∧ predicate key = true ∧ key ≠ "__proto__".
Proof.
  rewrite objectFilter_lookup. destruct (predicate key); cbn.
  - destruct (String.eqb_spec key "__proto__") as [->|Hne]; cbn.
    + split; [discriminate|]. intros (_ & _ & H). contradiction.
    + split; [auto|]. intros [H _]. exact H.
  - split; [discriminate|]. intros (_ & H & _). discriminate.
Qed.

Lemma usePagination_lookup params key :
  usePagination params !! key
  = if decide (key = "page")
    then Some (jor (default JUndefined (params !! "page")) (JNum 1))
    else match params !! key with
         | Some v => if truthy v && negb (String.eqb key "__proto__")
                     then Some v else None
         | None => None
         end.
Proof.
  unfold usePagination. destruct (decide (key = "page")) as [->|Hne].
  - rewrite lookup_insert_eq, objectFilter_lookup. f_equal. unfold jor.
    destruct (params !! "page") as [v|]; cbn; [|reflexivity].
    destruct (truthy v) eqn:E; cbn; rewrite ?E; reflexivity.
  - rewrite lookup_insert_ne by congruence. rewrite objectFilter_lookup.
    destruct (params !! key) as [v|]; cbn; [|reflexivity].
    destruct (truthy v && _); reflexivity.
Qed.

(** X17: the request parameters of [usePagination].  The page is the
    page of the URL when that is truthy, and [1] when the URL has no page
    or a falsy one.  Every parameter handed on is truthy; a truthy
    parameter of the URL is handed on as it is (but under the key
    [__proto__]), and no other parameter is added; the parameters that
    come out are left as they are when they go in again. *)
Theorem usePagination_normalises (params : gmap string jsval) :
  usePagination params !! "page"
  = Some (match params !! "page" with
          | Some page => if truthy page then page else JNum 1
          | None => JNum 1
          end)
  ∧ (∀ key v, usePagination params !! key = Some v → truthy v = true)
  ∧ (∀ key v, key ≠ "__proto__" → params !! key = Some v → truthy v = true →
              usePagination params !! key = Some v)
  ∧ (∀ key v, key ≠ "page" → usePagination params !! key = Some v →
              params !! key = Some v)
  ∧ usePagination (usePagination params) = usePagination params.
Proof.
  assert (Htruthy : ∀ key v, usePagination params !! key = Some v → truthy v = true).
  { intros key v. rewrite usePagination_lookup.
    destruct (decide _) as [->|_].
    - intros [= <-]. unfold jor.
      destruct (truthy (default JUndefined (params !! "page"))) eqn:E;
        [exact E|reflexivity].
    - destruct (params !! key) as [v'|]; [|discriminate].
      destruct (truthy v') eqn:E; [|discriminate].
      destruct (negb _); [|discriminate]. intros [= <-]. exact E. }
  assert (Hkept : ∀ key v, key ≠ "page" → usePagination params !! key = Some v →
                           params !! key = Some v ∧ key ≠ "__proto__").
  { intros key v Hne. rewrite usePagination_lookup, decide_False by exact Hne.
    destruct (params !! key) as [v'|]; [|discriminate].
    destruct (truthy v'); [|discriminate].
    destruct (String.eqb_spec key "__proto__"); [discriminate|].
    intros [= <-]. auto. }
  split; [|split; [|split; [|split]]].
  - rewrite usePagination_lookup, decide_True by reflexivity. f_equal. unfold jor.
    destruct (params !! "page") as [page|]; reflexivity.
  - exact Htruthy.
  - intros key v Hproto Hv Ht. rewrite usePagination_lookup.
    destruct (decide _) as [->|_]; rewrite Hv; cbn.
    + unfold jor. rewrite Ht. reflexivity.
    + apply String.eqb_neq in Hproto. rewrite Ht, Hproto. reflexivity.
  - intros key v Hne H. apply (Hkept key v Hne H).
  - apply map_eq. intros key. rewrite (usePagination_lookup (usePagination params)).
    destruct (usePagination params !! key) as [v|] eqn:E.
    + pose proof (Htruthy key v E) as Ht.
      destruct (decide (key = "page")) as [->|Hne].
      * rewrite E. cbn. unfold jor. rewrite Ht. reflexivity.
      * destruct (Hkept key v Hne E) as [_ Hproto].
        apply String.eqb_neq in Hproto. rewrite Ht, Hproto. reflexivity.
    + destruct (decide _) as [->|_]; [|reflexivity].
      rewrite usePagination_lookup in E. discriminate.
Qed.

(** ** The registry after the registrations *)

Section Registered.
Variable searchQuantities : gmap string Quantity.
Variable imports : Imports.

(** What a call that returns has stored, and the checks it has passed. *)
Lemma saveFilter_Returned_inv r name group config parent r' :
  saveFilter searchQuantities imports r name group config parent = Returned r' →
  ∃ dim data,
    r' = mkRegistry (add_to_group (filterGroups r) group name)
                    (<[name := data]> (filterData r))
    ∧ data = assign_default_resources config
               (assign_queryMode_global config
                  (assign_to_scale searchQuantities imports (filterData r) name
                     config parent dim
                     (assign_to_serializers searchQuantities imports name config
                        (default emptyData (filterData r !! name)))))
    ∧ (if truthy_str (fd_unit data)
       then is_Some dim ∧ dim = unitDimension imports (default "" (fd_unit data))
       else dim = fd_unit data)
    ∧ truthy_str (fd_queryMode (default emptyData (filterData r !! name)))
      && negb (default true (cfg_multiple config)) = false
    ∧ truthy (cfg_default config) && negb (truthy_bool (cfg_global config)) = false.
Proof.
  unfold saveFilter. intros H.
  destruct (if truthy_str _ then _ else _) as [dim|] eqn:Edim; [|discriminate].
  destruct (truthy_str _ && _) eqn:Eq; [discriminate|].
  destruct (truthy _ && _) eqn:Ed; [discriminate|].
  injection H as <-. exists dim. eexists. split; [reflexivity|].
  split; [reflexivity|]. cbn in *. repeat split; try assumption.
  destruct (truthy_str _).
  - destruct (unitDimension imports _) as [x|]; [|discriminate].
    injection Edim as <-. split; [eauto|reflexivity].
  - injection Edim as <-. reflexivity.
Qed.

(** Every entry of the registry is as the call that stored it last left
    it. *)
Lemma registered_entry r name data :
  registered searchQuantities imports r →
  filterData r !! name = Some data →
  (truthy (fd_default data) = true → fd_global data = Some true)
  ∧ truthy_str (fd_queryMode data) = true
  ∧ fd_serializerExact data = Some (mkSerializer (fd_dtype data) false)
  ∧ fd_serializerPretty data = Some (mkSerializer (fd_dtype data) true)
  ∧ fd_deserializer data = Some (mkDeserializer (fd_dtype data) (fd_dimension data))
  ∧ (if truthy_str (fd_unit data)
     then is_Some (fd_dimension data)
          ∧ fd_dimension data = unitDimension imports (default "" (fd_unit data))
     else fd_dimension data = fd_unit data)
  ∧ fd_section data = Some (bool_decide (is_Some (fd_nested data))).
Proof.
  intros Hr. revert name data.
  induction Hr as [|r name' group config parent r' Hr IH Hsave]; intros name data.
  - cbn. rewrite lookup_empty. discriminate.
  - destruct (saveFilter_Returned_inv _ _ _ _ _ _ Hsave)
      as (dim & data' & -> & Edata & Hdim & _ & Hdefault).
    cbn [filterData]. destruct (decide (name' = name)) as [->|Hne].
    + rewrite lookup_insert_eq. intros [= <-]. rewrite Edata in *. clear Edata.
      cbn in *. repeat split; try assumption.
      * intros Ht. rewrite Ht in Hdefault. cbn in Hdefault.
        destruct (cfg_global config) as [[]|]; try discriminate. reflexivity.
      * unfold str_or_else. destruct (cfg_queryMode config) as [m|]; [|reflexivity].
        destruct (String.eqb m "") eqn:E; [reflexivity|]. cbn. rewrite E. reflexivity.
    + rewrite lookup_insert_ne by exact Hne. apply IH.
Qed.

Lemma add_to_group_lookup groups group name g :
  add_to_group groups group name !! g
  = if truthy_str group && bool_decide (g = default "" group)
    then Some (default ∅ (groups !! g) ∪ {[name]})
    else groups !! g.
Proof.
  unfold add_to_group. destruct (truthy_str group); [|reflexivity]. cbn [andb].
  destruct (bool_decide_reflect (g = default "" group)) as [->|Hne].
  - destruct (groups !! default "" group) as [names|] eqn:E;
      rewrite lookup_insert_eq; cbn; f_equal. set_solver.
  - destruct (groups !! default "" group);
      rewrite lookup_insert_ne by congruence; reflexivity.
Qed.

(** The groups have members, all of them registered, under a name that is
    not empty. *)
Lemma registered_group r g names :
  registered searchQuantities imports r →
  filterGroups r !! g = Some names →
  g ≠ "" ∧ names ≠ ∅ ∧ ∀ n, n ∈ names → is_Some (filterData r !! n).
Proof.
  intros Hr. revert g names.
  induction Hr as [|r name group config parent r' Hr IH Hsave]; intros g names.
  - cbn. rewrite lookup_empty. discriminate.
  - destruct (saveFilter_Returned_inv _ _ _ _ _ _ Hsave) as (dim & data & -> & _).
    cbn [filterGroups filterData]. rewrite add_to_group_lookup.
    destruct (truthy_str group) eqn:Hg; cbn [andb].
    + destruct (bool_decide_reflect (g = default "" group)) as [->|Hne].
      * intros [= <-]. repeat split.
        -- destruct group as [s|]; [|discriminate]. cbn in *.
           intros ->. discriminate.
        -- set_solver.
        -- intros n [Hn|Hn%elem_of_singleton]%elem_of_union.
           ++ destruct (filterGroups r !! default "" group) as [names|] eqn:E;
                cbn in Hn; [|set_solver].
              destruct (IH _ _ E) as (_ & _ & Hall).
              destruct (decide (name = n)) as [->|Hne];
                [rewrite lookup_insert_eq; eauto|].
              rewrite lookup_insert_ne by exact Hne. apply Hall, Hn.
           ++ subst n. rewrite lookup_insert_eq. eauto.
      * intros E. destruct (IH _ _ E) as (H1 & H2 & Hall). repeat split; auto.
        intros n Hn. destruct (decide (name = n)) as [->|Hne'];
          [rewrite lookup_insert_eq; eauto|].
        rewrite lookup_insert_ne by exact Hne'. apply Hall, Hn.
    + intros E. destruct (IH _ _ E) as (H1 & H2 & Hall). repeat split; auto.
      intros n Hn. destruct (decide (name = n)) as [->|Hne'];
        [rewrite lookup_insert_eq; eauto|].
      rewrite lookup_insert_ne by exact Hne'. apply Hall, Hn.
Qed.

(** The steps of [registerFilter]: the registry before the last
    sub-quantity, and the call for it. *)
Lemma registerFilter_snoc r name group config subs sub r' :
  registerFilter searchQuantities imports r name group config (Some (subs ++ [sub])%list)
  = Returned r' →
  ∃ r1, registerFilter searchQuantities imports r name group config (Some subs)
        = Returned r1
        ∧ saveFilter searchQuantities imports r1 (subname name sub) group sub (Some name)
          = Returned r'.
Proof.
  unfold registerFilter.
  change (default [] (Some (subs ++ [sub])%list)) with (subs ++ [sub])%list.
  change (default [] (Some subs)) with subs.
  rewrite foldl_app. cbn [foldl].
  destruct (foldl _ _ subs) as [r1|e r1]; [|discriminate]. cbn [and_then].
  intros H. exists r1. split; [reflexivity|exact H].
Qed.

Lemma registerFilter_registered r name group config subQuantities r' :
  registerFilter searchQuantities imports r name group config subQuantities
  = Returned r' →
  let subs := default [] subQuantities in
  let members := name :: map (subname name) subs in
  (∀ n, n ∈ members → is_Some (filterData r' !! n))
  ∧ (∀ n, is_Some (filterData r !! n) → is_Some (filterData r' !! n))
  ∧ (truthy_str group = true →
     ∃ names, filterGroups r' !! default "" group = Some names
              ∧ ∀ n, n ∈ members → n ∈ names)
  ∧ (registered searchQuantities imports r → registered searchQuantities imports r').
Proof.
  assert (Hsome : registerFilter searchQuantities imports r name group config
                     subQuantities
                   = registerFilter searchQuantities imports r name group config
                       (Some (default [] subQuantities))).
  { destruct subQuantities; reflexivity. }
  rewrite Hsome. clear Hsome. cbv zeta.
  generalize (default [] subQuantities). clear subQuantities. intros subs.
  revert r'. induction subs as [|sub subs IH] using rev_ind; intros r'.
  - unfold registerFilter. cbn [default foldl map]. intros Hsave.
    destruct (saveFilter_Returned_inv _ _ _ _ _ _ Hsave) as (dim & data & E & _).
    rewrite E in *. clear E.
    cbn [filterData filterGroups]. repeat split.
    + intros n ->%list_elem_of_singleton. rewrite lookup_insert_eq. eauto.
    + intros n Hn. destruct (decide (name = n)) as [->|Hne];
        [rewrite lookup_insert_eq; eauto|].
      rewrite lookup_insert_ne by exact Hne. exact Hn.
    + intros Hg. rewrite add_to_group_lookup, Hg, bool_decide_true by reflexivity.
      cbn. eexists. split; [reflexivity|].
      intros n ->%list_elem_of_singleton. set_solver.
    + intros Hr. exact (registered_save _ _ r name group config None _ Hr Hsave).
  - intros (r1 & H1 & Hsave)%registerFilter_snoc.
    destruct (IH r1 H1) as (Hmem & Hmono & Hgroup & Hreg).
    destruct (saveFilter_Returned_inv _ _ _ _ _ _ Hsave) as (dim & data & E & _).
    rewrite E in *. clear E.
    cbn [filterData filterGroups].
    assert (Hkeep : ∀ n, is_Some (filterData r1 !! n) →
                         is_Some (<[subname name sub := data]> (filterData r1) !! n)).
    { intros n Hn. destruct (decide (subname name sub = n)) as [->|Hne];
        [rewrite lookup_insert_eq; eauto|].
      rewrite lookup_insert_ne by exact Hne. exact Hn. }
    repeat split.
    + intros n Hn. rewrite map_app, app_comm_cons in Hn.
      apply elem_of_app in Hn as [Hn|Hn%list_elem_of_singleton].
      * apply Hkeep, Hmem, Hn.
      * subst n. rewrite lookup_insert_eq. eauto.
    + intros n Hn. apply Hkeep, Hmono, Hn.
    + intros Hg. destruct (Hgroup Hg) as (names & Hnames & Hall).
      rewrite add_to_group_lookup, Hg, bool_decide_true by reflexivity.
      cbn. eexists. split; [reflexivity|]. rewrite Hnames. cbn.
      intros n Hn. rewrite map_app, app_comm_cons in Hn.
      apply elem_of_app in Hn as [Hn|Hn%list_elem_of_singleton].
      * apply elem_of_union. left. apply Hall, Hn.
      * subst n. set_solver.
    + intros Hr. eapply registered_save; [apply Hreg, Hr|exact Hsave].
Qed.

End Registered.

(** X18: a default needs [global].  In a registry built by calls of
    [saveFilter] that returned, every filter with a truthy default value
    is a global filter. *)
Theorem default_needs_global
    (searchQuantities : gmap string Quantity) (imports : Imports)
    (r : Registry) (name : string) (data : FilterData) :
  registered searchQuantities imports r →
  filterData r !! name = Some data →
  truthy (fd_default data) = true →
  fd_global data = Some true.
Proof.
  intros Hr Hdata. apply (registered_entry _ _ _ _ _ Hr Hdata).
Qed.

Lemma default_needs_global_combine :
  ∃ data, filterData combine_filter !! "combine" = Some data
          ∧ fd_global data = Some true.
Proof.
  eexists. split; [vm_compute; reflexivity|].
  eapply (default_needs_global ∅ plainImports combine_filter "combine").
  - eapply (registered_save ∅ plainImports emptyRegistry "combine" None
              combine_config None); [apply registered_empty|].
    vm_compute. reflexivity.
  - vm_compute. reflexivity.
  - reflexivity.
Defined.

(** X19: the entries of the registry are consistent.  The serializers and
    the deserializer of a registered filter are those of its [dtype] (and
    of its dimension), its dimension is the dimension of its unit (or the
    falsy unit itself), and [section] tells whether [nested] is set. *)
Theorem registered_entry_consistent
    (searchQuantities : gmap string Quantity) (imports : Imports)
    (r : Registry) (name : string) (data : FilterData) :
  registered searchQuantities imports r →
  filterData r !! name = Some data →
  fd_serializerExact data = Some (mkSerializer (fd_dtype data) false)
  ∧ fd_serializerPretty data = Some (mkSerializer (fd_dtype data) true)
  ∧ fd_deserializer data = Some (mkDeserializer (fd_dtype data) (fd_dimension data))
  ∧ (if truthy_str (fd_unit data)
     then is_Some (fd_dimension data)
          ∧ fd_dimension data = unitDimension imports (default "" (fd_unit data))
     else fd_dimension data = fd_unit data)
  ∧ fd_section data = Some (bool_decide (is_Some (fd_nested data))).
Proof.
  intros Hr Hdata. apply (registered_entry _ _ _ _ _ Hr Hdata).
Qed.

Lemma registered_entry_consistent_n_elements :
  ∃ data, filterData one_filter !! "results.material.n_elements" = Some data
          ∧ fd_serializerExact data = Some (mkSerializer (fd_dtype data) false)
          ∧ fd_dimension data = fd_unit data.
Proof.
  eexists. split; [vm_compute; reflexivity|].
  pose proof (registered_entry_consistent ∅ plainImports one_filter
                "results.material.n_elements" _
                (registered_save ∅ plainImports emptyRegistry
                   "results.material.n_elements" (Some "elements")
                   n_elements_config None one_filter
                   (registered_empty ∅ plainImports) eq_refl)
                eq_refl) as (H1 & _ & _ & H4 & _).
  split; [exact H1|exact H4].
Defined.

(** X20: the groups hold registered filters.  In a registry built by
    calls of [saveFilter] that returned, a group has a name that is not
    empty and at least one member, and every member is a registered
    filter. *)
Theorem groups_hold_registered
    (searchQuantities : gmap string Quantity) (imports : Imports)
    (r : Registry) (group : string) (names : gset string) :
  registered searchQuantities imports r →
  filterGroups r !! group = Some names →
  group ≠ "" ∧ names ≠ ∅ ∧ ∀ n, n ∈ names → is_Some (filterData r !! n).
Proof. apply registered_group. Qed.

Lemma groups_hold_registered_elements :
  "elements" ≠ "" ∧ ({[ "results.material.n_elements" ]} : gset string) ≠ ∅
  ∧ ∀ n, n ∈ ({[ "results.material.n_elements" ]} : gset string) →
         is_Some (filterData one_filter !! n).
Proof.
  apply (groups_hold_registered ∅ plainImports one_filter "elements").
  - apply (registered_save ∅ plainImports emptyRegistry
             "results.material.n_elements" (Some "elements")
             n_elements_config None one_filter
             (registered_empty ∅ plainImports)).
    vm_compute. reflexivity.
  - vm_compute. reflexivity.
Defined.

(** X21: a filter that is registered cannot be registered again with
    [multiple: false].  The entry has a query mode from its first
    registration, so that [saveFilter] does not return, whatever the
    group and the query mode of the new config.  Without a group, what
    it throws is the error of the query mode, unless the unit has thrown
    before. *)
Theorem multiple_false_not_again
    (searchQuantities : gmap string Quantity) (imports : Imports)
    (r : Registry) (name : string) (group : option string) (config : Config)
    (parent : option string) :
  registered searchQuantities imports r →
  is_Some (filterData r !! name) →
  cfg_multiple config = Some false →
  (∀ r', saveFilter searchQuantities imports r name group config parent
         ≠ Returned r')
  ∧ ∃ e r', saveFilter searchQuantities imports r name None config parent
            = Threw e r'
            ∧ (e = ErrQueryMode ∨ ∃ unit, e = ErrUnit unit).
Proof.
  intros Hr [data Hdata] Hm.
  destruct (registered_entry _ _ _ _ _ Hr Hdata) as (_ & Hq & _).
  assert (Hthrows : ∀ g, ∃ e r', saveFilter searchQuantities imports r name g
                                   config parent = Threw e r'
                                 ∧ (e = ErrQueryMode ∨ ∃ unit, e = ErrUnit unit)).
  { intros g. unfold saveFilter. rewrite Hdata.
    change (default emptyData (Some data)) with data.
    destruct (if truthy_str _ then _ else _) as [dim|]; [|eauto 6].
    cbn [assign_to_scale assign_to_serializers fd_queryMode fd_multiple].
    rewrite Hq, Hm. cbn. eauto. }
  split; [|apply Hthrows].
  intros r' Hreturned. destruct (Hthrows group) as (e & r'' & Hthrew & _).
  congruence.
Qed.

Lemma multiple_false_not_again_n_elements :
  (∀ r', saveFilter ∅ plainImports one_filter "results.material.n_elements"
           (Some "elements") n_elements_config None ≠ Returned r')
  ∧ ∃ e r', saveFilter ∅ plainImports one_filter "results.material.n_elements"
              None n_elements_config None = Threw e r'
            ∧ (e = ErrQueryMode ∨ ∃ unit, e = ErrUnit unit).
Proof.
  apply (multiple_false_not_again ∅ plainImports one_filter).
  - apply (registered_save ∅ plainImports emptyRegistry
             "results.material.n_elements" (Some "elements")
             n_elements_config None one_filter
             (registered_empty ∅ plainImports)).
    vm_compute. reflexivity.
  - vm_compute. eauto.
  - reflexivity.
Defined.

(** X22: [registerFilter], when it returns, has registered the filter and
    one filter [`${name}.${subConfig.name}`] for each sub-quantity, all of
    them members of the group (when there is one); the filters registered
    before are still registered. *)
Theorem registerFilter_registers
    (searchQuantities : gmap string Quantity) (imports : Imports)
    (r : Registry) (name : string) (group : option string) (config : Config)
    (subQuantities : option (list Config)) (r' : Registry) :
  registerFilter searchQuantities imports r name group config subQuantities
  = Returned r' →
  let members := name :: map (subname name) (default [] subQuantities) in
  (∀ n, n ∈ members → is_Some (filterData r' !! n))
  ∧ (∀ n, is_Some (filterData r !! n) → is_Some (filterData r' !! n))
  ∧ (truthy_str group = true →
     ∃ names, filterGroups r' !! default "" group = Some names
              ∧ ∀ n, n ∈ members → n ∈ names).
Proof.
  intros H. destruct (registerFilter_registered _ _ _ _ _ _ _ _ H)
    as (H1 & H2 & H3 & _).
  cbv zeta. auto.
Qed.

Lemma registerFilter_registers_band_structure :
  is_Some (filterData band_structure_filters
             !! "results.properties.electronic.band_structure_electronic.spin_polarized").
Proof.
  assert (H : registerFilter ∅ plainImports emptyRegistry
                "results.properties.electronic.band_structure_electronic"
                (Some "electronic") (with_label "Band Structure" nestedQuantity)
                (Some [spin_polarized_config])
              = Returned band_structure_filters) by (vm_compute; reflexivity).
  destruct (registerFilter_registers _ _ _ _ _ _ _ _ H) as [Hmembers _].
  apply Hmembers. right. left.
Defined.
(** ** getEnumOptions *)

Lemma enum_options_loop (values : list string) (opt : gmap string string) name :
  foldl (fun (opt : gmap string string) name => <[name := name]> opt) opt values !! name
  = if decide (name ∈ values) then Some name else opt !! name.
Proof.
  revert opt. induction values as [|v values IH]; intros opt.
  - cbn. rewrite decide_False; [reflexivity|]. apply not_elem_of_nil.
  - cbn [foldl]. rewrite IH.
    destruct (decide (name ∈ values)) as [Hin|Hnin].
    + rewrite decide_True; [reflexivity|]. right. exact Hin.
    + destruct (decide (v = name)) as [->|Hne].
      * rewrite lookup_insert_eq, decide_True; [reflexivity|left].
      * rewrite lookup_insert_ne by exact Hne. rewrite decide_False; [reflexivity|].
        intros [?|?]%elem_of_cons; congruence.
Qed.

Lemma getEnumOptions_Some (searchQuantities : gmap string Quantity) quantity options :
  getEnumOptions searchQuantities quantity = Some options →
  ∃ q values,
    searchQuantities !! quantity = Some q ∧ q_type_data q = TypeEnum values
    ∧ values ≠ []
    ∧ options = delete "not processed"
                  (foldl (fun (opt : gmap string string) name => <[name := name]> opt)
                         ∅ values).
Proof.
  unfold getEnumOptions.
  destruct (searchQuantities !! quantity) as [q|]; [|discriminate].
  change (q_type_data <$> Some q) with (Some (q_type_data q)).
  destruct (q_type_data q) as [|[|v vs]] eqn:Et; try discriminate.
  intros H. exists q, (v :: vs).
  split; [reflexivity|]. split; [exact Et|]. split; [discriminate|].
  symmetry. injection H as H. exact H.
Qed.

(** X23: the options read from the metainfo.  When [getEnumOptions] gives
    options, the quantity is an enumeration with a value at least, and
    the options are its values but 'not processed', each with itself as
    its label. *)
Theorem getEnumOptions_values
    (searchQuantities : gmap string Quantity) (quantity : string)
    (options : gmap string string) :
  getEnumOptions searchQuantities quantity = Some options →
  ∃ q values,
    searchQuantities !! quantity = Some q ∧ q_type_data q = TypeEnum values
    ∧ values ≠ []
    ∧ ∀ name label,
        options !! name = Some label
        ↔ label = name ∧ name ∈ values ∧ name ≠ "not processed".
Proof.
  intros (q & values & Hq & Et & Hne & ->)%getEnumOptions_Some.
  exists q, values. repeat (split; [assumption|]).
  intros name label. rewrite lookup_delete_Some, enum_options_loop, lookup_empty.
  destruct (decide (name ∈ values)) as [Hin|Hnin]; split.
  - intros [Hne' [= <-]]. auto.
  - intros (-> & _ & Hne'). auto.
  - intros [_ H]. discriminate.
  - intros (_ & Hin & _). contradiction.
Qed.

Lemma getEnumOptions_values_method_name :
  ∃ q values,
    enum_quantities !! "results.method.method_name" = Some q
    ∧ q_type_data q = TypeEnum values
    ∧ values ≠ []
    ∧ ∀ name label,
        ({[ "DFT" := "DFT"; "GW" := "GW" ]} : gmap string string) !! name = Some label
        ↔ label = name ∧ name ∈ values ∧ name ≠ "not processed".
Proof.
  apply (getEnumOptions_values enum_quantities "results.method.method_name").
  vm_compute. reflexivity.
Defined.

(** ** The names of the materials search *)






(** ** Static suggestions *)

Lemma slices_spec s t :
  t ∈ slices s
  ↔ ∃ before c, s = before ++ String c t ∧ (c = " "%char ∨ c = "."%char).
Proof.
  split.
  - induction s as [|c s IH]; cbn [slices]; [intros H; apply elem_of_nil in H; destruct H|].
    intros H.
    assert (Hrest : t ∈ slices s →
                    ∃ before c', String c s = before ++ String c' t
                                 ∧ (c' = " "%char ∨ c' = "."%char)).
    { intros (before & c' & -> & Hc')%IH. exists (String c before), c'.
      rewrite append_String. auto. }
    destruct (Ascii.eqb c " " || Ascii.eqb c ".") eqn:E; [|auto].
    apply elem_of_cons in H as [->|H]; [|auto].
    exists "", c. rewrite append_Empty. split; [reflexivity|].
    apply orb_prop in E as [E|E]; apply Ascii.eqb_eq in E; auto.
  - intros (before & c & -> & Hc). induction before as [|b before IH].
    + rewrite append_Empty. cbn [slices].
      replace (Ascii.eqb c " " || Ascii.eqb c ".") with true; [left|].
      destruct Hc as [->| ->]; reflexivity.
    + rewrite append_String. cbn [slices].
      destruct (_ || _); [right|]; exact IH.
Qed.

Lemma insert_by_length_perm a l : insert_by_length a l ≡ₚ a :: l.
Proof.
  induction l as [|b l IH]; [reflexivity|]. cbn.
  destruct (_ <=? _)%nat; [reflexivity|]. rewrite IH. apply Permutation_swap.
Qed.

Lemma sort_by_length_perm l : sort_by_length l ≡ₚ l.
Proof.
  induction l as [|a l IH]; [reflexivity|]. cbn.
  rewrite insert_by_length_perm, IH. reflexivity.
Qed.

Lemma insert_by_length_sorted a l :
  StronglySorted by_length l → StronglySorted by_length (insert_by_length a l).
Proof.
  induction l as [|b l IH]; intros Hs; cbn.
  - repeat constructor.
  - apply StronglySorted_inv in Hs as [Hl Hb].
    destruct (String.length (so_value a) <=? String.length (so_value b))%nat eqn:E.
    + apply Nat.leb_le in E. constructor; [constructor; assumption|].
      constructor; [exact E|].
      eapply Forall_impl; [exact Hb|]. unfold by_length. intros c Hc. lia.
    + apply Nat.leb_gt in E. constructor; [apply IH, Hl|].
      rewrite insert_by_length_perm. constructor; [unfold by_length; lia|exact Hb].
Qed.

Lemma sort_by_length_sorted l : StronglySorted by_length (sort_by_length l).
Proof.
  induction l as [|a l IH]; cbn; [constructor|].
  apply insert_by_length_sorted, IH.
Qed.

(** The sort keeps the order of the options of one length. *)
Lemma insert_by_length_stable k a l :
  filter (fun o => String.length (so_value o) = k) (insert_by_length a l)
  = filter (fun o => String.length (so_value o) = k) (a :: l).
Proof.
  induction l as [|b l IH]; [reflexivity|]. cbn [insert_by_length].
  destruct (String.length (so_value a) <=? String.length (so_value b))%nat eqn:E;
    [reflexivity|].
  apply Nat.leb_gt in E. rewrite filter_cons, IH, !filter_cons.
  destruct (decide (String.length (so_value b) = k));
    destruct (decide (String.length (so_value a) = k)); try reflexivity. lia.
Qed.

Lemma sort_by_length_stable k l :
  filter (fun o => String.length (so_value o) = k) (sort_by_length l)
  = filter (fun o => String.length (so_value o) = k) l.
Proof.
  induction l as [|a l IH]; [reflexivity|]. cbn [sort_by_length foldr].
  rewrite insert_by_length_stable, !filter_cons. fold (sort_by_length l).
  rewrite IH. reflexivity.
Qed.

(** X25: the suggestions of [getSuggestions].  For an input shorter than
    [minLength] there is none.  Otherwise the suggestions are the options
    with a token that starts with the cleaned input, each one once, in
    the order of the lengths of their values, and in the order of the
    options among those of one length. *)
Theorem getSuggestions_filter_sorted
    (options : list StaticOption) (minLength : nat) (input : string) :
  let suggestions := getSuggestions_filter options minLength input in
  let matching :=
    if (String.length input <? minLength)%nat then []
    else filter (fun option =>
                   existsb (fun token => startsWith token (cleaned input))
                           (so_tokens option) = true)
                options in
  suggestions ≡ₚ matching
  ∧ StronglySorted by_length suggestions
  ∧ ∀ k, filter (fun o => String.length (so_value o) = k) suggestions
         = filter (fun o => String.length (so_value o) = k) matching.
Proof.
  unfold getSuggestions_filter. cbv zeta.
  destruct (String.length input <? minLength)%nat.
  - split; [reflexivity|]. split; [constructor|]. reflexivity.
  - split; [apply sort_by_length_perm|]. split; [apply sort_by_length_sorted|].
    intros k. apply sort_by_length_stable.
Qed.

(** X26: the tokens of an option.  An option of [getSuggestions] has the
    value it was made from; its tokens are its cleaned value and what
    follows each space and each dot of it. *)
Theorem getSuggestions_tokens
    (category : string) (values : list string) (text : string → string)
    (option : StaticOption) (token : string) :
  option ∈ getSuggestions_options category values text →
  so_value option ∈ values
  ∧ (token ∈ so_tokens option
     ↔ token = cleaned (so_value option)
       ∨ ∃ before c, cleaned (so_value option) = before ++ String c token
                     ∧ (c = " "%char ∨ c = "."%char)).
Proof.
  unfold getSuggestions_options. intros (value & -> & Hin)%list_elem_of_fmap.
  cbn [so_value so_tokens]. split; [exact Hin|].
  rewrite elem_of_app, list_elem_of_singleton, slices_spec. reflexivity.
Qed.

Lemma getSuggestions_tokens_n_elements :
  "results.material.n_elements" ∈ ["results.material.n_elements"]
  ∧ ("n elements"
       ∈ ["results.material.n elements"; "material.n elements"; "n elements";
          "elements"]
     ↔ "n elements" = cleaned "results.material.n_elements"
       ∨ ∃ before c, cleaned "results.material.n_elements"
                     = before ++ String c "n elements"
                     ∧ (c = " "%char ∨ c = "."%char)).
Proof.
  apply (getSuggestions_tokens "quantity name" ["results.material.n_elements"]
           (fun value => value)
           (mkStaticOption "results.material.n_elements" "quantity name"
              "results.material.n_elements"
              ["results.material.n elements"; "material.n elements"; "n elements";
               "elements"])
           "n elements").
  vm_compute. left.
Defined.

(** ** utils.js *)

Lemma strict_eq_true a b : Table.strict_eq a b = true → a = b.
Proof.
  unfold Table.strict_eq. destruct a, b; try discriminate;
    intros H; apply bool_decide_eq_true in H; exact H.
Qed.

Lemma strict_eq_same v : v ≠ JNaN → Table.strict_eq v v = true.
Proof.
  intros H. unfold Table.strict_eq.
  destruct v; try (apply bool_decide_eq_true; reflexivity). contradiction.
Qed.

(** X27: [isEquivalent] against equality.  For an object [a] none of
    whose properties is undefined or [NaN], [isEquivalent(a, b)] holds
    exactly when [b] has the same properties with the same values. *)
Theorem isEquivalent_iff_equal (a b : gmap string jsval) :
  (∀ key v, a !! key = Some v → v ≠ JUndefined ∧ v ≠ JNaN) →
  isEquivalent a b = true ↔ a = b.
Proof.
  intros Hdef. unfold isEquivalent. rewrite !length_fmap, !length_map_to_list.
  split.
  - destruct (Nat.eqb_spec (size a) (size b)) as [Hsize|]; [|discriminate].
    cbn [negb]. rewrite forallb_forall. intros Hall.
    apply map_subseteq_size_eq; [|lia].
    apply map_subseteq_spec. intros key v Hv.
    assert (Hin : In key (map_to_list a).*1).
    { apply list_elem_of_In, list_elem_of_fmap. exists (key, v).
      split; [reflexivity|]. apply elem_of_map_to_list, Hv. }
    apply Hall, strict_eq_true in Hin. rewrite Hv in Hin. cbn in Hin.
    destruct (b !! key) as [v'|]; cbn in Hin; [congruence|].
    destruct (Hdef key v Hv) as [Hu _]. congruence.
  - intros <-. rewrite Nat.eqb_refl. cbn [negb]. apply forallb_forall.
    intros key Hin. apply list_elem_of_In, list_elem_of_fmap in Hin
      as ([k v] & -> & Hv%elem_of_map_to_list).
    cbn. rewrite Hv. cbn. apply strict_eq_same, (Hdef k v Hv).
Qed.

Lemma isEquivalent_iff_equal_example :
  isEquivalent {[ "page" := JNum 1; "order_by" := JStr "upload_create_time" ]}
               {[ "order_by" := JStr "upload_create_time"; "page" := JNum 1 ]}
  = true
  ↔ ({[ "page" := JNum 1; "order_by" := JStr "upload_create_time" ]}
       : gmap string jsval)
    = {[ "order_by" := JStr "upload_create_time"; "page" := JNum 1 ]}.
Proof.
  apply (isEquivalent_iff_equal
           {[ "page" := JNum 1; "order_by" := JStr "upload_create_time" ]}).
  intros key v H.
  apply lookup_insert_Some in H as [[_ <-]|[_ H]]; [split; discriminate|].
  apply lookup_singleton_Some in H as [_ <-]. split; discriminate.
Defined.

(** *** arraysEqual *)

Lemma ascii_compare_refl c : Ascii.compare c c = Eq.
Proof. unfold Ascii.compare. apply N.compare_refl. Qed.

Lemma string_leb_refl s : String.leb s s = true.
Proof.
  unfold String.leb. induction s as [|c s IH]; [reflexivity|]. cbn.
  rewrite ascii_compare_refl. exact IH.
Qed.

Lemma string_leb_trans a b c :
  String.leb a b = true → String.leb b c = true → String.leb a c = true.
Proof.
  unfold String.leb. revert b c.
  induction a as [|x a IH]; intros [|y b] [|z c]; cbn; try done.
  unfold Ascii.compare.
  destruct (N.compare_spec (N_of_ascii x) (N_of_ascii y)) as [Exy|Lxy|Gxy];
    destruct (N.compare_spec (N_of_ascii y) (N_of_ascii z)) as [Eyz|Lyz|Gyz];
    try done.
  - rewrite Exy, Eyz, N.compare_refl. apply IH.
  - intros _ _. rewrite Exy. apply N.compare_lt_iff in Lyz. rewrite Lyz. reflexivity.
  - intros _ _. rewrite <- Eyz. apply N.compare_lt_iff in Lxy. rewrite Lxy. reflexivity.
  - intros _ _. assert (H : (N_of_ascii x < N_of_ascii z)%N) by lia.
    apply N.compare_lt_iff in H. rewrite H. reflexivity.
Qed.

Lemma sort_insert_perm x l : sort_insert x l ≡ₚ x :: l.
Proof.
  induction l as [|y l IH]; [reflexivity|]. cbn.
  destruct (String.leb x y); [reflexivity|]. rewrite IH. apply Permutation_swap.
Qed.

Lemma sort_perm l : sort l ≡ₚ l.
Proof.
  induction l as [|x l IH]; [reflexivity|]. cbn.
  rewrite sort_insert_perm, IH. reflexivity.
Qed.

Lemma sort_insert_sorted x l :
  StronglySorted (fun a b => String.leb a b = true) l →
  StronglySorted (fun a b => String.leb a b = true) (sort_insert x l).
Proof.
  induction l as [|y l IH]; intros Hs; cbn.
  - repeat constructor.
  - apply StronglySorted_inv in Hs as [Hl Hy].
    destruct (String.leb x y) eqn:E.
    + constructor; [constructor; assumption|]. constructor; [exact E|].
      eapply Forall_impl; [exact Hy|]. intros z Hz.
      eapply string_leb_trans; eassumption.
    + constructor; [apply IH, Hl|]. rewrite sort_insert_perm.
      constructor; [|exact Hy].
      destruct (String.leb_total x y) as [H|H]; [congruence|exact H].
Qed.

Lemma sort_sorted l : StronglySorted (fun a b => String.leb a b = true) (sort l).
Proof.
  induction l as [|x l IH]; cbn; [constructor|]. apply sort_insert_sorted, IH.
Qed.

Lemma same_at_each_index_eq arr1 arr2 :
  length arr1 = length arr2 →
  same_at_each_index arr1 arr2 = true ↔ arr1 = arr2.
Proof.
  revert arr2. induction arr1 as [|x arr1 IH]; intros [|y arr2]; cbn; try done.
  intros [= Hlen]. destruct (String.eqb_spec x y) as [->|Hne].
  - rewrite (IH arr2 Hlen). split; [intros ->; reflexivity|intros [= ->]; reflexivity].
  - split; [discriminate|]. intros [= ? ?]. contradiction.
Qed.

(** X28: [arraysEqual] is equality up to the order.  Two arrays of
    strings are equal for [arraysEqual] exactly when one is a permutation
    of the other: the same strings, each as many times. *)
Theorem arraysEqual_iff_permutation (arr1 arr2 : list string) :
  arraysEqual (Some arr1) (Some arr2) = true ↔ arr1 ≡ₚ arr2.
Proof.
  unfold arraysEqual. split.
  - destruct (Nat.eqb_spec (length arr1) (length arr2)) as [Hlen|]; [|discriminate].
    cbn [negb]. rewrite same_at_each_index_eq.
    + intros H. rewrite <- (sort_perm arr1), <- (sort_perm arr2), H. reflexivity.
    + rewrite (Permutation_length (sort_perm arr1)),
        (Permutation_length (sort_perm arr2)). exact Hlen.
  - intros Hperm. rewrite (Permutation_length Hperm), Nat.eqb_refl. cbn [negb].
    apply same_at_each_index_eq.
    + rewrite (Permutation_length (sort_perm arr1)),
        (Permutation_length (sort_perm arr2)). apply Permutation_length, Hperm.
    + apply (StronglySorted_unique_strong (fun a b => String.leb a b = true)).
      * intros x1 x2 _ _. apply String.leb_antisym.
      * apply sort_sorted.
      * apply sort_sorted.
      * rewrite !sort_perm. exact Hperm.
Qed.

(** *** onlyUnique *)



